(** * Revenue monitoring: cleaning, risk scoring and aggregation of [app.py]

    A shallow embedding of the data pipeline of [src/app.py]:
    [clean_data], the reporting-currency conversion, [calculate_risk_score],
    the KPI block and the country hypothesis check, followed by the
    properties of the specification that concern them.

    Modelling conventions.
    - A Python [str] is a list of Unicode code points ([str]).  Literals are
      written as UTF-8 text and decoded once by [utf8].
    - A pandas float is a rational ([Q]); [None] stands for NaN/NaT, so a
      float or datetime cell is an [option].  Amounts and their sums are
      exact: the rounding of binary floating point is outside the model
      there.  The ratios of the hypothesis check, whose verdict turns on
      the last bit of a product, are doubles: every operation on them is
      rounded to the nearest double ([XFloat]).
    - A timestamp is a number of nanoseconds since the epoch ([Z]).
    - The streamlit widgets, charts and the Excel writer are not modelled;
      the values the user selects in the sidebar are function arguments. *)

From Stdlib Require Import Strings.String Strings.Ascii.
From Stdlib Require Import List Bool ZArith NArith QArith Qreduction Qround.
From Stdlib Require Import Qabs Qpower Lia Lqa.
From Stdlib Require Import Sorting.Sorted Sorting.Permutation.
Import ListNotations.

Local Open Scope bool_scope.

(** ** Python strings *)

Module Text.

Definition str := list N.

(** Bytes of a UTF-8 literal. *)
Fixpoint bytes (s : string) : list N :=
  match s with
  | EmptyString => []
  | String a s' => N_of_ascii a :: bytes s'
  end.

(** UTF-8 decoding, as [pd.read_csv(..., encoding='utf-8')] and the Python
    lexer do it.  Stray bytes are kept as they are. *)
Fixpoint decode (bs : list N) : str :=
  match bs with
  | [] => []
  | b0 :: r0 =>
    if (b0 <? 192)%N then b0 :: decode r0
    else match r0 with
    | [] => [b0]
    | b1 :: r1 =>
      if (b0 <? 224)%N
      then ((b0 mod 32) * 64 + b1 mod 64)%N :: decode r1
      else match r1 with
      | [] => [b0; b1]
      | b2 :: r2 =>
        if (b0 <? 240)%N
        then (((b0 mod 16) * 64 + b1 mod 64) * 64 + b2 mod 64)%N :: decode r2
        else match r2 with
        | [] => [b0; b1; b2]
        | b3 :: r3 =>
          ((((b0 mod 8) * 64 + b1 mod 64) * 64 + b2 mod 64) * 64 + b3 mod 64)%N
            :: decode r3
        end
      end
    end
  end.

Definition utf8 (s : string) : str := decode (bytes s).

Fixpoint eqb (a b : str) : bool :=
  match a, b with
  | [], [] => true
  | x :: a', y :: b' => (x =? y)%N && eqb a' b'
  | _, _ => false
  end.

(** [x in [a, b, c]] on strings. *)
Definition mem (x : str) (l : list str) : bool := existsb (eqb x) l.

(** *** [str.replace] and its case-insensitive variant

    [prefix_by eqc pat s] tells whether [s] starts with [pat], characters
    compared by [eqc] (first argument from the pattern). *)
Fixpoint prefix_by (eqc : N -> N -> bool) (pat s : str) : bool :=
  match pat, s with
  | [], _ => true
  | p :: pat', c :: s' => eqc p c && prefix_by eqc pat' s'
  | _ :: _, [] => false
  end.

(** Leftmost, non-overlapping replacement of every occurrence of a non-empty
    [pat].  [skip] counts the characters of a match still to be dropped. *)
Fixpoint replace_from (eqc : N -> N -> bool) (pat repl : str)
    (skip : nat) (s : str) : str :=
  match s with
  | [] => []
  | c :: s' =>
    match skip with
    | S k => replace_from eqc pat repl k s'
    | O =>
      if prefix_by eqc pat s
      then repl ++ replace_from eqc pat repl (Nat.pred (length pat)) s'
      else c :: replace_from eqc pat repl O s'
    end
  end.

(** [s.replace(pat, repl)] for a non-empty [pat]. *)
Definition replace (pat repl s : str) : str :=
  replace_from N.eqb pat repl O s.

(** Lower-casing of one code point: ASCII, Latin-1 and the Cyrillic block,
    the alphabets of the export this program reads.  Other cased scripts, and
    the few characters whose lower case is longer than one code point, are
    left as they are. *)
Definition lower_cp (c : N) : N :=
  if ((65 <=? c) && (c <=? 90))%N then (c + 32)%N
  else if ((192 <=? c) && (c <=? 222) && negb (c =? 215))%N then (c + 32)%N
  else if ((1040 <=? c) && (c <=? 1071))%N then (c + 32)%N
  else if ((1024 <=? c) && (c <=? 1039))%N then (c + 80)%N
  else c.

(** [s.lower()]. *)
Definition lower (s : str) : str := map lower_cp s.

(** Character comparison of [re.IGNORECASE] for a literal pattern character
    [p]: equal lower case, or the one extra equivalent that [re] knows for a
    letter of the pattern used here (LATIN SMALL LETTER LONG S for "s"). *)
Definition ieq (p c : N) : bool :=
  (lower_cp p =? lower_cp c)%N || ((lower_cp p =? 115) && (c =? 383))%N.

(** [Series.str.replace(pat, repl, case=False, regex=False)]: pandas escapes
    the literal and substitutes with [re.IGNORECASE]. *)
Definition replace_nocase (pat repl s : str) : str :=
  replace_from ieq pat repl O s.

(** [str.isspace] for one code point. *)
Definition is_space (c : N) : bool :=
  ((9 <=? c) && (c <=? 13) || (28 <=? c) && (c <=? 32) || (c =? 133)
   || (c =? 160) || (c =? 5760) || (8192 <=? c) && (c <=? 8202)
   || (c =? 8232) || (c =? 8233) || (c =? 8239) || (c =? 8287)
   || (c =? 12288))%N.

Fixpoint lstrip (s : str) : str :=
  match s with
  | [] => []
  | c :: s' => if is_space c then lstrip s' else s
  end.

Definition rstrip (s : str) : str := rev (lstrip (rev s)).

(** [s.strip()]. *)
Definition strip (s : str) : str := rstrip (lstrip s).

(** [a <= b] on strings: lexicographic on code points. *)
Fixpoint leb (a b : str) : bool :=
  match a, b with
  | [], _ => true
  | _ :: _, [] => false
  | x :: a', y :: b' => (x <? y)%N || (x =? y)%N && leb a' b'
  end.

End Text.

Import Text.

(** ** pandas numbers: floats with NaN *)

Module Num.

Definition Qltb (x y : Q) : bool := negb (Qle_bool y x).

(** [a * b] on floats: NaN if either operand is NaN. *)
Definition fmul (a b : option Q) : option Q :=
  match a, b with
  | Some x, Some y => Some (x * y)
  | _, _ => None
  end.

(** [a > b] on floats: false as soon as one operand is NaN. *)
Definition fgt (a b : option Q) : bool :=
  match a, b with
  | Some x, Some y => Qltb y x
  | _, _ => false
  end.

(** Non-null values of a column, in order. *)
Fixpoint dropna (col : list (option Q)) : list Q :=
  match col with
  | [] => []
  | Some q :: col' => q :: dropna col'
  | None :: col' => dropna col'
  end.

(** [Series.sum()] ([skipna=True]): the empty sum is 0. *)
Definition nansum (col : list (option Q)) : Q :=
  fold_right Qplus 0 (dropna col).

Fixpoint insert (x : Q) (l : list Q) : list Q :=
  match l with
  | [] => [x]
  | y :: l' => if Qle_bool x y then x :: l else y :: insert x l'
  end.

Definition sort (l : list Q) : list Q := fold_right insert [] l.

(** [Series.median()] ([skipna=True]): middle value of the sorted non-null
    values, mean of the two middle ones for an even count, NaN for none. *)
Definition median (col : list (option Q)) : option Q :=
  let v := sort (dropna col) in
  let n := List.length v in
  match n with
  | O => None
  | _ =>
    if Nat.even n
    then Some ((nth (n / 2 - 1) v 0 + nth (n / 2) v 0) / 2)
    else Some (nth (n / 2) v 0)
  end.

(** [Series.fillna(value)]; filling with NaN changes nothing. *)
Definition fillna (value : option Q) (a : option Q) : option Q :=
  match a with
  | Some q => Some q
  | None => value
  end.

(** *** [pd.to_numeric(..., errors='coerce')] on one string

    The grammar of pandas' float reader for finite decimal literals: blanks
    around, a sign, digits with an optional fraction, an optional exponent.
    Every other string, "nan" included, is coerced to NaN.  The spellings of
    infinity have no counterpart among the rationals and read as NaN too.
    A parsed number is kept in lowest terms, one representation per value. *)

Definition digit (c : N) : option Z :=
  if ((48 <=? c) && (c <=? 57))%N then Some (Z.of_N c - 48)%Z else None.

Fixpoint digits (acc : Z) (n : nat) (s : str) : Z * nat * str :=
  match s with
  | [] => (acc, n, s)
  | c :: s' =>
    match digit c with
    | Some d => digits (acc * 10 + d)%Z (S n) s'
    | None => (acc, n, s)
    end
  end.

Definition sign (s : str) : bool * str :=
  match s with
  | 45%N :: s' => (true, s')
  | 43%N :: s' => (false, s')
  | _ => (false, s)
  end.

Definition blank (c : N) : bool := ((9 <=? c) && (c <=? 13) || (c =? 32))%N.

Fixpoint skip_blanks (s : str) : str :=
  match s with
  | [] => []
  | c :: s' => if blank c then skip_blanks s' else s
  end.

Definition signed (neg : bool) (z : Z) : Z := if neg then (- z)%Z else z.

(** An exponent part, or nothing consumed when no digit follows the "e". *)
Definition exponent (s : str) : Z * str :=
  match s with
  | c :: s' =>
    if ((c =? 101) || (c =? 69))%N
    then let (neg, s1) := sign s' in
         let '(e, n, s2) := digits 0 0 s1 in
         match n with O => (0%Z, s) | _ => (signed neg e, s2) end
    else (0%Z, s)
  | [] => (0%Z, s)
  end.

Definition to_numeric (s : str) : option Q :=
  let (neg, s1) := sign (skip_blanks s) in
  let '(ip, ni, s2) := digits 0 0 s1 in
  let '(m, nf, s3) :=
    match s2 with
    | 46%N :: s2' => digits ip 0 s2'
    | _ => (ip, O, s2)
    end in
  match (ni + nf)%nat with
  | O => None
  | _ =>
    let (e, s4) := exponent s3 in
    match skip_blanks s4 with
    | [] => Some (Qred (inject_Z (signed neg m) * Qpower 10 (e - Z.of_nat nf)))
    | _ :: _ => None
    end
  end.

End Num.

Import Num.

(** ** Data model *)

(** An untyped cell of the uploaded table: empty (NaN), text or a number. *)
Inductive cell :=
| Null
| Str (s : str)
| Num (q : Q).

(** A cell of a date column: empty, text still to be parsed, or a timestamp
    (spreadsheet dates, and dates that were parsed before). *)
Inductive date_cell :=
| NoDate
| DateStr (s : str)
| Stamp (t : Z).

(** One record under the canonical column names that [rename] gives to the
    columns of the export.  [D], [A] and [S] are the types of the date, amount
    and categorical cells, which cleaning changes.  [cross_rate] and the
    stray column [amount] are float columns; [other] carries the columns that
    are passed through (vessel, incoterms, bank, sales_channel, comment). *)
Record row {D A S : Type} := mk_row {
  invoice_id : cell;
  contractor : S;
  country : S;
  manager : S;
  status : S;
  invoice_date : D;
  payment_date : D;
  invoice_amount : A;
  payment_amount : A;
  invoice_currency : cell;
  cross_rate : option Q;
  amount : option Q;
  other : list cell
}.
Arguments row : clear implicits.
Arguments mk_row {D A S}.

Definition raw_record := row date_cell cell cell.
Definition invoice := row (option Z) (option Q) str.

(** A table: the names of its columns and its rows.  The record type fixes
    the cells that a row has under the canonical names; the header tells
    which other columns the table carries, among them the column [amount],
    which is no column of the export but which the scoring step looks for. *)
Record frame {R : Type} := mk_frame {
  columns : list str;
  rows : list R
}.
Arguments frame : clear implicits.
Arguments mk_frame {R}.

(** [name in df.columns]. *)
Definition has_column {R} (name : str) (df : frame R) : bool :=
  Text.mem name (columns df).

(** A cleaned record with its reporting-currency amount, then with its
    score. *)
Record converted := mk_converted {
  inv :> row (option Z) (option Q) str;
  amount_rub : option Q
}.

Record scored := mk_scored {
  conv :> converted;
  risk_score : Z
}.

(** ** [clean_data] *)

(** Step 1, the dictionary of [rename]: the headers of the export and their
    canonical names. *)
Definition new_columns : list (str * str) :=
  [ (utf8 "Контрагент", utf8 "contractor");
    (utf8 "Судно", utf8 "vessel");
    (utf8 "Страна", utf8 "country");
    (utf8 "ИНКОТЕРМС", utf8 "incoterms");
    (utf8 "Банк", utf8 "bank");
    (utf8 "Канал продаж", utf8 "sales_channel");
    (utf8 "Номер инвойса", utf8 "invoice_id");
    (utf8 "Дата инвойса или его отправки", utf8 "invoice_date");
    (utf8 "Сумма инвойса", utf8 "invoice_amount");
    (utf8 "Валюта инвойса", utf8 "invoice_currency");
    (utf8 "Состояние инвойса", utf8 "status");
    (utf8 "Дата фактического зачисления", utf8 "payment_date");
    (utf8 "Сумма фактической оплаты", utf8 "payment_amount");
    (utf8 "кросс-курс", utf8 "cross_rate");
    (utf8 "Менеджер", utf8 "manager");
    (utf8 "Комментарий", utf8 "comment") ].

Fixpoint lookup (k : str) (d : list (str * str)) : option str :=
  match d with
  | [] => None
  | (k', v) :: d' => if Text.eqb k k' then Some v else lookup k d'
  end.

Definition rename_column (c : str) : str :=
  match lookup c new_columns with
  | Some c' => c'
  | None => c
  end.

(** [df.rename(columns=new_columns)] on the header: a name that is no key of
    the dictionary stays. *)
Definition rename (header : list str) : list str := map rename_column header.

(** [df[name] = ...] on the header: a new column comes last. *)
Definition set_column (name : str) (header : list str) : list str :=
  if Text.mem name header then header else header ++ [name].

(** Equality of business keys as [duplicated] sees it: pandas factorizes the
    column, and all missing values get the same code. *)
Definition key_eqb (a b : cell) : bool :=
  match a, b with
  | Null, Null => true
  | Str s, Str t => Text.eqb s t
  | Num p, Num q => Qeq_bool p q
  | _, _ => false
  end.

(** Step 2, [drop_duplicates(subset=['invoice_id'], keep='first')]: a row
    stays unless its key was seen in an earlier row. *)
Fixpoint drop_duplicates_from {D A S} (seen : list cell)
    (l : list (row D A S)) : list (row D A S) :=
  match l with
  | [] => []
  | r :: l' =>
    if existsb (key_eqb (invoice_id r)) seen
    then drop_duplicates_from seen l'
    else r :: drop_duplicates_from (invoice_id r :: seen) l'
  end.

Definition drop_duplicates {D A S} (l : list (row D A S)) : list (row D A S) :=
  drop_duplicates_from [] l.

(** Step 4, the chain of replacements on an amount string. *)
Definition strip_amount (s : str) : str :=
  replace (utf8 "$") []
    (replace (utf8 "₽") []
      (replace (utf8 " ") []
        (replace (utf8 ",") (utf8 ".")
          (replace_nocase (utf8 "usd") []
            (replace (utf8 "≈") [] s))))).

Section Pandas.

(** Two conversions of pandas that the program relies on and does not
    define: [pd.to_datetime(s, errors='coerce', dayfirst=True)] for one
    string, and [str(x)] for a float.  Nothing is assumed about them. *)
Variable to_datetime_str : str -> option Z.
Variable float_repr : Q -> str.

(** [Series.astype(str)] on one cell. *)
Definition astype_str (c : cell) : str :=
  match c with
  | Null => utf8 "nan"
  | Str s => s
  | Num q => float_repr q
  end.

(** Step 3, [pd.to_datetime(col, errors='coerce', dayfirst=True)]. *)
Definition to_datetime (c : date_cell) : option Z :=
  match c with
  | NoDate => None
  | DateStr s => to_datetime_str s
  | Stamp t => Some t
  end.

(** Step 4 on one cell. *)
Definition clean_amount (c : cell) : option Q :=
  to_numeric (strip_amount (astype_str c)).

(** Step 6 on one cell: [astype(str).str.strip().str.lower()]. *)
Definition normalize (c : cell) : str := lower (strip (astype_str c)).

(** Steps 3 to 6 on one record; [median_rate] is the median of step 5. *)
Definition clean_record (median_rate : option Q) (r : raw_record) : invoice :=
  {| invoice_id := invoice_id r;
     contractor := normalize (contractor r);
     country := normalize (country r);
     manager := normalize (manager r);
     status := normalize (status r);
     invoice_date := to_datetime (invoice_date r);
     payment_date := to_datetime (payment_date r);
     invoice_amount := clean_amount (invoice_amount r);
     payment_amount := clean_amount (payment_amount r);
     invoice_currency := invoice_currency r;
     cross_rate := fillna median_rate (cross_rate r);
     amount := amount r;
     other := other r |}.

(** [clean_data], without its log, which is a report for the user. *)
Definition clean_data (df : frame raw_record) : frame invoice :=
  let df_clean := drop_duplicates (rows df) in
  let median_rate := median (map cross_rate df_clean) in
  {| columns := rename (columns df);
     rows := map (clean_record median_rate) df_clean |}.

End Pandas.

(** ** Reporting currency *)

(** [c == s] for a cell and a string literal. *)
Definition is_text (c : cell) (s : str) : bool :=
  match c with
  | Str t => Text.eqb t s
  | _ => false
  end.

(** The lambda of the three [amount_rub] assignments. *)
Definition to_rub (x : invoice) : option Q :=
  if negb (is_text (invoice_currency x) (utf8 "RUB"))
  then fmul (invoice_amount x) (cross_rate x)
  else invoice_amount x.

Definition add_amount_rub (l : list invoice) : list converted :=
  map (fun x => {| inv := x; amount_rub := to_rub x |}) l.

(** ** [calculate_risk_score] *)

(** One day, in nanoseconds. *)
Definition day : Z := 86400000000000.

(** [Timestamp.normalize()]: midnight of the same day. *)
Definition normalize_ts (t : Z) : Z := (t - t mod day)%Z.

Definition paid_statuses : list str :=
  [utf8 "оплачен"; utf8 "closed"; utf8 "paid"].

(** [now] is the reading of the clock; [df_clean] is the global table whose
    [amount_rub] median the function takes. *)
Definition calculate_risk_score (now : Z) (df_clean : list converted)
    (row : converted) : Z :=
  let score := 0%Z in
  let today := normalize_ts now in
  let score :=
    match invoice_date row with
    | Some d =>
      let due_date := (d + 30 * day)%Z in
      let days_overdue := ((today - due_date) / day)%Z in
      if (0 <? days_overdue)%Z
      then (score + 50 + Z.min (days_overdue * 5) 50)%Z
      else score
    | None => score
    end in
  let score :=
    if fgt (amount_rub row) (median (map amount_rub df_clean))
    then (score + 10)%Z else score in
  let score :=
    if negb (Text.mem (status row) paid_statuses)
    then (score + 15)%Z else score in
  let score :=
    if Text.eqb (country row) (utf8 "египет")
    then (score + 15)%Z else score in
  Z.min score 100.

(** [Series.clip(lower, upper)] on one value. *)
Definition clip (lo hi x : Z) : Z := Z.min hi (Z.max lo x).

(** The [risk_score] assignment: the function on every row, then the second
    penalty and the clipping when the table has a column [amount]. *)
Definition add_risk_score (now : Z) (amount_col : bool)
    (df_clean : list converted) : list scored :=
  let median_amount :=
    if amount_col then median (map (fun r : converted => amount r) df_clean)
    else Some 0 in
  map (fun r =>
         let s := calculate_risk_score now df_clean r in
         {| conv := r;
            risk_score :=
              if amount_col
              then clip 0 100
                     (if fgt (amount r) median_amount then s + 10 else s)%Z
              else s |})
      df_clean.

(** The pipeline from the uploaded table to the scored table [df_clean]. *)
Definition pipeline (to_datetime_str : str -> option Z) (float_repr : Q -> str)
    (now : Z) (df : frame raw_record) : frame scored :=
  let df_clean := clean_data to_datetime_str float_repr df in
  {| columns :=
       set_column (utf8 "risk_score")
         (set_column (utf8 "amount_rub") (columns df_clean));
     rows := add_risk_score now (has_column (utf8 "amount") df_clean)
               (add_amount_rub (rows df_clean)) |}.

(** ** Sidebar filters and KPI block *)

(** [None] is the entry for "all" of a select box. *)
Definition apply_filters (min_risk : Z) (selected_country selected_status : option str)
    (df_clean : list scored) : list scored :=
  let df_filtered := filter (fun r => (min_risk <=? risk_score r)%Z) df_clean in
  let df_filtered :=
    match selected_country with
    | None => df_filtered
    | Some c => filter (fun r : scored => Text.eqb (country r) c) df_filtered
    end in
  match selected_status with
  | None => df_filtered
  | Some c => filter (fun r : scored => Text.eqb (status r) c) df_filtered
  end.

Definition due_date (r : invoice) : option Z :=
  match invoice_date r with
  | Some d => Some (d + 30 * day)%Z
  | None => None
  end.

(** [due_date < today]: false for a missing date. *)
Definition overdue_mask (today : Z) (r : invoice) : bool :=
  match due_date r with
  | Some d => (d <? today)%Z
  | None => false
  end.

Definition unpaid_mask (r : invoice) : bool :=
  negb (Text.mem (status r) paid_statuses).

(** The KPI block runs when the table has the columns [invoice_amount] and
    [invoice_currency], which the conversion above has read already; these
    are the figures of that branch.  Without the columns every figure keeps
    its initial 0.

    The column [amount_rub] as the block recomputes it, summed over the rows
    of a mask. *)
Definition sum_rub (mask : invoice -> bool) (df : list scored) : Q :=
  nansum (map (fun r : scored => to_rub r)
              (filter (fun r : scored => mask r) df)).

Definition total_expected (df_filtered : list scored) : Q :=
  sum_rub unpaid_mask df_filtered.

Definition total_overdue (today : Z) (df_filtered : list scored) : Q :=
  sum_rub (overdue_mask today) df_filtered.

Definition total_amount (df_filtered : list scored) : Q :=
  sum_rub (fun _ => true) df_filtered.

(** A division that fails on a zero divisor. *)
Definition checked_div (a b : Q) : option Q :=
  if Qeq_bool b 0 then None else Some (a / b).

(** [overdue_ratio]: initialised to 0, recomputed under the guard.  [None]
    would be a division by zero. *)
Definition overdue_ratio (today : Z) (df_filtered : list scored) : option Q :=
  if Qltb 0 (total_amount df_filtered)
  then option_map (fun x => x * 100)
         (checked_div (total_overdue today df_filtered)
                      (total_amount df_filtered))
  else Some 0.

(** Keys of a [groupby]: the distinct values, sorted. *)
Fixpoint insert_key (k : str) (l : list str) : list str :=
  match l with
  | [] => [k]
  | k' :: l' =>
    if Text.eqb k k' then l
    else if Text.leb k k' then k :: l
    else k' :: insert_key k l'
  end.

Definition group_keys (col : list str) : list str :=
  fold_right insert_key [] col.

(** [groupby('contractor')['amount_rub'].sum()] for one contractor. *)
Definition contractor_sum (df : list scored) (k : str) : Q :=
  sum_rub (fun r => Text.eqb (contractor r) k) df.

Definition groupby_contractor_sum (df : list scored) : list (str * Q) :=
  map (fun k => (k, contractor_sum df k))
      (group_keys (map (fun r : scored => contractor r) df)).

(** [Series.nlargest(n)]: descending, ties in their original order. *)
Fixpoint insert_desc (x : str * Q) (l : list (str * Q)) : list (str * Q) :=
  match l with
  | [] => [x]
  | y :: l' =>
    if Qle_bool (snd y) (snd x) then x :: l else y :: insert_desc x l'
  end.

Definition nlargest (n : nat) (l : list (str * Q)) : list (str * Q) :=
  firstn n (fold_right insert_desc [] l).

Definition top_debtors (today : Z) (df_filtered : list scored) : list (str * Q) :=
  nlargest 5
    (groupby_contractor_sum
       (filter (fun r : scored => overdue_mask today r) df_filtered)).

(** ** Hypothesis check *)

(** A ratio of two counts as a double: a number, infinity for a positive
    count over zero, NaN for zero over zero.  The ratios are never
    negative, and [Inf] is the positive infinity. *)
Inductive xfloat :=
| NaN
| Inf
| Fin (q : Q).

Module XFloat.

(** Nearest integer, halves to the even neighbour. *)
Definition rint (q : Q) : Z :=
  let f := Qfloor q in
  let d := q - inject_Z f in
  if Qltb d (1 # 2) then f
  else if Qltb (1 # 2) d then (f + 1)%Z
  else if Z.even f then f else (f + 1)%Z.

(** The binary exponent of a positive number: the [e] with
    [2 ^ e <= q < 2 ^ (e + 1)]. *)
Definition floor_log2 (q : Q) : Z :=
  let k := (Z.log2 (Qnum q) - Z.log2 (Zpos (Qden q)))%Z in
  if Qle_bool (2 ^ k) q then k else (k - 1)%Z.

(** The exponent of the last place of the doubles near [q]: 53 significant
    bits, and no exponent below that of the subnormal numbers. *)
Definition quantum (q : Q) : Z :=
  Z.max (floor_log2 (Qabs q) - 52) (-1074).

(** Rounding to the nearest multiple of the last place, halves to the even
    neighbour. *)
Definition nearest (q : Q) : Q :=
  inject_Z (rint (q / 2 ^ quantum q)) * 2 ^ quantum q.

(** The double that stores the result [q] of an operation: the nearest one,
    infinity from [2 ^ 1024] on. *)
Definition binary64 (q : Q) : xfloat :=
  let r := nearest q in
  if Qle_bool (2 ^ 1024) (Qabs r) then Inf else Fin r.

(** [a / b] on two counts.  The counts are integers that a double holds
    exactly; the quotient is rounded. *)
Definition div_counts (a b : nat) : xfloat :=
  match b with
  | O => match a with O => NaN | _ => Inf end
  | _ => binary64 (Z.of_nat a # Pos.of_nat b)
  end.

(** [x * c] for a positive constant [c]. *)
Definition mul (x : xfloat) (c : Q) : xfloat :=
  match x with
  | Fin q => binary64 (q * c)
  | _ => x
  end.

(** [round(2)], as numpy does it: times 100, to the nearest integer, over
    100. *)
Definition round2 (x : xfloat) : xfloat :=
  match mul x 100 with
  | Fin y => binary64 (inject_Z (rint y) / 100)
  | y => y
  end.

(** [a > b]. *)
Definition gt (a b : xfloat) : bool :=
  match a, b with
  | Fin x, Fin y => Qltb y x
  | Inf, Fin _ => true
  | _, _ => false
  end.

(** [a <= b] on values that are not NaN. *)
Definition leb (a b : xfloat) : bool :=
  match a, b with
  | Fin x, Fin y => Qle_bool x y
  | _, Inf => true
  | _, _ => false
  end.

Definition isnan (a : xfloat) : bool :=
  match a with NaN => true | _ => false end.

Definition dropna (col : list xfloat) : list xfloat :=
  filter (fun x => negb (isnan x)) col.

(** [Series.max()]: the largest value that is not NaN, NaN if there is
    none. *)
Definition max (col : list xfloat) : xfloat :=
  fold_right (fun x m => if isnan m then x else if gt x m then x else m)
             NaN (dropna col).

Fixpoint insert (x : xfloat) (l : list xfloat) : list xfloat :=
  match l with
  | [] => [x]
  | y :: l' => if leb x y then x :: l else y :: insert x l'
  end.

Definition sort (l : list xfloat) : list xfloat := fold_right insert [] l.

(** Mean of the two middle values: their sum, halved. *)
Definition mean2 (a b : xfloat) : xfloat :=
  match a, b with
  | Fin x, Fin y =>
    match binary64 (x + y) with
    | Fin s => binary64 (s / 2)
    | s => s
    end
  | NaN, _ | _, NaN => NaN
  | _, _ => Inf
  end.

(** [Series.median()]. *)
Definition median (col : list xfloat) : xfloat :=
  let v := sort (dropna col) in
  let n := List.length v in
  match n with
  | O => NaN
  | _ =>
    if Nat.even n
    then mean2 (nth (n / 2 - 1) v NaN) (nth (n / 2) v NaN)
    else nth (n / 2) v NaN
  end.

End XFloat.

Inductive verdict :=
| Confirmed
| PartiallyConfirmed
| NotConfirmed.

(** The three branches of the check. *)
Definition classify (highest_risk_ratio median_ratio : xfloat) : verdict :=
  if XFloat.gt highest_risk_ratio (XFloat.mul median_ratio 1.5)
  then Confirmed
  else if XFloat.gt highest_risk_ratio median_ratio
  then PartiallyConfirmed
  else NotConfirmed.

(** [is_overdue]: past the due date and not settled. *)
Definition is_overdue (now : Z) (r : invoice) : bool :=
  overdue_mask now r && negb (Text.mem (status r) paid_statuses).

(** One line of [country_overdue]. *)
Record country_stats := mk_country_stats {
  stats_country : str;
  total_invoices : nat;
  overdue_invoices : nat;
  stats_overdue_ratio : xfloat
}.

Definition notna_cell (c : cell) : bool :=
  match c with Null => false | _ => true end.

(** The aggregation of one country: [count] of the non-null [invoice_id],
    [sum] of [is_overdue], and the rounded ratio in percent.  The two columns
    of mean amounts do not enter the check and are left out. *)
Definition country_line (now : Z) (df : list scored) (k : str) : country_stats :=
  let g := filter (fun r : scored => Text.eqb (country r) k) df in
  let total := List.length (filter (fun r : scored => notna_cell (invoice_id r)) g) in
  let overdue := List.length (filter (fun r : scored => is_overdue now r) g) in
  {| stats_country := k;
     total_invoices := total;
     overdue_invoices := overdue;
     stats_overdue_ratio :=
       XFloat.round2 (XFloat.mul (XFloat.div_counts overdue total) 100) |}.

Definition country_overdue (now : Z) (hypothesis_df : list scored) : list country_stats :=
  map (country_line now hypothesis_df)
      (group_keys (map (fun r : scored => country r) hypothesis_df)).

(** The label of the first line whose ratio is [m]. *)
Fixpoint first_label (m : xfloat) (t : list country_stats) : option str :=
  match t with
  | [] => None
  | l :: t' =>
    if XFloat.leb m (stats_overdue_ratio l)
       && XFloat.leb (stats_overdue_ratio l) m
    then Some (stats_country l)
    else first_label m t'
  end.

(** [idxmax]: the first label whose value is the maximum, NaN apart.  When
    every ratio is NaN there is none, and pandas raises a [ValueError]
    (before version 3 it warned and gave NaN). *)
Definition idxmax (t : list country_stats) : option str :=
  first_label (XFloat.max (map stats_overdue_ratio t)) t.

Record hypothesis_result := mk_hypothesis_result {
  highest_risk_country : str;
  highest_risk_ratio : xfloat;
  median_ratio : xfloat;
  outcome : verdict
}.

(** What the check does: one of the three messages, nothing for a table
    without lines, or the exception of [idxmax], which ends the run with
    the error message of the page. *)
Inductive checked :=
| Reported (res : hypothesis_result)
| NotReported
| Raised.

(** The check on the table of the countries. *)
Definition hypothesis_verdict (country_overdue : list country_stats)
    : checked :=
  match country_overdue with
  | [] => NotReported
  | _ :: _ =>
    match idxmax country_overdue with
    | None => Raised
    | Some c =>
      let ratios := map stats_overdue_ratio country_overdue in
      let highest := XFloat.max ratios in
      let med := XFloat.median ratios in
      Reported {| highest_risk_country := c;
                  highest_risk_ratio := highest;
                  median_ratio := med;
                  outcome := classify highest med |}
    end
  end.

(** The check from the scored table. *)
Definition hypothesis_check (now : Z) (df_clean : list scored) : checked :=
  hypothesis_verdict (country_overdue now df_clean).

(** * The vocabulary of the properties *)

(** ** Scoring and conversion *)

(** The algorithm in the words of the specification: four independent
    components, added, and one clamp at the end. *)
Module ScoreSpec.

Definition overdue_penalty (today : Z) (due : option Z) : Z :=
  match due with
  | None => 0
  | Some due =>
    let days_overdue := ((today - due) / day)%Z in
    if (0 <? days_overdue)%Z then (50 + Z.min (days_overdue * 5) 50)%Z else 0%Z
  end.

Definition large_invoice_penalty (amount_reporting batch_median : option Q) : Z :=
  if fgt amount_reporting batch_median then 10 else 0.

Definition outstanding_status_penalty (st : str) : Z :=
  if Text.mem st paid_statuses then 0 else 15.

Definition country_penalty (high_risk c : str) : Z :=
  if Text.eqb c high_risk then 15 else 0.

Definition risk_score (today : Z) (high_risk : str) (batch_median : option Q)
    (r : converted) : Z :=
  clip 0 100
    (overdue_penalty today (due_date r)
     + large_invoice_penalty (amount_rub r) batch_median
     + outstanding_status_penalty (status r)
     + country_penalty high_risk (country r))%Z.

End ScoreSpec.

(** The country that the program treats as high-risk. *)
Definition high_risk_country : str := utf8 "египет".

(** The reporting currency. *)
Definition reporting_currency : cell := Str (utf8 "RUB").

(** ** Deduplication *)

(** The keys already seen once the rows of [l] have been read. *)
Definition seen_after {D A S} (seen : list cell) (l : list (row D A S))
    : list cell :=
  rev (map invoice_id (drop_duplicates_from seen l)) ++ seen.

(** Pairwise distinct keys, none of them seen before. *)
Fixpoint fresh_keys (seen keys : list cell) : Prop :=
  match keys with
  | [] => True
  | k :: keys' =>
    existsb (key_eqb k) seen = false /\ fresh_keys (k :: seen) keys'
  end.

(** ** Amount strings *)

(** The characters that step 4 removes or rewrites: the approximation sign,
    the comma, the space, the rouble sign and the dollar sign. *)
Definition stripped_chars : list N := [8776; 44; 32; 8381; 36]%N.

(** What step 4 makes of one character that is no letter of "usd": the
    comma becomes a point, the stripped characters vanish, the rest stays. *)
Definition amount_char (c : N) : str :=
  if (c =? 44)%N then [46%N]
  else if existsb (N.eqb c) stripped_chars then []
  else [c].

(** ** Ratios *)

(** Order and equality of two ratios as numbers; NaN is neither below, above
    nor equal to anything. *)
Definition xlt (a b : xfloat) : Prop :=
  match a, b with
  | Fin x, Fin y => (x < y)%Q
  | Fin _, Inf => True
  | _, _ => False
  end.

Definition xeq (a b : xfloat) : Prop :=
  match a, b with
  | Fin x, Fin y => (x == y)%Q
  | Inf, Inf => True
  | _, _ => False
  end.

Definition xnonneg (a : xfloat) : Prop :=
  match a with
  | Fin x => (0 <= x)%Q
  | _ => True
  end.

(** The values that a ratio can take: NaN, infinity, or a double that is
    not negative. *)
Definition is_ratio (a : xfloat) : bool :=
  match a with
  | Fin x =>
    Qle_bool 0 x && Qeq_bool (XFloat.nearest x) x && Qltb x (2 ^ 1024)
  | _ => true
  end.

(** ** A second run *)








(** * Example tables *)

Module Example.

(** A reader of date text that recognises nothing; the dates of the examples
    are timestamps. *)
Definition no_text_dates : str -> option Z := fun _ => None.

Fixpoint digits_of (fuel : nat) (n : Z) : str :=
  match fuel with
  | O => []
  | S f =>
    (if (n <? 10)%Z then [] else digits_of f (n / 10)%Z)
      ++ [Z.to_N (48 + n mod 10)]
  end.

(** The text of a float that has at most two decimals, "nan" otherwise. *)
Definition cents_repr (q : Q) : str :=
  let c := Qfloor (q * 100) in
  if Qeq_bool (inject_Z c) (q * 100)
  then (if (c <? 0)%Z then [45%N] else [])
         ++ digits_of (S (Z.to_nat (Z.log2 (Z.abs c)))) (Z.abs c / 100)%Z
         ++ [46%N; Z.to_N (48 + (Z.abs c / 10) mod 10);
             Z.to_N (48 + Z.abs c mod 10)]
  else utf8 "nan".

Definition record (id : cell) (who place st : string) (date : Z)
    (amt : cell) (cur : string) (rate : option Q) : raw_record :=
  {| invoice_id := id;
     contractor := Str (utf8 who);
     country := Str (utf8 place);
     manager := Null;
     status := Str (utf8 st);
     invoice_date := Stamp date;
     payment_date := NoDate;
     invoice_amount := amt;
     payment_amount := Null;
     invoice_currency := Str (utf8 cur);
     cross_rate := rate;
     amount := None;
     other := [] |}.

(** The clock: 05:00 on day 100. *)
Definition clock : Z := (100 * day + 5 * 3600000000000)%Z.

Definition nile : raw_record :=
  record (Str (utf8 "INV-1")) " Nile Trading " " Египет " "Open"
    (55 * day) (Str (utf8 "≈ 1 200,50 usd")) "USD" (Some 90).

Definition bosphorus : raw_record :=
  record (Str (utf8 "INV-2")) "Bosphorus" "Турция" "Оплачен"
    (90 * day) (Str (utf8 "1 000 ₽")) "RUB" None.

Definition nile_again : raw_record :=
  record (Str (utf8 "INV-1")) "Nile Trading" "Египет" "open"
    (60 * day) (Str (utf8 "7")) "USD" (Some 80).

Definition marmara : raw_record :=
  record (Str (utf8 "INV-3")) "Marmara" "турция" "paid"
    (95 * day) (Num 300) "RUB" None.

Definition delta : raw_record :=
  record (Str (utf8 "INV-4")) "Delta" "египет" "open"
    (99 * day) (Str (utf8 "n/a")) "EUR" None.

(** The header of the export. *)
Definition export_header : list str := map fst new_columns.

(** An upload with a repeated invoice number and an unreadable amount. *)
Definition upload : frame raw_record :=
  {| columns := export_header;
     rows := [nile; bosphorus; nile_again; marmara; delta] |}.

Definition volga : raw_record :=
  record Null "Volga" "Россия" "open" (10 * day)
    (Str (utf8 "1000")) "RUB" None.

Definition kama : raw_record :=
  record Null "Kama" "Россия" "open" (20 * day)
    (Str (utf8 "250")) "RUB" None.

(** Invoices in roubles, without a number and without a cross rate. *)
Definition roubles : frame raw_record :=
  {| columns := export_header; rows := [volga; kama] |}.

(** A single credit note: a negative amount. *)
Definition credit_note : frame raw_record :=
  {| columns := export_header;
     rows := [ record (Str (utf8 "CN-7")) "Volga" "Россия" "open" (10 * day)
                 (Str (utf8 "-1500")) "RUB" None ] |}.

Definition run : frame raw_record -> frame scored :=
  pipeline no_text_dates cents_repr clock.

Definition clean (r : raw_record) (median_rate : option Q) : converted :=
  let x := clean_record no_text_dates cents_repr median_rate r in
  {| inv := x; amount_rub := to_rub x |}.

(** The batch of [upload] before scoring. *)
Definition batch : list converted :=
  add_amount_rub (rows (clean_data no_text_dates cents_repr upload)).

(** The rows of the scored tables, by name. *)
Definition scored_as (df : frame raw_record) (r : raw_record)
    (median_rate : option Q) : scored :=
  let c := clean r median_rate in
  {| conv := c;
     risk_score :=
       calculate_risk_score clock
         (add_amount_rub (rows (clean_data no_text_dates cents_repr df))) c |}.

(** An amount with a tab between the thousands and the hundreds. *)
Definition tabbed : str := [49; 9; 50; 48; 48]%N.

(** [total] invoices of one country, numbered from [tag], the first
    [overdue] of them open and long due, the others paid. *)
Definition invoices (tag place : string) (overdue total : nat)
    : list raw_record :=
  map (fun i =>
         record (Str (utf8 tag ++ digits_of 3 (Z.of_nat i))) "Trader" place
           (if (i <? overdue)%nat then "open" else "paid")
           (10 * day) (Num 100) "RUB" None)
      (seq 0 total).

(** One paid invoice without a number. *)
Definition paid_unnumbered : frame raw_record :=
  {| columns := export_header;
     rows := [record Null "Volga" "Россия" "paid" (10 * day)
                (Str (utf8 "1000")) "RUB" None] |}.

(** Three countries with 9 of 14, 3 of 7 and none of 1 invoices overdue:
    the shares 64.29, 42.86 and 0 per cent. *)
Definition shares_64_43 : frame raw_record :=
  {| columns := export_header;
     rows := invoices "A" "Египет" 9 14 ++ invoices "B" "Турция" 3 7
             ++ invoices "C" "Россия" 0 1 |}.

(** Three countries with 1 of 11, 2 of 33 and none of 1 invoices overdue:
    the shares 9.09, 6.06 and 0 per cent. *)
Definition shares_9_6 : frame raw_record :=
  {| columns := export_header;
     rows := invoices "A" "Египет" 1 11 ++ invoices "B" "Турция" 2 33
             ++ invoices "C" "Россия" 0 1 |}.

End Example.

(** * The rest of the program *)

(** ** The cleaning log *)

(** [duplicated(subset=['invoice_id'], keep='first')]: the mask of the rows
    whose key was seen in an earlier row. *)
Fixpoint duplicated_from {D A S} (seen : list cell) (l : list (row D A S))
    : list bool :=
  match l with
  | [] => []
  | r :: l' =>
    if existsb (key_eqb (invoice_id r)) seen
    then true :: duplicated_from seen l'
    else false :: duplicated_from (invoice_id r :: seen) l'
  end.

Definition duplicated {D A S} (l : list (row D A S)) : list bool :=
  duplicated_from [] l.

(** [mask.sum()]. *)
Definition count_true (mask : list bool) : nat :=
  List.length (filter (fun b : bool => b) mask).

(** [col.isna().sum()]. *)
Definition count_na {A} (col : list (option A)) : nat :=
  List.length
    (filter (fun a : option A => match a with None => true | Some _ => false end)
            col).

(** The entries of the log that are counts, names or values; the flags
    [{col}_normalized] are always [True]. *)
Record log := mk_log {
  initial_rows : nat;
  initial_columns : list str;
  columns_renamed : list str;
  duplicates_removed : nat;
  invoice_date_invalid_dates : nat;
  payment_date_invalid_dates : nat;
  invoice_amount_invalid_values : nat;
  payment_amount_invalid_values : nat;
  cross_rate_nulls_filled : nat;
  cross_rate_median_value : option Q;
  final_rows : nat
}.

(** The log that [clean_data] returns beside the table. *)
Definition clean_log (to_datetime_str : str -> option Z)
    (float_repr : Q -> str) (df : frame raw_record) : log :=
  let df_clean := drop_duplicates (rows df) in
  {| initial_rows := List.length (rows df);
     initial_columns := columns df;
     columns_renamed := rename (columns df);
     duplicates_removed := count_true (duplicated (rows df));
     invoice_date_invalid_dates :=
       count_na (map (fun r : raw_record =>
                        to_datetime to_datetime_str (invoice_date r))
                     df_clean);
     payment_date_invalid_dates :=
       count_na (map (fun r : raw_record =>
                        to_datetime to_datetime_str (payment_date r))
                     df_clean);
     invoice_amount_invalid_values :=
       count_na (map (fun r : raw_record =>
                        clean_amount float_repr (invoice_amount r))
                     df_clean);
     payment_amount_invalid_values :=
       count_na (map (fun r : raw_record =>
                        clean_amount float_repr (payment_amount r))
                     df_clean);
     cross_rate_nulls_filled := count_na (map cross_rate df_clean);
     cross_rate_median_value := median (map cross_rate df_clean);
     final_rows :=
       List.length (rows (clean_data to_datetime_str float_repr df)) |}.

(** ** The select boxes of the sidebar *)

(** [Series.unique()]: the distinct values in the order of their first
    appearance. *)
Fixpoint unique_from (seen col : list str) : list str :=
  match col with
  | [] => []
  | x :: col' =>
    if Text.mem x seen then unique_from seen col'
    else x :: unique_from (x :: seen) col'
  end.

Definition unique (col : list str) : list str := unique_from [] col.

(** The countries offered after the filter on the risk, the entry for "all"
    apart. *)
Definition countries (min_risk : Z) (df_clean : list scored) : list str :=
  unique (map (fun r : scored => country r)
              (apply_filters min_risk None None df_clean)).

(** The statuses offered after the filter on the country. *)
Definition statuses (min_risk : Z) (selected_country : option str)
    (df_clean : list scored) : list str :=
  unique (map (fun r : scored => status r)
              (apply_filters min_risk selected_country None df_clean)).

(** ** The detailed statistics *)

Definition paid_mask (r : invoice) : bool :=
  Text.mem (status r) paid_statuses.

Definition paid_amount (df_filtered : list scored) : Q :=
  sum_rub paid_mask df_filtered.

Definition unpaid_count (df_filtered : list scored) : nat :=
  List.length (filter (fun r : scored => unpaid_mask r) df_filtered).

Definition overdue_count (today : Z) (df_filtered : list scored) : nat :=
  List.length (filter (fun r : scored => overdue_mask today r) df_filtered).

(** ** [create_excel_report] *)

(** The dictionary [kpi_data]. *)
Record kpi_data := mk_kpi_data {
  kpi_expected : Q;
  kpi_overdue : Q;
  kpi_ratio : option Q;
  kpi_total : Q;
  kpi_count : nat
}.

Definition make_kpi_data (today : Z) (df_filtered : list scored) : kpi_data :=
  {| kpi_expected := total_expected df_filtered;
     kpi_overdue := total_overdue today df_filtered;
     kpi_ratio := overdue_ratio today df_filtered;
     kpi_total := total_amount df_filtered;
     kpi_count := List.length df_filtered |}.

(** The assignment of [amount_rub] on one row. *)
Definition set_amount_rub (r : scored) : scored :=
  {| conv := {| inv := r; amount_rub := to_rub r |};
     risk_score := risk_score r |}.

(** The table that the KPI block works on: the filtered rows, with the
    columns [due_date] and [amount_rub] assigned. *)
Definition filtered_frame (min_risk : Z)
    (selected_country selected_status : option str) (df_clean : frame scored)
    : frame scored :=
  {| columns :=
       set_column (utf8 "amount_rub")
         (set_column (utf8 "due_date") (columns df_clean));
     rows :=
       map set_amount_rub
           (apply_filters min_risk selected_country selected_status
                          (rows df_clean)) |}.

(** The three sheets of the workbook; the formats are left out. *)
Record workbook := mk_workbook {
  sheet_data : frame scored;
  sheet_high_risk : list scored;
  sheet_kpi : kpi_data
}.

Definition create_excel_report (df : frame scored) (kpi : kpi_data) : workbook :=
  let df_to_export :=
    if negb (has_column (utf8 "amount_rub") df)
    then {| columns := columns df ++ [utf8 "amount_rub"];
            rows := map set_amount_rub (rows df) |}
    else df in
  {| sheet_data := df_to_export;
     sheet_high_risk :=
       filter (fun r : scored => (50 <=? risk_score r)%Z) (rows df_to_export);
     sheet_kpi := kpi |}.

(** ** Vocabulary of the further properties *)

(** Whole days past the due date at the evaluation date, as
    [calculate_risk_score] counts them. *)
Definition days_overdue (now : Z) (r : invoice) : option Z :=
  match invoice_date r with
  | Some d => Some ((normalize_ts now - (d + 30 * day)) / day)%Z
  | None => None
  end.

Definition past_due (now : Z) (r : invoice) : bool :=
  match days_overdue now r with
  | Some n => (0 <? n)%Z
  | None => false
  end.

(** A value passes a select box when nothing is selected or when it is the
    selected entry. *)
Definition chosen (selection : option str) (v : str) : Prop :=
  match selection with
  | None => True
  | Some c => v = c
  end.

(** The amount of a row in a sum: nothing for a null amount. *)
Definition rub_or_zero (r : invoice) : Q :=
  match to_rub r with
  | Some q => q
  | None => 0
  end.

(** Descending order of the sums of two groups. *)
Definition sum_desc (a b : str * Q) : Prop := snd b <= snd a.

(** Sum of a list of numbers. *)
Definition Qsum (l : list Q) : Q := fold_right Qplus 0 l.

(** Strict order of strings. *)
Definition text_lt (a b : str) : Prop := Text.leb a b = true /\ a <> b.

(** The digits of a text, in order. *)
Definition digits_in (s : str) : str :=
  filter (fun c => ((48 <=? c) && (c <=? 57))%N) s.

(** The four text columns of step 6, in its order. *)
Definition categorical {D A S} (r : row D A S) : list S :=
  [status r; contractor r; country r; manager r].

(** The code points whose lower case [lower_cp] has: Latin-1 and the
    Cyrillic block up to U+045F. *)
Definition plain_cp (c : N) : bool :=
  ((c <? 256) || (1024 <=? c) && (c <=? 1119))%N.

(** The capital letters among them. *)
Definition capital_cp (c : N) : bool :=
  ((65 <=? c) && (c <=? 90)
   || (192 <=? c) && (c <=? 222) && negb (c =? 215)
   || (1024 <=? c) && (c <=? 1071))%N.

(** A cell that holds a text of these code points. *)
Definition plain_text (c : cell) : bool :=
  match c with
  | Str t => forallb plain_cp t
  | _ => false
  end.

(** A cell of a cleaned text column that was not empty in the upload.
    [astype(str)] writes an empty cell as the text nan; from pandas 3 on it
    leaves the cell empty, and [unique], [groupby] and [==] then treat it
    unlike any text.  The properties of these three are stated for columns
    without such cells. *)
Definition present (s : str) : bool := negb (Text.eqb s (utf8 "nan")).

Definition is_whole (q : Q) : bool :=
  (Qnum q mod Zpos (Qden q) =? 0)%Z.

(** A table whose sums the program computes exactly, in whatever order and
    whether the column holds integers or doubles: every row has an amount,
    a whole number, with a whole cross rate if its currency is not the
    rouble, and the amounts in roubles stay below 2 ^ 53 in total. *)
Definition whole_amounts (df : list scored) : bool :=
  forallb (fun r : scored =>
             match invoice_amount r with
             | Some a =>
               is_whole a
               && (is_text (invoice_currency r) (utf8 "RUB")
                   || match cross_rate r with
                      | Some c => is_whole c
                      | None => false
                      end)
             | None => false
             end) df
  && Qltb (Qsum (map (fun r : scored => Qabs (rub_or_zero r)) df)) (2 ^ 53).

(** ** Further example tables *)

Module Sample.

(** The scored upload of the examples. *)
Definition scored_upload : frame scored := Example.run Example.upload.

(** An upload where every invoice number comes twice. *)
Definition doubled : frame raw_record :=
  {| columns := Example.export_header;
     rows := [Example.nile; Example.nile_again; Example.bosphorus;
              Example.bosphorus] |}.

Definition with_manager (who : string) (r : raw_record) : raw_record :=
  {| invoice_id := invoice_id r;
     contractor := contractor r;
     country := country r;
     manager := Str (utf8 who);
     status := status r;
     invoice_date := invoice_date r;
     payment_date := payment_date r;
     invoice_amount := invoice_amount r;
     payment_amount := payment_amount r;
     invoice_currency := invoice_currency r;
     cross_rate := cross_rate r;
     amount := amount r;
     other := other r |}.

(** An upload with a manager on every invoice. *)
Definition staffed : frame raw_record :=
  {| columns := Example.export_header;
     rows := [with_manager " Иванова" Example.nile;
              with_manager "PETROV " Example.bosphorus] |}.

End Sample.

(** * Properties *)

(** ** Strings *)

Lemma str_eqb_eq (a b : str) : Text.eqb a b = true <-> a = b.
Proof.
  revert b; induction a as [|x a IH]; intros [|y b]; simpl; split;
    try congruence; try reflexivity.
  - intros H. apply andb_prop in H as [Hx Hab].
    apply N.eqb_eq in Hx. apply IH in Hab. congruence.
  - intros H. injection H as -> ->. rewrite N.eqb_refl. simpl. now apply IH.
Qed.

Lemma str_eqb_refl (a : str) : Text.eqb a a = true.
Proof. now apply str_eqb_eq. Qed.

Lemma str_eqb_neq (a b : str) : Text.eqb a b = false <-> a <> b.
Proof.
  split.
  - intros H E. apply str_eqb_eq in E. congruence.
  - intros H. destruct (Text.eqb a b) eqn:E; [|reflexivity].
    apply str_eqb_eq in E. contradiction.
Qed.

Lemma str_eqb_sym (a b : str) : Text.eqb a b = Text.eqb b a.
Proof.
  destruct (Text.eqb a b) eqn:E.
  - apply str_eqb_eq in E. subst. symmetry. apply str_eqb_refl.
  - symmetry. apply str_eqb_neq. apply str_eqb_neq in E. congruence.
Qed.

(** ** C1: the score stays within bounds *)

Lemma calculate_risk_score_bounds now df_clean r :
  (0 <= calculate_risk_score now df_clean r <= 100)%Z.
Proof.
  unfold calculate_risk_score.
  destruct (invoice_date r) as [d|];
    [destruct (0 <? (normalize_ts now - (d + 30 * day)) / day)%Z eqn:Hd;
     [apply Z.ltb_lt in Hd|]|];
    destruct (fgt _ _); destruct (negb _); destruct (Text.eqb _ _); lia.
Qed.

Lemma clip_bounds lo hi x : (lo <= hi -> lo <= clip lo hi x <= hi)%Z.
Proof. unfold clip. lia. Qed.

(** C1. Every record of the scored table has an integer [risk_score] between
    0 and 100 inclusive, whatever the sum of the penalties was before the
    clamp, with or without the second penalty on the column [amount]. *)
Theorem risk_score_in_range to_datetime_str float_repr now df :
  Forall (fun r : scored => (0 <= risk_score r <= 100)%Z)
         (rows (pipeline to_datetime_str float_repr now df)).
Proof.
  unfold pipeline, add_risk_score. simpl.
  apply Forall_map. apply Forall_forall. intros r _. simpl.
  destruct (has_column _ _).
  - apply clip_bounds. lia.
  - apply calculate_risk_score_bounds.
Qed.

(** ** C2: imputation of the cross rate *)



Lemma insert_perm x l : Permutation (x :: l) (Num.insert x l).
Proof.
  induction l as [|y l IH]; simpl; [apply Permutation_refl|].
  destruct (Qle_bool x y); [apply Permutation_refl|].
  eapply perm_trans; [apply perm_swap|]. now apply perm_skip.
Qed.

Lemma insert_sorted x l :
  Sorted Qle l -> Sorted Qle (Num.insert x l).
Proof.
  induction 1 as [|y l Hs IH Hy]; simpl.
  - repeat constructor.
  - destruct (Qle_bool x y) eqn:E.
    + apply Qle_bool_iff in E. repeat constructor; assumption.
    + assert (y <= x)%Q as Hyx.
      { apply Qlt_le_weak, Qnot_le_lt. intros H.
        apply Qle_bool_iff in H. congruence. }
      constructor; [assumption|].
      destruct l as [|z l]; simpl in *; [now constructor|].
      destruct (Qle_bool x z); constructor; try assumption.
      now inversion Hy.
Qed.

(** The sort that the median is read from gives the same values in
    non-decreasing order. *)
Lemma sort_sorted l : Sorted Qle (Num.sort l) /\ Permutation l (Num.sort l).
Proof.
  induction l as [|x l [Hs Hp]]; simpl.
  - split; constructor.
  - split; [now apply insert_sorted|].
    eapply perm_trans; [apply perm_skip, Hp|apply insert_perm].
Qed.




(** ** C3: the score is the clamped sum of four penalties *)

Lemma calculate_risk_score_refines now df_clean r :
  calculate_risk_score now df_clean r
  = ScoreSpec.risk_score (normalize_ts now) high_risk_country
      (median (map amount_rub df_clean)) r.
Proof.
  unfold calculate_risk_score, ScoreSpec.risk_score, ScoreSpec.overdue_penalty,
    ScoreSpec.large_invoice_penalty, ScoreSpec.outstanding_status_penalty,
    ScoreSpec.country_penalty, due_date, clip, high_risk_country.
  destruct (invoice_date r) as [d|];
    [destruct (0 <? (normalize_ts now - (d + 30 * day)) / day)%Z eqn:Hd;
     [apply Z.ltb_lt in Hd|]|];
    destruct (fgt _ _); destruct (Text.mem _ _); destruct (Text.eqb _ _);
    simpl negb; cbv iota; lia.
Qed.

(** On a table without a column [amount], the canonical case, the score of
    the table is the score of the function. *)
Lemma risk_score_without_amount to_datetime_str float_repr now df :
  has_column (utf8 "amount") (clean_data to_datetime_str float_repr df)
  = false ->
  Forall (fun r : scored =>
            risk_score r
            = calculate_risk_score now
                (add_amount_rub
                   (rows (clean_data to_datetime_str float_repr df))) r)
         (rows (pipeline to_datetime_str float_repr now df)).
Proof.
  intros H. unfold pipeline, add_risk_score. cbn [rows]. rewrite H.
  apply Forall_map, Forall_forall. intros r _. reflexivity.
Qed.

(** C3. [calculate_risk_score] is the sum of the overdue penalty
    (50 + min(5 * days_overdue, 50) for a positive number of whole days
    between the evaluation date and the due date, 0 without a date), 10 for
    an amount above the batch median, 15 for a status that is not settled and
    15 for the high-risk country, clamped once.  A record dated 45 days
    before the evaluation date, with status "open", an amount above the
    median and the high-risk country scores 100. *)
Theorem risk_score_formula now df_clean (r : converted) :
  calculate_risk_score now df_clean r
  = ScoreSpec.risk_score (normalize_ts now) high_risk_country
      (median (map amount_rub df_clean)) r
  /\ (forall d,
        invoice_date r = Some d ->
        ((normalize_ts now - d) / day = 45)%Z ->
        status r = utf8 "open" ->
        fgt (amount_rub r) (median (map amount_rub df_clean)) = true ->
        country r = high_risk_country ->
        calculate_risk_score now df_clean r
        = Z.min (50 + Z.min (15 * 5) 50 + 10 + 15 + 15) 100
        /\ calculate_risk_score now df_clean r = 100%Z).
Proof.
  split; [apply calculate_risk_score_refines|].
  intros d Hd H45 Hst Hamt Hc.
  assert (Hdays : ((normalize_ts now - (d + 30 * day)) / day = 15)%Z).
  { replace (normalize_ts now - (d + 30 * day))%Z
      with ((normalize_ts now - d) + (-30) * day)%Z by ring.
    rewrite Z.div_add by (unfold day; lia). lia. }
  unfold calculate_risk_score.
  rewrite Hd, Hdays, Hamt, Hst, Hc. split; reflexivity.
Qed.

(** ** C4: deduplication by [invoice_id] *)

Lemma key_eqb_refl (a : cell) : key_eqb a a = true.
Proof.
  destruct a as [|s|q]; simpl; [reflexivity|apply str_eqb_refl|].
  apply Qeq_bool_iff. reflexivity.
Qed.

Lemma key_eqb_sym (a b : cell) : key_eqb a b = key_eqb b a.
Proof.
  destruct a as [|s|p], b as [|t|q]; simpl; try reflexivity.
  - apply str_eqb_sym.
  - destruct (Qeq_bool p q) eqn:E, (Qeq_bool q p) eqn:E'; try reflexivity.
    + apply Qeq_bool_iff in E. symmetry in E. apply Qeq_bool_iff in E.
      congruence.
    + apply Qeq_bool_iff in E'. symmetry in E'. apply Qeq_bool_iff in E'.
      congruence.
Qed.

Lemma key_eqb_trans (a b c : cell) :
  key_eqb a b = true -> key_eqb b c = true -> key_eqb a c = true.
Proof.
  destruct a as [|s|p], b as [|t|q], c as [|u|r]; simpl; try congruence.
  - intros H1 H2. apply str_eqb_eq in H1, H2. subst. apply str_eqb_refl.
  - intros H1 H2. apply Qeq_bool_iff in H1, H2. apply Qeq_bool_iff.
    now rewrite H1.
Qed.

Section Dedup.

Context {D A S : Type}.
Abbreviation record := (row D A S).

Lemma drop_duplicates_from_app (seen : list cell) (l1 l2 : list record) :
  drop_duplicates_from seen (l1 ++ l2)
  = drop_duplicates_from seen l1
    ++ drop_duplicates_from (seen_after seen l1) l2.
Proof.
  unfold seen_after. revert seen.
  induction l1 as [|x l1 IH]; intros seen; simpl; [reflexivity|].
  destruct (existsb (key_eqb (invoice_id x)) seen); [apply IH|].
  simpl. rewrite IH. do 2 f_equal. now rewrite <- app_assoc.
Qed.

Lemma drop_duplicates_from_incl (seen : list cell) (l : list record) x :
  In x (drop_duplicates_from seen l) -> In x l.
Proof.
  revert seen. induction l as [|y l IH]; intros seen; simpl; [tauto|].
  destruct (existsb (key_eqb (invoice_id y)) seen); simpl.
  - intros H. right. now apply (IH seen).
  - intros [H|H]; [now left|right; now apply (IH _ H)].
Qed.

(** A surviving row has a key that matches none of the keys seen before. *)
Lemma drop_duplicates_from_fresh (seen : list cell) (l : list record) x :
  In x (drop_duplicates_from seen l) ->
  existsb (key_eqb (invoice_id x)) seen = false.
Proof.
  revert seen. induction l as [|y l IH]; intros seen; simpl; [tauto|].
  destruct (existsb (key_eqb (invoice_id y)) seen) eqn:E; simpl.
  - apply IH.
  - intros [<-|H]; [assumption|].
    apply IH in H. simpl in H. now apply orb_false_elim in H as [_ H].
Qed.

Lemma existsb_false_iff {T} (p : T -> bool) (l : list T) :
  existsb p l = false <-> forall x, In x l -> p x = false.
Proof.
  induction l as [|y l IH]; simpl; [tauto|].
  rewrite orb_false_iff, IH. split.
  - intros [Hy Hl] x [<-|Hx]; auto.
  - intros H. split; [apply H; now left|]. intros x Hx. apply H. now right.
Qed.

(** Every key of [l] is matched by a key seen after reading [l]. *)
Lemma seen_after_covers (seen : list cell) (l : list record) x :
  In x l -> existsb (key_eqb (invoice_id x)) (seen_after seen l) = true.
Proof.
  unfold seen_after. revert seen.
  induction l as [|y l IH]; intros seen; simpl; [tauto|].
  intros [->|Hx].
  - destruct (existsb (key_eqb (invoice_id x)) seen) eqn:E.
    + rewrite existsb_app, E. apply orb_true_r.
    + simpl. rewrite !existsb_app. simpl. rewrite key_eqb_refl.
      rewrite orb_true_r. reflexivity.
  - destruct (existsb (key_eqb (invoice_id y)) seen) eqn:E.
    + now apply IH.
    + simpl. rewrite <- app_assoc. now apply (IH (invoice_id y :: seen)).
Qed.

Lemma seen_after_fresh (l : list record) (k : cell) :
  existsb (key_eqb k) (map invoice_id l) = false ->
  existsb (key_eqb k) (seen_after [] l) = false.
Proof.
  unfold seen_after. rewrite app_nil_r. intros H.
  apply existsb_false_iff. intros c Hc. apply in_rev in Hc.
  apply in_map_iff in Hc as [x [<- Hx]].
  apply drop_duplicates_from_incl in Hx.
  rewrite existsb_false_iff in H. apply H. now apply in_map.
Qed.

Lemma first_occurrence_survives (l1 l2 : list record) (r : record) :
  existsb (key_eqb (invoice_id r)) (map invoice_id l1) = false ->
  exists out2,
    drop_duplicates (l1 ++ r :: l2) = drop_duplicates l1 ++ r :: out2
    /\ existsb (key_eqb (invoice_id r))
               (map invoice_id (drop_duplicates l1 ++ out2)) = false.
Proof.
  intros H. unfold drop_duplicates.
  rewrite drop_duplicates_from_app. simpl.
  rewrite (seen_after_fresh _ _ H).
  eexists. split; [reflexivity|].
  apply existsb_false_iff. intros c Hc.
  apply in_map_iff in Hc as [x [<- Hx]]. apply in_app_or in Hx as [Hx|Hx].
  - apply drop_duplicates_from_incl in Hx.
    rewrite existsb_false_iff in H. apply H. now apply in_map.
  - apply drop_duplicates_from_fresh in Hx. simpl in Hx.
    apply orb_false_elim in Hx as [Hx _]. now rewrite key_eqb_sym.
Qed.

Lemma later_occurrence_dropped (l1 l2 : list record) (r : record) :
  existsb (key_eqb (invoice_id r)) (map invoice_id l1) = true ->
  drop_duplicates (l1 ++ r :: l2) = drop_duplicates (l1 ++ l2).
Proof.
  intros H. unfold drop_duplicates.
  rewrite !drop_duplicates_from_app. simpl.
  replace (existsb (key_eqb (invoice_id r)) (seen_after [] l1)) with true;
    [reflexivity|].
  symmetry. apply existsb_exists in H as [c [Hc Hrc]].
  apply in_map_iff in Hc as [x [<- Hx]].
  pose proof (seen_after_covers [] l1 x Hx) as Hcov.
  apply existsb_exists in Hcov as [k [Hk Hxk]].
  apply existsb_exists. exists k. split; [assumption|].
  now apply (key_eqb_trans _ (invoice_id x)).
Qed.

End Dedup.

(** C4, as the program has it.  For every [invoice_id], the missing key
    included, the first record that carries it survives in its place and no
    other record with that key does; a record whose key was met earlier is
    dropped, so of several records without an [invoice_id] only the first
    one stays. *)
Theorem drop_duplicates_keeps_first {D A S} (l1 l2 : list (row D A S))
    (r : row D A S) :
  (existsb (key_eqb (invoice_id r)) (map invoice_id l1) = false ->
   exists out2,
     drop_duplicates (l1 ++ r :: l2) = drop_duplicates l1 ++ r :: out2
     /\ existsb (key_eqb (invoice_id r))
                (map invoice_id (drop_duplicates l1 ++ out2)) = false)
  /\ (existsb (key_eqb (invoice_id r)) (map invoice_id l1) = true ->
      drop_duplicates (l1 ++ r :: l2) = drop_duplicates (l1 ++ l2))
  /\ (invoice_id r = Null ->
      (exists x, In x l1 /\ invoice_id x = Null) ->
      drop_duplicates (l1 ++ r :: l2) = drop_duplicates (l1 ++ l2)).
Proof.
  split; [apply first_occurrence_survives|].
  split; [apply later_occurrence_dropped|].
  intros Hr [x [Hx Hnull]]. apply later_occurrence_dropped.
  apply existsb_exists. exists Null. split.
  - rewrite <- Hnull. now apply in_map.
  - now rewrite Hr.
Qed.

(** ** C5 and C6: conversion to the reporting currency *)

Lemma is_text_eq (c : cell) (s : str) : is_text c s = true <-> c = Str s.
Proof.
  destruct c as [|t|q]; simpl; split; try congruence.
  - intros H. apply str_eqb_eq in H. congruence.
  - intros H. injection H as ->. apply str_eqb_refl.
Qed.

Lemma to_rub_same_currency (x : invoice) :
  invoice_currency x = reporting_currency -> to_rub x = invoice_amount x.
Proof.
  intros H. unfold to_rub.
  replace (is_text (invoice_currency x) (utf8 "RUB")) with true;
    [reflexivity|].
  symmetry. now apply is_text_eq.
Qed.

Lemma to_rub_other_currency (x : invoice) :
  invoice_currency x <> reporting_currency ->
  to_rub x = fmul (invoice_amount x) (cross_rate x).
Proof.
  intros H. unfold to_rub.
  destruct (is_text (invoice_currency x) (utf8 "RUB")) eqn:E;
    [|reflexivity].
  apply is_text_eq in E. contradiction.
Qed.

Lemma pipeline_rows to_datetime_str float_repr now df (r : scored) :
  In r (rows (pipeline to_datetime_str float_repr now df)) ->
  amount_rub r = to_rub r.
Proof.
  unfold pipeline, add_risk_score, add_amount_rub. simpl.
  rewrite map_map. intros H. apply in_map_iff in H as [x [<- _]].
  reflexivity.
Qed.

(** C5. In the scored table, a record whose [invoice_currency] is exactly
    "RUB" has [amount_rub] equal to its [invoice_amount], nothing multiplied;
    every other record, a lower-case "rub" included, has
    [invoice_amount * cross_rate].  The KPI block and the report recompute
    the column with the same rule and find the same value. *)
Theorem amount_rub_conversion to_datetime_str float_repr now df :
  Forall (fun r : scored =>
            (invoice_currency r = reporting_currency ->
             amount_rub r = invoice_amount r)
            /\ (invoice_currency r <> reporting_currency ->
                amount_rub r = fmul (invoice_amount r) (cross_rate r))
            /\ (invoice_currency r = Str (utf8 "rub") ->
                amount_rub r = fmul (invoice_amount r) (cross_rate r))
            /\ to_rub r = amount_rub r)
         (rows (pipeline to_datetime_str float_repr now df)).
Proof.
  apply Forall_forall. intros r Hr.
  rewrite (pipeline_rows _ _ _ _ _ Hr).
  repeat split.
  - apply to_rub_same_currency.
  - apply to_rub_other_currency.
  - intros H. apply to_rub_other_currency. rewrite H. discriminate.
Qed.

Lemma dropna_app (a b : list (option Q)) :
  dropna (a ++ b) = dropna a ++ dropna b.
Proof.
  induction a as [|[q|] a IH]; simpl; [reflexivity| |assumption].
  now rewrite IH.
Qed.

(** A sum over a mask does not see a row whose amount is null. *)
Lemma sum_rub_skips_null mask (df1 df2 : list scored) (r : scored) :
  to_rub r = None ->
  sum_rub mask (df1 ++ r :: df2) = sum_rub mask (df1 ++ df2).
Proof.
  intros H. unfold sum_rub, nansum. f_equal.
  rewrite !filter_app, !map_app, !dropna_app. f_equal.
  simpl. destruct (mask r); [simpl; rewrite H|]; reflexivity.
Qed.

Lemma filter_skips_null (keep mask : invoice -> bool) (df1 df2 : list scored)
    (r : scored) :
  to_rub r = None ->
  sum_rub mask (filter (fun x : scored => keep x) (df1 ++ r :: df2))
  = sum_rub mask (filter (fun x : scored => keep x) (df1 ++ df2)).
Proof.
  intros H. rewrite !filter_app. simpl.
  destruct (keep r); [|reflexivity].
  now apply sum_rub_skips_null.
Qed.

(** C6, as the program has it.  A record whose [invoice_amount] is null, or
    whose [cross_rate] is null while its currency is not the reporting
    currency, has a null [amount_rub]; a record in the reporting currency
    keeps its [invoice_amount] even when its [cross_rate] is null.  Expected
    revenue, overdue amount, total amount and the sums per contractor of the
    overdue records are the same with and without a record whose amount is
    null. *)
Theorem null_amount_propagates to_datetime_str float_repr now df :
  Forall (fun r : scored =>
            (invoice_amount r = None -> amount_rub r = None)
            /\ (cross_rate r = None ->
                invoice_currency r <> reporting_currency ->
                amount_rub r = None)
            /\ (cross_rate r = None ->
                invoice_currency r = reporting_currency ->
                amount_rub r = invoice_amount r))
         (rows (pipeline to_datetime_str float_repr now df))
  /\ (forall today (df1 df2 : list scored) (r : scored),
        to_rub r = None ->
        total_expected (df1 ++ r :: df2) = total_expected (df1 ++ df2)
        /\ total_overdue today (df1 ++ r :: df2)
           = total_overdue today (df1 ++ df2)
        /\ total_amount (df1 ++ r :: df2) = total_amount (df1 ++ df2)
        /\ forall k,
             contractor_sum
               (filter (fun x : scored => overdue_mask today x)
                       (df1 ++ r :: df2)) k
             = contractor_sum
                 (filter (fun x : scored => overdue_mask today x)
                         (df1 ++ df2)) k).
Proof.
  split.
  - apply Forall_forall. intros r Hr.
    rewrite (pipeline_rows _ _ _ _ _ Hr).
    repeat split.
    + intros H. unfold to_rub. rewrite H.
      destruct (negb _); reflexivity.
    + intros H Hc. rewrite (to_rub_other_currency _ Hc), H.
      destruct (invoice_amount r); reflexivity.
    + intros _ Hc. now apply to_rub_same_currency.
  - intros today df1 df2 r H. unfold total_expected, total_overdue, total_amount.
    repeat split; try now apply sum_rub_skips_null.
    intros k. unfold contractor_sum. now apply filter_skips_null.
Qed.

(** ** C7: cleaning of amount strings *)

Section Replace.

Variable eqc : N -> N -> bool.
Variables pat repl : str.

(** Replacement never invents characters. *)
Lemma replace_from_chars k s c :
  In c (replace_from eqc pat repl k s) -> In c s \/ In c repl.
Proof.
  revert k. induction s as [|x s IH]; intros k; simpl; [tauto|].
  destruct k as [|k].
  - destruct (prefix_by eqc pat (x :: s)).
    + intros H. apply in_app_or in H as [H|H]; [now right|].
      apply IH in H. tauto.
    + intros [H|H]; [tauto|]. apply IH in H. tauto.
  - intros H. apply IH in H. tauto.
Qed.

(** No match begins inside a run of characters that the first character of
    the pattern does not match. *)
Lemma replace_from_no_start p pat' a s :
  pat = p :: pat' ->
  (forall c, In c a -> eqc p c = false) ->
  replace_from eqc pat repl O (a ++ s) = a ++ replace_from eqc pat repl O s.
Proof.
  intros -> Ha. induction a as [|x a IH]; [reflexivity|].
  change ((x :: a) ++ s) with (x :: (a ++ s)).
  cbn [replace_from prefix_by].
  rewrite (Ha x (or_introl eq_refl)). cbn [andb].
  rewrite IH; [reflexivity|]. intros c Hc. apply Ha. now right.
Qed.

(** A character that no character of the pattern matches is never removed.
    [suf] is the part of the match still to be skipped. *)
Lemma replace_from_keeps pre suf s c :
  pat = pre ++ suf -> pat <> [] ->
  prefix_by eqc suf s = true ->
  (forall p, In p pat -> eqc p c = false) ->
  In c s -> In c (replace_from eqc pat repl (List.length suf) s).
Proof.
  intros Hpat Hne Hpre Hc. revert pre suf Hpat Hpre.
  induction s as [|x s IH]; intros pre suf Hpat Hpre; [intros []|].
  intros Hin. destruct suf as [|p suf].
  - cbn [List.length replace_from].
    destruct (prefix_by eqc pat (x :: s)) eqn:E.
    + apply in_or_app. right.
      destruct pat as [|p0 pat0] eqn:Ep; [congruence|].
      cbn [prefix_by] in E. apply andb_prop in E as [E0 E1].
      destruct Hin as [->|Hin].
      * rewrite (Hc p0 (or_introl eq_refl)) in E0. discriminate.
      * cbn [List.length Nat.pred].
        apply (IH [p0] pat0); [reflexivity|assumption|assumption].
    + destruct Hin as [->|Hin]; [now left|right].
      apply (IH pat []); [now rewrite app_nil_r|reflexivity|assumption].
  - cbn [List.length replace_from]. cbn [prefix_by] in Hpre.
    apply andb_prop in Hpre as [E0 E1].
    destruct Hin as [->|Hin].
    + rewrite Hc in E0; [discriminate|].
      rewrite Hpat. apply in_or_app. right. now left.
    + apply (IH (pre ++ [p]) suf); [|assumption|assumption].
      now rewrite <- app_assoc.
Qed.

End Replace.

(** Replacing a one-character pattern acts on each character alone. *)
Lemma replace_char p repl s :
  replace [p] repl s
  = flat_map (fun c => if (p =? c)%N then repl else [c]) s.
Proof.
  unfold replace. induction s as [|x s IH]; [reflexivity|].
  cbn [replace_from prefix_by flat_map List.length Nat.pred].
  rewrite andb_true_r, IH. now destruct (p =? x)%N.
Qed.

Lemma replace_char_app p repl a b :
  replace [p] repl (a ++ b) = replace [p] repl a ++ replace [p] repl b.
Proof. rewrite !replace_char. apply flat_map_app. Qed.

Lemma replace_char_out p repl s c :
  In c (replace [p] repl s) -> (In c s /\ c <> p) \/ In c repl.
Proof.
  rewrite replace_char, in_flat_map. intros [x [Hx Hc]].
  destruct (N.eqb_spec p x) as [->|Hne]; [now right|].
  destruct Hc as [<-|[]]. left. split; [assumption|congruence].
Qed.

Lemma replace_char_keeps p repl s c :
  In c s -> c <> p -> In c (replace [p] repl s).
Proof.
  intros Hc Hne. rewrite replace_char, in_flat_map. exists c.
  split; [assumption|].
  destruct (N.eqb_spec p c); [congruence|now left].
Qed.

Lemma lower_cp_cases c :
  (lower_cp c = c
   \/ (lower_cp c = c + 32
       /\ (65 <= c <= 90 \/ 192 <= c <= 222 \/ 1040 <= c <= 1071))
   \/ (lower_cp c = c + 80 /\ 1024 <= c <= 1039))%N.
Proof.
  unfold lower_cp.
  destruct (N.leb_spec 65 c), (N.leb_spec c 90); cbn [andb]; [lia| | |].
  all: destruct (N.leb_spec 192 c), (N.leb_spec c 222), (N.eqb_spec c 215);
    cbn [andb negb]; try lia.
  all: destruct (N.leb_spec 1040 c), (N.leb_spec c 1071); cbn [andb]; try lia.
  all: destruct (N.leb_spec 1024 c), (N.leb_spec c 1039); cbn [andb]; lia.
Qed.

(** The characters that a character of the pattern "usd" matches. *)
Lemma ieq_usd p c :
  In p (utf8 "usd") -> ieq p c = true ->
  In c [117; 85; 115; 83; 383; 100; 68]%N.
Proof.
  unfold ieq. intros Hp H. change (utf8 "usd") with [117; 115; 100]%N in Hp.
  assert (lower_cp p = p) as Hl
    by (destruct Hp as [<-|[<-|[<-|[]]]]; reflexivity).
  rewrite Hl in H. apply orb_prop in H as [H|H].
  - apply N.eqb_eq in H. pose proof (lower_cp_cases c) as Hc.
    destruct Hp as [<-|[<-|[<-|[]]]]; simpl; lia.
  - apply andb_prop in H as [_ H]. apply N.eqb_eq in H. subst. simpl. tauto.
Qed.

Lemma strip_amount_clean s c :
  In c (strip_amount s) -> ~ In c stripped_chars.
Proof.
  unfold strip_amount, stripped_chars. change (utf8 "$") with [36%N].
  change (utf8 "₽") with [8381%N]. change (utf8 " ") with [32%N].
  change (utf8 ",") with [44%N]. change (utf8 "≈") with [8776%N].
  change (utf8 ".") with [46%N]. unfold replace_nocase.
  intros H.
  apply replace_char_out in H as [[H H36]|[]].
  apply replace_char_out in H as [[H H8381]|[]].
  apply replace_char_out in H as [[H H32]|[]].
  apply replace_char_out in H as [[H H44]|[<-|[]]].
  - apply replace_from_chars in H as [H|[]].
    apply replace_char_out in H as [[H H8776]|[]].
    simpl. intuition congruence.
  - simpl. intuition congruence.
Qed.

Lemma strip_amount_keeps s c :
  In c s -> ~ In c stripped_chars ->
  ~ In c [117; 85; 115; 83; 383; 100; 68]%N ->
  In c (strip_amount s).
Proof.
  unfold strip_amount, stripped_chars. change (utf8 "$") with [36%N].
  change (utf8 "₽") with [8381%N]. change (utf8 " ") with [32%N].
  change (utf8 ",") with [44%N]. change (utf8 "≈") with [8776%N].
  unfold replace_nocase. intros Hc Hs Hu. simpl in Hs.
  repeat (apply replace_char_keeps; [|intuition congruence]).
  apply (replace_from_keeps ieq (utf8 "usd") [] (utf8 "usd") []);
    [reflexivity|discriminate|reflexivity| |].
  - intros p Hp. destruct (ieq p c) eqn:E; [|reflexivity].
    exfalso. apply Hu. now apply (ieq_usd p).
  - apply replace_char_keeps; [assumption|intuition congruence].
Qed.

(** Removing the token "usd", in any letter case, where no "u" stands
    before it. *)
Lemma strip_amount_usd a t b :
  (forall c, In c a -> ieq 117 c = false) ->
  List.length t = 3%nat -> prefix_by ieq (utf8 "usd") t = true ->
  strip_amount (a ++ t ++ b) = strip_amount (a ++ b).
Proof.
  intros Ha Hlen Ht. unfold strip_amount. do 4 f_equal.
  change (utf8 "≈") with [8776%N]. rewrite !replace_char_app.
  assert (forall c, In c (replace [8776%N] [] a) -> ieq 117 c = false) as Ha'.
  { intros c Hc. apply replace_char_out in Hc as [[Hc _]|[]]. now apply Ha. }
  assert (replace [8776%N] [] t = t) as Ht'.
  { destruct t as [|c1 [|c2 [|c3 [|]]]]; try discriminate.
    cbn [prefix_by utf8 decode bytes] in Ht.
    change (utf8 "usd") with [117; 115; 100]%N in Ht. cbn [prefix_by] in Ht.
    apply andb_prop in Ht as [H1 Ht]. apply andb_prop in Ht as [H2 Ht].
    apply andb_prop in Ht as [H3 _].
    apply (ieq_usd 117) in H1; [|simpl; tauto].
    apply (ieq_usd 115) in H2; [|simpl; tauto].
    apply (ieq_usd 100) in H3; [|simpl; tauto].
    rewrite replace_char. cbn [flat_map].
    destruct (N.eqb_spec 8776 c1) as [<-|_]; [simpl in H1; lia|].
    destruct (N.eqb_spec 8776 c2) as [<-|_]; [simpl in H2; lia|].
    destruct (N.eqb_spec 8776 c3) as [<-|_]; [simpl in H3; lia|].
    reflexivity. }
  rewrite Ht'. unfold replace_nocase.
  change (utf8 "usd") with [117; 115; 100]%N in *.
  remember (replace [8776%N] [] a) as a'.
  remember (replace [8776%N] [] b) as b'.
  rewrite (replace_from_no_start ieq _ [] 117%N [115; 100]%N a' (t ++ b'))
    by (reflexivity || assumption).
  rewrite (replace_from_no_start ieq _ [] 117%N [115; 100]%N a' b')
    by (reflexivity || assumption).
  f_equal.
  destruct t as [|c1 [|c2 [|c3 [|]]]]; try discriminate.
  change ([c1; c2; c3] ++ b') with (c1 :: c2 :: c3 :: b').
  cbn [replace_from List.length Nat.pred].
  change (prefix_by ieq [117; 115; 100]%N (c1 :: c2 :: c3 :: b'))
    with (prefix_by ieq [117; 115; 100]%N [c1; c2; c3]).
  rewrite Ht. reflexivity.
Qed.

Lemma flat_map_flat_map {X Y Z} (f : X -> list Y) (g : Y -> list Z) l :
  flat_map g (flat_map f l) = flat_map (fun x => flat_map g (f x)) l.
Proof.
  induction l as [|x l IH]; [reflexivity|].
  simpl. now rewrite flat_map_app, IH.
Qed.

(** On a text without the letter "u", step 4 works character by
    character. *)
Lemma strip_amount_charwise s :
  (forall c, In c s -> ieq 117 c = false) ->
  strip_amount s = flat_map amount_char s.
Proof.
  intros Hs. unfold strip_amount. change (utf8 "$") with [36%N].
  change (utf8 "₽") with [8381%N]. change (utf8 " ") with [32%N].
  change (utf8 ",") with [44%N]. change (utf8 "≈") with [8776%N].
  change (utf8 ".") with [46%N].
  assert (replace_nocase (utf8 "usd") [] (replace [8776%N] [] s)
          = replace [8776%N] [] s) as ->.
  { unfold replace_nocase.
    pose proof (replace_from_no_start ieq (utf8 "usd") [] 117%N
                  [115; 100]%N (replace [8776%N] [] s) [] eq_refl) as H.
    rewrite app_nil_r in H. cbn [replace_from] in H.
    rewrite app_nil_r in H. apply H. intros c Hc.
    apply replace_char_out in Hc as [[Hc _]|[]]. now apply Hs. }
  rewrite !replace_char, !flat_map_flat_map. apply flat_map_ext.
  intros c. unfold amount_char, stripped_chars. cbn [existsb].
  destruct (N.eqb_spec 8776 c) as [<-|H1]; [reflexivity|].
  cbn [flat_map app].
  destruct (N.eqb_spec 44 c) as [<-|H2]; [reflexivity|].
  cbn [flat_map app].
  destruct (N.eqb_spec 32 c) as [<-|H3]; [reflexivity|].
  cbn [flat_map app].
  destruct (N.eqb_spec 8381 c) as [<-|H4]; [reflexivity|].
  cbn [flat_map app].
  destruct (N.eqb_spec 36 c) as [<-|H5]; [reflexivity|].
  cbn [flat_map app].
  destruct (N.eqb_spec c 44); [congruence|].
  destruct (N.eqb_spec c 8776); [congruence|].
  destruct (N.eqb_spec c 32); [congruence|].
  destruct (N.eqb_spec c 8381); [congruence|].
  destruct (N.eqb_spec c 36); [congruence|].
  reflexivity.
Qed.

Lemma other_whitespace_kept c :
  is_space c = true -> c <> 32%N ->
  ~ In c stripped_chars /\ ~ In c [117; 85; 115; 83; 383; 100; 68]%N.
Proof.
  intros Hs H32. split; intros H; simpl in H;
    repeat (destruct H as [<-|H]; [try discriminate; congruence|]);
    exact H.
Qed.

(** C7, as the program has it.  Step 4 removes the approximation sign, the
    token "usd" in any letter case, the rouble and dollar signs and the space
    character, and turns commas into points, character by character where
    no "usd" is involved; whitespace other than the space character stays in
    the string.  The text "≈ 1 200,50 usd" is read as
    1200.50, and a text that is no number, like an empty cell, becomes
    null. *)
Theorem clean_amount_reads_formatted_text float_repr :
  (exists q, clean_amount float_repr (Str (utf8 "≈ 1 200,50 usd")) = Some q
             /\ q == 1200.50)
  /\ (forall s c, In c (strip_amount s) -> ~ In c stripped_chars)
  /\ (forall s, (forall c, In c s -> ieq 117 c = false) ->
                strip_amount s = flat_map amount_char s)
  /\ (forall a t b,
        (forall c, In c a -> ieq 117 c = false) ->
        List.length t = 3%nat -> prefix_by ieq (utf8 "usd") t = true ->
        strip_amount (a ++ t ++ b) = strip_amount (a ++ b))
  /\ (forall s c,
        In c s -> is_space c = true -> c <> 32%N -> In c (strip_amount s))
  /\ clean_amount float_repr (Str (utf8 "n/a")) = None
  /\ clean_amount float_repr Null = None.
Proof.
  split; [|split; [|split; [|split; [|split; [|split]]]]].
  - exists (2401 # 2). split; reflexivity.
  - apply strip_amount_clean.
  - apply strip_amount_charwise.
  - apply strip_amount_usd.
  - intros s c Hc Hs H32.
    destruct (other_whitespace_kept c Hs H32) as [H1 H2].
    now apply strip_amount_keeps.
  - reflexivity.
  - reflexivity.
Qed.

(** ** C8: the overdue ratio *)

Lemma Qltb_lt x y : Qltb x y = true <-> (x < y)%Q.
Proof.
  unfold Qltb. rewrite negb_true_iff. split.
  - intros H. apply Qnot_le_lt. intros Hle.
    apply Qle_bool_iff in Hle. congruence.
  - intros H. destruct (Qle_bool y x) eqn:E; [|reflexivity].
    apply Qle_bool_iff in E. exfalso. now apply (Qlt_not_le x y).
Qed.

Lemma Qltb_ge x y : Qltb x y = false <-> (y <= x)%Q.
Proof.
  unfold Qltb. rewrite negb_false_iff. apply Qle_bool_iff.
Qed.

(** C8, as the program has it.  The overdue ratio is
    [total_overdue / total_amount * 100] when the total amount is positive
    and 0 when it is zero or negative; the division is never made with a
    zero divisor. *)
Theorem overdue_ratio_guarded today (df_filtered : list scored) :
  ((0 < total_amount df_filtered)%Q ->
   overdue_ratio today df_filtered
   = Some (total_overdue today df_filtered / total_amount df_filtered * 100))
  /\ ((total_amount df_filtered <= 0)%Q ->
      overdue_ratio today df_filtered = Some 0)
  /\ overdue_ratio today df_filtered <> None.
Proof.
  unfold overdue_ratio, checked_div.
  destruct (Qltb 0 (total_amount df_filtered)) eqn:E.
  - apply Qltb_lt in E.
    assert (Qeq_bool (total_amount df_filtered) 0 = false) as Hz.
    { destruct (Qeq_bool _ 0) eqn:Ez; [|reflexivity].
      apply Qeq_bool_iff in Ez. rewrite Ez in E.
      exfalso. now apply (Qlt_irrefl 0). }
    rewrite Hz. simpl. repeat split; try discriminate.
    intros H. exfalso. apply (Qlt_irrefl 0).
    now apply (Qlt_le_trans _ (total_amount df_filtered)).
  - apply Qltb_ge in E. repeat split; try discriminate.
    intros H. exfalso. apply (Qlt_irrefl 0).
    now apply (Qlt_le_trans _ (total_amount df_filtered)).
Qed.

(** ** C9: the hypothesis check *)

(** *** Rounding to the nearest double *)

(** **** Powers of two *)

Lemma pow2_pos k : 0 < 2 ^ k.
Proof. now apply Qpower_0_lt. Qed.

Lemma pow2_le a b : (a <= b)%Z -> 2 ^ a <= 2 ^ b.
Proof. intros H. now apply Qpower_le_compat_l. Qed.

Lemma pow2_lt a b : (a < b)%Z -> 2 ^ a < 2 ^ b.
Proof. intros H. now apply Qpower_lt_compat_l. Qed.

Lemma pow2_lt_inv a b : 2 ^ a < 2 ^ b -> (a < b)%Z.
Proof. intros H. now apply (Qpower_lt_compat_l_inv 2). Qed.

Lemma pow2_plus a b : 2 ^ (a + b) == 2 ^ a * 2 ^ b.
Proof. now apply Qpower_plus. Qed.

Lemma pow2_minus a b : 2 ^ (a - b) == 2 ^ a / 2 ^ b.
Proof. now apply Qpower_minus. Qed.

Lemma pow2_inject n : (0 <= n)%Z -> inject_Z (2 ^ n) == 2 ^ n.
Proof. intros H. now rewrite Zpower_Qpower. Qed.

(** **** The binary exponent *)

Lemma Qmake_div n d : n # d == inject_Z n / inject_Z (Zpos d).
Proof. apply Qmake_Qdiv. Qed.

Lemma floor_log2_spec q :
  0 < q -> 2 ^ XFloat.floor_log2 q <= q < 2 ^ (XFloat.floor_log2 q + 1).
Proof.
  intros Hq. destruct q as [n d]. unfold XFloat.floor_log2. cbn [Qnum Qden].
  assert (0 < n)%Z as Hn by (unfold Qlt in Hq; simpl in Hq; lia).
  pose proof (Z.log2_spec n Hn) as [Hn1 Hn2].
  pose proof (Z.log2_spec (Zpos d) eq_refl) as [Hd1 Hd2].
  pose proof (Z.log2_nonneg n) as Ha. pose proof (Z.log2_nonneg (Zpos d)) as Hb.
  set (a := Z.log2 n) in *. set (b := Z.log2 (Zpos d)) in *.
  assert (0 < inject_Z (Zpos d)) as Hdq by reflexivity.
  assert (2 ^ (a - b - 1) < n # d) as Hlow.
  { rewrite (Qmake_div n d). apply Qlt_shift_div_l; [assumption|].
    apply Qlt_le_trans with (2 ^ (a - b - 1) * 2 ^ (b + 1)).
    - apply Qmult_lt_l; [apply pow2_pos|].
      rewrite <- pow2_inject by lia. rewrite <- Zlt_Qlt.
      replace (Z.succ b) with (b + 1)%Z in Hd2 by lia. exact Hd2.
    - rewrite <- pow2_plus. replace (a - b - 1 + (b + 1))%Z with a by lia.
      rewrite <- pow2_inject by lia. now rewrite <- Zle_Qle. }
  assert (n # d < 2 ^ (a - b + 1)) as Hup.
  { rewrite (Qmake_div n d). apply Qlt_shift_div_r; [assumption|].
    apply Qlt_le_trans with (2 ^ (a + 1)).
    - rewrite <- pow2_inject by lia. rewrite <- Zlt_Qlt.
      replace (Z.succ a) with (a + 1)%Z in Hn2 by lia. exact Hn2.
    - replace (a + 1)%Z with (a - b + 1 + b)%Z at 1 by lia.
      rewrite pow2_plus. apply Qmult_le_l; [apply pow2_pos|].
      rewrite <- pow2_inject by lia. now rewrite <- Zle_Qle. }
  destruct (Qle_bool (2 ^ (a - b)) (n # d)) eqn:E.
  - apply Qle_bool_iff in E. split; assumption.
  - split; [now apply Qlt_le_weak|].
    replace (a - b - 1 + 1)%Z with (a - b)%Z by lia.
    apply Qnot_le_lt. intros H. apply Qle_bool_iff in H. congruence.
Qed.

Lemma floor_log2_unique q e :
  2 ^ e <= q < 2 ^ (e + 1) -> XFloat.floor_log2 q = e.
Proof.
  intros [H1 H2].
  assert (0 < q) as Hq by (eapply Qlt_le_trans; [apply (pow2_pos e)|assumption]).
  destruct (floor_log2_spec q Hq) as [H3 H4].
  assert (XFloat.floor_log2 q < e + 1)%Z.
  { apply pow2_lt_inv. eapply Qle_lt_trans; eassumption. }
  assert (e < XFloat.floor_log2 q + 1)%Z.
  { apply pow2_lt_inv. eapply Qle_lt_trans; eassumption. }
  lia.
Qed.

(** **** Rounding to an integer *)

Lemma rint_cases q :
  (q - inject_Z (Qfloor q) < 1 # 2 /\ XFloat.rint q = Qfloor q)
  \/ (1 # 2 < q - inject_Z (Qfloor q) /\ XFloat.rint q = (Qfloor q + 1)%Z)
  \/ (q - inject_Z (Qfloor q) == 1 # 2
      /\ XFloat.rint q = if Z.even (Qfloor q) then Qfloor q else (Qfloor q + 1)%Z).
Proof.
  unfold XFloat.rint. cbv zeta.
  destruct (Qltb (q - inject_Z (Qfloor q)) (1 # 2)) eqn:E1.
  - left. split; [now apply Qltb_lt|reflexivity].
  - destruct (Qltb (1 # 2) (q - inject_Z (Qfloor q))) eqn:E2.
    + right. left. split; [now apply Qltb_lt|reflexivity].
    + right. right. split; [|reflexivity].
      apply Qltb_ge in E1. apply Qltb_ge in E2. now apply Qle_antisym.
Qed.

Lemma rint_floor q : (Qfloor q <= XFloat.rint q <= Qfloor q + 1)%Z.
Proof.
  destruct (rint_cases q) as [[_ ->]|[[_ ->]|[_ ->]]]; try lia.
  destruct (Z.even _); lia.
Qed.

Lemma rint_comp a b : a == b -> XFloat.rint a = XFloat.rint b.
Proof.
  intros H. assert (Qfloor a = Qfloor b) as Hf by now rewrite H.
  destruct (rint_cases a) as [[Ha ->]|[[Ha ->]|[Ha ->]]];
    destruct (rint_cases b) as [[Hb ->]|[[Hb ->]|[Hb ->]]];
    rewrite Hf in *; try reflexivity; exfalso; lra.
Qed.

Lemma rint_inject n : XFloat.rint (inject_Z n) = n.
Proof.
  destruct (rint_cases (inject_Z n)) as [[_ ->]|[[H _]|[H _]]];
    rewrite ?Qfloor_Z in *; try reflexivity; exfalso; lra.
Qed.

Lemma rint_le q n : q <= inject_Z n -> (XFloat.rint q <= n)%Z.
Proof.
  intros H.
  assert (Qfloor q <= n)%Z as Hf.
  { rewrite <- (Qfloor_Z n). now apply Qfloor_resp_le. }
  destruct (Z.eq_dec (Qfloor q) n) as [E|E].
  - assert (q == inject_Z n) as Hq.
    { apply Qle_antisym; [assumption|]. rewrite <- E. apply Qfloor_le. }
    rewrite (rint_comp _ _ Hq), rint_inject. lia.
  - pose proof (rint_floor q). lia.
Qed.

Lemma rint_ge q n : inject_Z n <= q -> (n <= XFloat.rint q)%Z.
Proof.
  intros H.
  assert (n <= Qfloor q)%Z as Hf.
  { rewrite <- (Qfloor_Z n). now apply Qfloor_resp_le. }
  pose proof (rint_floor q). lia.
Qed.

Lemma rint_nonneg q : 0 <= q -> (0 <= XFloat.rint q)%Z.
Proof. intros H. now apply rint_ge. Qed.

Lemma rint_mono a b : a <= b -> (XFloat.rint a <= XFloat.rint b)%Z.
Proof.
  intros H.
  assert (Qfloor a <= Qfloor b)%Z as Hf by now apply Qfloor_resp_le.
  destruct (Z.eq_dec (Qfloor a) (Qfloor b)) as [E|E].
  - destruct (rint_cases a) as [[Ha ->]|[[Ha ->]|[Ha ->]]];
      destruct (rint_cases b) as [[Hb ->]|[[Hb ->]|[Hb ->]]];
      rewrite E in *; try lia; try (destruct (Z.even (Qfloor b)); lia);
      exfalso; lra.
  - pose proof (rint_floor a). pose proof (rint_floor b). lia.
Qed.

(** **** The last place *)

Lemma pow2_le_inv a b : 2 ^ a <= 2 ^ b -> (a <= b)%Z.
Proof. intros H. now apply (Qpower_le_compat_l_inv 2). Qed.

Lemma quantum_spec q :
  0 < q ->
  (-1074 <= XFloat.quantum q)%Z
  /\ q < 2 ^ (XFloat.quantum q + 53)
  /\ ((-1074 < XFloat.quantum q)%Z -> 2 ^ (XFloat.quantum q + 52) <= q).
Proof.
  intros Hq. unfold XFloat.quantum.
  assert (Qabs q == q) as Ha by (apply Qabs_pos; lra).
  assert (0 < Qabs q) as Hp by now rewrite Ha.
  destruct (floor_log2_spec _ Hp) as [H1' H2'].
  set (e := XFloat.floor_log2 (Qabs q)) in *.
  assert (2 ^ e <= q) as H1 by (eapply Qle_trans; [exact H1'|]; rewrite Ha; apply Qle_refl).
  assert (q < 2 ^ (e + 1)) as H2 by (eapply Qle_lt_trans; [|exact H2']; rewrite Ha; apply Qle_refl).
  split; [lia|]. split.
  - eapply Qlt_le_trans; [exact H2|]. apply pow2_le. lia.
  - intros Hs. replace (Z.max (e - 52) (-1074) + 52)%Z with e by lia.
    exact H1.
Qed.

Lemma quantum_mono a b : 0 < a -> a <= b -> (XFloat.quantum a <= XFloat.quantum b)%Z.
Proof.
  intros Ha Hab. assert (0 < b) as Hb by lra. unfold XFloat.quantum.
  assert (Qabs a == a) as Ea by (apply Qabs_pos; lra).
  assert (Qabs b == b) as Eb by (apply Qabs_pos; lra).
  assert (0 < Qabs a) as Pa by now rewrite Ea.
  assert (0 < Qabs b) as Pb by now rewrite Eb.
  destruct (floor_log2_spec _ Pa) as [A1 _].
  destruct (floor_log2_spec _ Pb) as [_ B2].
  set (ea := XFloat.floor_log2 (Qabs a)) in *. set (eb := XFloat.floor_log2 (Qabs b)) in *.
  assert (ea < eb + 1)%Z.
  { apply pow2_lt_inv. eapply Qle_lt_trans; [exact A1|].
    eapply Qle_lt_trans; [|exact B2]. rewrite Ea, Eb. exact Hab. }
  lia.
Qed.

Lemma quantum_comp a b : 0 < a -> a == b -> XFloat.quantum a = XFloat.quantum b.
Proof.
  intros Ha Hab. assert (0 < b) as Hb by lra.
  assert (a <= b) as H1 by lra. assert (b <= a) as H2 by lra.
  pose proof (quantum_mono a b Ha H1). pose proof (quantum_mono b a Hb H2).
  lia.
Qed.

(** **** Rounding to the XFloat.nearest double *)

Lemma scaled q s : q / 2 ^ s * 2 ^ s == q.
Proof. field. apply Qpower_not_0. discriminate. Qed.

Lemma div_pow2_le a b s : a <= b -> a / 2 ^ s <= b / 2 ^ s.
Proof.
  intros H. unfold Qdiv. apply Qmult_le_compat_r; [assumption|].
  apply Qinv_le_0_compat, Qlt_le_weak, pow2_pos.
Qed.

Lemma mul_pow2_le a b s : a <= b -> a * 2 ^ s <= b * 2 ^ s.
Proof.
  intros H. apply Qmult_le_compat_r; [assumption|].
  apply Qlt_le_weak, pow2_pos.
Qed.

Lemma nearest_zero q : q == 0 -> XFloat.nearest q == 0.
Proof.
  intros H. unfold XFloat.nearest.
  assert (q / 2 ^ XFloat.quantum q == inject_Z 0) as E.
  { generalize (2 ^ XFloat.quantum q). intros p. rewrite H. unfold Qdiv. ring. }
  rewrite (rint_comp _ _ E), rint_inject. ring.
Qed.

Lemma nearest_nonneg q : 0 <= q -> 0 <= XFloat.nearest q.
Proof.
  intros H. unfold XFloat.nearest. apply Qmult_le_0_compat.
  - change 0 with (inject_Z 0). rewrite <- Zle_Qle. apply rint_nonneg.
    unfold Qdiv. apply Qmult_le_0_compat; [assumption|].
    apply Qinv_le_0_compat, Qlt_le_weak, pow2_pos.
  - apply Qlt_le_weak, pow2_pos.
Qed.

(** The significand has at most 53 bits, and 53 exactly in the normal
    range. *)
Lemma significand_bounds q :
  0 < q ->
  (XFloat.rint (q / 2 ^ XFloat.quantum q) <= 2 ^ 53)%Z
  /\ ((-1074 < XFloat.quantum q)%Z -> (2 ^ 52 <= XFloat.rint (q / 2 ^ XFloat.quantum q))%Z).
Proof.
  intros Hq. destruct (quantum_spec q Hq) as [_ [H2 H3]]. split.
  - apply rint_le. rewrite pow2_inject by lia.
    apply Qle_shift_div_r; [apply pow2_pos|].
    rewrite <- pow2_plus. replace (53 + XFloat.quantum q)%Z with (XFloat.quantum q + 53)%Z by lia.
    lra.
  - intros Hs. apply rint_ge. rewrite pow2_inject by lia.
    apply Qle_shift_div_l; [apply pow2_pos|].
    rewrite <- pow2_plus. replace (52 + XFloat.quantum q)%Z with (XFloat.quantum q + 52)%Z by lia.
    now apply H3.
Qed.

Lemma nearest_mono a b : 0 <= a -> a <= b -> XFloat.nearest a <= XFloat.nearest b.
Proof.
  intros Ha Hab.
  destruct (Qlt_le_dec 0 a) as [Pa|Za].
  2:{ rewrite (nearest_zero a) by lra. apply nearest_nonneg. lra. }
  assert (0 < b) as Pb by lra.
  pose proof (quantum_mono a b Pa Hab) as Hs.
  destruct (significand_bounds a Pa) as [Ua _].
  destruct (significand_bounds b Pb) as [_ Lb].
  unfold XFloat.nearest.
  destruct (Z.eq_dec (XFloat.quantum a) (XFloat.quantum b)) as [E|E].
  - rewrite E. apply mul_pow2_le. rewrite <- Zle_Qle.
    apply rint_mono. now apply div_pow2_le.
  - assert (-1074 < XFloat.quantum b)%Z as Hn.
    { destruct (quantum_spec a Pa) as [H _]. lia. }
    specialize (Lb Hn).
    apply Qle_trans with (2 ^ (XFloat.quantum a + 53)).
    + rewrite (Z.add_comm (XFloat.quantum a)), pow2_plus.
      apply mul_pow2_le. rewrite <- (pow2_inject 53) by lia.
      now rewrite <- Zle_Qle.
    + apply Qle_trans with (2 ^ (XFloat.quantum b + 52)); [apply pow2_le; lia|].
      rewrite (Z.add_comm (XFloat.quantum b)), pow2_plus.
      apply mul_pow2_le. rewrite <- (pow2_inject 52) by lia.
      now rewrite <- Zle_Qle.
Qed.

(** A number with a significand of at most 53 bits on a grid of the format
    is a double. *)
Lemma nearest_fix r n s :
  0 < r -> r == inject_Z n * 2 ^ s -> (n <= 2 ^ 53)%Z -> (-1074 <= s)%Z ->
  XFloat.nearest r == r.
Proof.
  intros Hr Hrn Hn Hs.
  destruct (quantum_spec r Hr) as [Q1 [Q2 Q3]].
  set (s' := XFloat.quantum r) in *.
  assert (forall N, r / 2 ^ s' == inject_Z N -> XFloat.nearest r == r) as Hint.
  { intros N HN. unfold XFloat.nearest. fold s'.
    rewrite (rint_comp _ _ HN), rint_inject, <- HN. apply scaled. }
  destruct (Z_le_gt_dec s' s) as [Hle|Hgt].
  - apply (Hint (n * 2 ^ (s - s'))%Z).
    rewrite inject_Z_mult, pow2_inject by lia. rewrite Hrn, pow2_minus.
    field. apply Qpower_not_0. discriminate.
  - assert (2 ^ (s' + 52) <= r) as Hlow by (apply Q3; lia).
    assert (r <= 2 ^ (s + 53)) as Hup.
    { rewrite Hrn, (Z.add_comm s), pow2_plus. apply mul_pow2_le.
      rewrite <- (pow2_inject 53) by lia. now rewrite <- Zle_Qle. }
    assert (s' + 52 <= s + 53)%Z as Hss by (apply pow2_le_inv; lra).
    assert (s' = s + 1)%Z as Es by lia.
    apply (Hint (2 ^ 52)%Z). rewrite pow2_inject by lia.
    assert (r == 2 ^ (s + 53)) as Er.
    { apply Qle_antisym; [assumption|].
      replace (s + 53)%Z with (s' + 52)%Z by lia. assumption. }
    rewrite Er, Es. replace (s + 53)%Z with (52 + (s + 1))%Z by lia.
    rewrite pow2_plus. field. apply Qpower_not_0. discriminate.
Qed.

Lemma nearest_idem q : 0 <= q -> XFloat.nearest (XFloat.nearest q) == XFloat.nearest q.
Proof.
  intros Hq. destruct (Qlt_le_dec 0 q) as [Pq|Zq].
  2:{ assert (XFloat.nearest q == 0) as E by (apply nearest_zero; lra).
      rewrite E at 2. now apply nearest_zero. }
  pose proof (nearest_nonneg q Hq) as Hn.
  destruct (Qlt_le_dec 0 (XFloat.nearest q)) as [Pn|Zn].
  2:{ assert (XFloat.nearest q == 0) as E by lra.
      rewrite E at 2. now apply nearest_zero. }
  destruct (significand_bounds q Pq) as [Hu _].
  destruct (quantum_spec q Pq) as [Hs _].
  now apply (nearest_fix _ (XFloat.rint (q / 2 ^ XFloat.quantum q)) (XFloat.quantum q)).
Qed.

Lemma nearest_comp a b : 0 <= a -> a == b -> XFloat.nearest a == XFloat.nearest b.
Proof.
  intros Ha Hab. destruct (Qlt_le_dec 0 a) as [Pa|Za].
  - unfold XFloat.nearest. rewrite (quantum_comp a b Pa Hab).
    assert (a / 2 ^ XFloat.quantum b == b / 2 ^ XFloat.quantum b) as E by now rewrite Hab.
    now rewrite (rint_comp _ _ E).
  - rewrite (nearest_zero a), (nearest_zero b) by lra. reflexivity.
Qed.

(** A double at or below a number is at or below its rounding, and
    conversely. *)
Lemma nearest_lower h q :
  0 <= h -> XFloat.nearest h == h -> h <= q -> h <= XFloat.nearest q.
Proof. intros Hh Hf Hq. rewrite <- Hf. now apply nearest_mono. Qed.

Lemma nearest_upper c q :
  0 <= q -> XFloat.nearest c == c -> q <= c -> XFloat.nearest q <= c.
Proof. intros Hq Hf Hc. rewrite <- Hf. now apply nearest_mono. Qed.

(** *** Ratios *)

Lemma is_ratio_fin q :
  is_ratio (Fin q) = true
  <-> 0 <= q /\ XFloat.nearest q == q /\ q < 2 ^ 1024.
Proof.
  unfold is_ratio. rewrite !andb_true_iff, Qle_bool_iff, Qeq_bool_iff, Qltb_lt.
  tauto.
Qed.

Lemma is_ratio_nonneg x : is_ratio x = true -> xnonneg x.
Proof.
  destruct x as [| |q]; simpl; try tauto. intros H.
  now apply is_ratio_fin in H.
Qed.

Lemma binary64_cases q :
  0 <= q ->
  XFloat.binary64 q = Inf
  \/ XFloat.binary64 q = Fin (XFloat.nearest q) /\ XFloat.nearest q < 2 ^ 1024.
Proof.
  intros Hq. unfold XFloat.binary64. cbv zeta.
  pose proof (nearest_nonneg q Hq) as Hn.
  destruct (Qle_bool (2 ^ 1024) (Qabs (XFloat.nearest q))) eqn:E;
    [now left|right]. split; [reflexivity|].
  apply Qnot_le_lt. intros H. rewrite <- (Qabs_pos _ Hn) in H.
  apply Qle_bool_iff in H. congruence.
Qed.

Lemma binary64_ratio q : 0 <= q -> is_ratio (XFloat.binary64 q) = true.
Proof.
  intros Hq. destruct (binary64_cases q Hq) as [->|[-> Hlt]]; [reflexivity|].
  apply is_ratio_fin. split; [now apply nearest_nonneg|].
  split; [now apply nearest_idem|assumption].
Qed.


(** A result between 0 and a double is stored as a number between 0 and
    that double. *)
Lemma binary64_bounded q c :
  0 <= q <= c -> XFloat.nearest c == c -> c < 2 ^ 1024 ->
  exists r, XFloat.binary64 q = Fin r /\ 0 <= r <= c.
Proof.
  intros [Hq Hc] Hf Hlt.
  assert (XFloat.nearest q <= c) as Hu by now apply nearest_upper.
  destruct (binary64_cases q Hq) as [E|[E _]].
  - exfalso. unfold XFloat.binary64 in E. cbv zeta in E.
    destruct (Qle_bool (2 ^ 1024) (Qabs (XFloat.nearest q))) eqn:Eb;
      [|discriminate E].
    apply Qle_bool_iff in Eb.
    rewrite (Qabs_pos _ (nearest_nonneg q Hq)) in Eb. lra.
  - exists (XFloat.nearest q). split; [assumption|].
    split; [now apply nearest_nonneg|assumption].
Qed.

Lemma mul_ratio x c :
  xnonneg x -> 0 <= c -> is_ratio (XFloat.mul x c) = true.
Proof.
  destruct x as [| |q]; simpl; try reflexivity. intros Hq Hc.
  apply binary64_ratio. now apply Qmult_le_0_compat.
Qed.


Lemma round2_ratio x : xnonneg x -> is_ratio (XFloat.round2 x) = true.
Proof.
  intros Hx. unfold XFloat.round2.
  pose proof (mul_ratio x 100 Hx) as H.
  destruct (XFloat.mul x 100) as [| |y]; try reflexivity.
  assert (0 <= y) as Hy by (apply is_ratio_fin in H; [tauto|discriminate]).
  apply binary64_ratio. apply Qle_shift_div_l; [reflexivity|].
  rewrite Qmult_0_l. change 0 with (inject_Z 0). rewrite <- Zle_Qle.
  now apply rint_nonneg.
Qed.


Lemma div_counts_nonneg a b : xnonneg (XFloat.div_counts a b).
Proof.
  destruct b as [|b]; [now destruct a|]. apply is_ratio_nonneg.
  apply binary64_ratio. unfold Qle. simpl. lia.
Qed.

Lemma country_line_ratio now df k :
  is_ratio (stats_overdue_ratio (country_line now df k)) = true.
Proof.
  unfold country_line. cbn [stats_overdue_ratio].
  apply round2_ratio, is_ratio_nonneg, mul_ratio;
    [apply div_counts_nonneg|discriminate].
Qed.

Lemma country_line_nonneg now df k :
  xnonneg (stats_overdue_ratio (country_line now df k)).
Proof. apply is_ratio_nonneg, country_line_ratio. Qed.

Lemma country_overdue_ratios now df :
  Forall (fun l => is_ratio (stats_overdue_ratio l) = true)
         (country_overdue now df).
Proof.
  unfold country_overdue. apply Forall_forall. intros l Hl.
  apply in_map_iff in Hl as [k [<- _]]. apply country_line_ratio.
Qed.

(** *** Order, maximum and the first label *)

Lemma xgt_lt a b : XFloat.gt a b = true <-> xlt b a.
Proof.
  destruct a as [| |x], b as [| |y]; simpl; try (split; [discriminate|tauto]).
  - tauto.
  - apply Qltb_lt.
Qed.

Lemma xlt_trans a b c : xlt a b -> xlt b c -> xlt a c.
Proof.
  destruct a as [| |x], b as [| |y], c as [| |z]; simpl; try tauto.
  apply Qlt_trans.
Qed.

Lemma xlt_irrefl a : ~ xlt a a.
Proof. destruct a as [| |x]; simpl; try tauto. apply Qlt_irrefl. Qed.

Lemma xeq_refl a : XFloat.isnan a = false -> xeq a a.
Proof. destruct a as [| |x]; simpl; try easy. Qed.

Lemma xeq_notnan a b : xeq a b -> XFloat.isnan a = false.
Proof. destruct a as [| |x], b as [| |y]; simpl; tauto. Qed.

Lemma xleb_both a b :
  XFloat.leb a b && XFloat.leb b a = true <-> xeq a b.
Proof.
  destruct a as [| |x], b as [| |y]; simpl;
    try (split; [discriminate|tauto]); try tauto.
  rewrite andb_true_iff, !Qle_bool_iff. split.
  - intros [H1 H2]. now apply Qle_antisym.
  - intros H. rewrite H. split; apply Qle_refl.
Qed.

Lemma xmax_in col : XFloat.max col = NaN \/ In (XFloat.max col) col.
Proof.
  unfold XFloat.max.
  assert (forall l, fold_right
            (fun x m => if XFloat.isnan m then x else if XFloat.gt x m then x else m)
            NaN l = NaN
          \/ In (fold_right
            (fun x m => if XFloat.isnan m then x else if XFloat.gt x m then x else m)
            NaN l) l) as H.
  { induction l as [|x l IH]; simpl; [now left|].
    destruct (XFloat.isnan _); [right; now left|].
    destruct (XFloat.gt _ _); [right; now left|].
    destruct IH as [IH|IH]; [now left|right; now right]. }
  destruct (H (XFloat.dropna col)) as [Hn|Hi]; [now left|right].
  unfold XFloat.dropna in Hi. now apply filter_In in Hi as [Hi _].
Qed.

(** [Series.max()] is a number as soon as the column has one, and no ratio
    of the column is above it. *)
Lemma xmax_spec col :
  ((exists x, In x col /\ XFloat.isnan x = false) ->
   XFloat.isnan (XFloat.max col) = false)
  /\ forall x, In x col -> ~ xlt (XFloat.max col) x.
Proof.
  set (f := fun (x m : xfloat) =>
              if XFloat.isnan m then x else if XFloat.gt x m then x else m).
  assert (forall l, (forall y, In y l -> XFloat.isnan y = false) ->
            (l <> [] -> XFloat.isnan (fold_right f NaN l) = false)
            /\ forall y, In y l -> ~ xlt (fold_right f NaN l) y) as Hfold.
  { induction l as [|x l IH]; intros Hnn; [split; [congruence|intros y []]|].
    destruct IH as [IHn IHu]; [intros y Hy; apply Hnn; now right|].
    assert (XFloat.isnan x = false) as Hxn by (apply Hnn; now left).
    simpl. unfold f at 1 3.
    destruct (XFloat.isnan (fold_right f NaN l)) eqn:En.
    - assert (l = []) as ->.
      { destruct l; [reflexivity|]. exfalso.
        assert (true = false) as Hf by (apply IHn; discriminate).
        discriminate Hf. }
      split; [intros _; assumption|]. intros y [<-|[]]. apply xlt_irrefl.
    - destruct (XFloat.gt x (fold_right f NaN l)) eqn:Eg.
      + split; [intros _; assumption|]. intros y [<-|Hy]; [apply xlt_irrefl|].
        intros Hxy. apply (IHu y Hy). apply xgt_lt in Eg.
        now apply (xlt_trans _ x).
      + split; [intros _; assumption|]. intros y [<-|Hy]; [|now apply IHu].
        intros Hlt. apply xgt_lt in Hlt. congruence. }
  assert (forall y, In y (XFloat.dropna col) -> XFloat.isnan y = false) as Hnn.
  { intros y Hy. apply filter_In in Hy as [_ Hy]. now apply negb_true_iff. }
  destruct (Hfold _ Hnn) as [H1 H2]. split.
  - intros [x [Hx Hxn]]. apply H1. intros E.
    assert (In x (XFloat.dropna col)) as Hd
      by (apply filter_In; split; [assumption|now rewrite Hxn]).
    rewrite E in Hd. destruct Hd.
  - intros x Hx. destruct (XFloat.isnan x) eqn:Ex.
    + destruct x; try discriminate. now destruct (XFloat.max col).
    + apply H2. apply filter_In. split; [assumption|now rewrite Ex].
Qed.

Lemma xmax_upper col x : In x col -> ~ xlt (XFloat.max col) x.
Proof. apply xmax_spec. Qed.

Lemma xmax_nan col :
  XFloat.max col = NaN -> Forall (fun x => x = NaN) col.
Proof.
  intros H. apply Forall_forall. intros x Hx.
  destruct (XFloat.isnan x) eqn:E; [now destruct x|].
  destruct (xmax_spec col) as [Hn _].
  rewrite H in Hn. discriminate Hn. now exists x.
Qed.

(** [first_label] gives the country of the first line whose ratio is the
    one looked for, and nothing when no line has it. *)
Lemma first_label_spec m t :
  match first_label m t with
  | Some c =>
    exists before l after,
      t = before ++ l :: after
      /\ stats_country l = c
      /\ xeq m (stats_overdue_ratio l)
      /\ Forall (fun l' => ~ xeq m (stats_overdue_ratio l')) before
  | None => Forall (fun l => ~ xeq m (stats_overdue_ratio l)) t
  end.
Proof.
  induction t as [|l t IH]; simpl; [constructor|].
  destruct (XFloat.leb m (stats_overdue_ratio l)
            && XFloat.leb (stats_overdue_ratio l) m) eqn:E.
  - exists [], l, t. repeat split; [now apply xleb_both|constructor].
  - assert (~ xeq m (stats_overdue_ratio l)) as Hne.
    { intros H. apply xleb_both in H. congruence. }
    destruct (first_label m t) as [c|].
    + destruct IH as [before [l' [after [-> [Hc [He Hb]]]]]].
      exists (l :: before), l', after. repeat split; try assumption.
      now constructor.
    + now constructor.
Qed.

(** [idxmax] fails on a column of NaN only. *)
Lemma idxmax_none t :
  idxmax t = None -> Forall (fun x => x = NaN) (map stats_overdue_ratio t).
Proof.
  unfold idxmax. intros H.
  pose proof (first_label_spec (XFloat.max (map stats_overdue_ratio t)) t) as S.
  rewrite H in S.
  destruct (xmax_in (map stats_overdue_ratio t)) as [E|Hin];
    [now apply xmax_nan|].
  destruct (XFloat.isnan (XFloat.max (map stats_overdue_ratio t))) eqn:En.
  - apply xmax_nan. now destruct (XFloat.max _).
  - exfalso. apply in_map_iff in Hin as [l [Hl Hin]].
    rewrite Forall_forall in S. apply (S l Hin). rewrite Hl.
    now apply xeq_refl.
Qed.

(** *** The verdict *)

(** A largest ratio equal to the median is not above the median, and not
    above the rounded product either, which is no smaller than the median. *)
Lemma classify_equal hi med :
  is_ratio hi = true -> xeq hi med -> classify hi med = NotConfirmed.
Proof.
  unfold classify. intros Hr He.
  destruct hi as [| |h], med as [| |m]; cbn [xeq] in He;
    try (exfalso; exact He); try reflexivity.
  apply is_ratio_fin in Hr as [Hh [Hf _]].
  cbn [XFloat.mul].
  assert (XFloat.gt (Fin h) (Fin m) = false) as H2
    by (cbn [XFloat.gt]; apply Qltb_ge; lra).
  assert (XFloat.gt (Fin h) (XFloat.binary64 (m * 1.5)) = false) as H1.
  { assert (0 <= m * 1.5) as Hp by lra.
    destruct (binary64_cases _ Hp) as [->|[-> _]]; [reflexivity|].
    cbn [XFloat.gt]. apply Qltb_ge. apply nearest_lower; try assumption.
    lra. }
  now rewrite H1, H2.
Qed.

(** A confirmed hypothesis has a largest ratio above one and a half times
    the median, as numbers. *)
Lemma classify_confirmed h m :
  is_ratio (Fin h) = true ->
  classify (Fin h) (Fin m) = Confirmed -> m * 1.5 < h.
Proof.
  intros Hr. apply is_ratio_fin in Hr as [Hh [Hf _]].
  unfold classify. cbn [XFloat.mul].
  destruct (XFloat.gt (Fin h) (XFloat.binary64 (m * 1.5))) eqn:E.
  - intros _. apply Qnot_le_lt. intros Hle.
    unfold XFloat.binary64 in E. cbv zeta in E.
    destruct (Qle_bool (2 ^ 1024) (Qabs (XFloat.nearest (m * 1.5))));
      [discriminate E|].
    cbn [XFloat.gt] in E. apply Qltb_lt in E.
    assert (h <= XFloat.nearest (m * 1.5)) by now apply nearest_lower.
    lra.
  - destruct (XFloat.gt (Fin h) (Fin m)); discriminate.
Qed.

Lemma hypothesis_verdict_lines t :
  t <> [] ->
  hypothesis_verdict t
  = match idxmax t with
    | None => Raised
    | Some c =>
      Reported {| highest_risk_country := c;
                  highest_risk_ratio :=
                    XFloat.max (map stats_overdue_ratio t);
                  median_ratio := XFloat.median (map stats_overdue_ratio t);
                  outcome :=
                    classify (XFloat.max (map stats_overdue_ratio t))
                             (XFloat.median (map stats_overdue_ratio t)) |}
    end.
Proof. destruct t; [congruence|reflexivity]. Qed.

(** C9, as the program has it.  On a table of countries whose ratios are
    doubles that are not negative, the check gives no message when the
    table is empty and fails, in [idxmax], when no country has a ratio
    that is a number.  Otherwise it takes the first country whose ratio
    is the largest, and the median of the ratios.  The verdict is
    "confirmed" exactly when the largest ratio is strictly above the
    product of the median and 1.5 as the program computes it, rounded to
    the nearest double; "partially confirmed" exactly when it is strictly
    above the median without being above that product; and
    "not confirmed" in every other case.  A largest ratio equal to the
    median gives "not confirmed", and a confirmed hypothesis has a
    largest ratio above 1.5 times the median as numbers. *)
Theorem hypothesis_check_thresholds (country_overdue : list country_stats) :
  Forall (fun l => is_ratio (stats_overdue_ratio l) = true) country_overdue ->
  let ratios := map stats_overdue_ratio country_overdue in
  match hypothesis_verdict country_overdue with
  | NotReported => country_overdue = []
  | Raised => country_overdue <> [] /\ Forall (fun x => x = NaN) ratios
  | Reported res =>
    let highest := highest_risk_ratio res in
    let med := median_ratio res in
    highest = XFloat.max ratios
    /\ XFloat.isnan highest = false
    /\ (forall x, In x ratios -> ~ xlt highest x)
    /\ (exists before l after,
          country_overdue = before ++ l :: after
          /\ stats_country l = highest_risk_country res
          /\ xeq highest (stats_overdue_ratio l)
          /\ Forall (fun l' => ~ xeq highest (stats_overdue_ratio l')) before)
    /\ med = XFloat.median ratios
    /\ (outcome res = Confirmed <-> xlt (XFloat.mul med 1.5) highest)
    /\ (outcome res = PartiallyConfirmed <->
        xlt med highest /\ ~ xlt (XFloat.mul med 1.5) highest)
    /\ (outcome res = NotConfirmed <->
        ~ xlt med highest /\ ~ xlt (XFloat.mul med 1.5) highest)
    /\ (xeq highest med -> outcome res = NotConfirmed)
    /\ (forall h m, highest = Fin h -> med = Fin m ->
        outcome res = Confirmed -> m * 1.5 < h)
  end.
Proof.
  intros Hr ratios.
  destruct country_overdue as [|l0 t0]; [reflexivity|].
  set (t := l0 :: t0) in *.
  assert (t <> []) as Hne by discriminate.
  rewrite (hypothesis_verdict_lines _ Hne). fold ratios.
  pose proof (first_label_spec (XFloat.max (map stats_overdue_ratio t)) t)
    as S.
  fold (idxmax t) in S.
  destruct (idxmax t) as [c|] eqn:Ei.
  2:{ split; [assumption|]. now apply idxmax_none. }
  cbn [highest_risk_ratio median_ratio outcome highest_risk_country].
  set (highest := XFloat.max ratios) in *.
  set (med := XFloat.median ratios).
  destruct S as [before [l [after [Hsplit [Hc [He Hb]]]]]].
  assert (XFloat.isnan highest = false) as Hnn
    by exact (xeq_notnan _ _ He).
  assert (is_ratio highest = true) as Hhr.
  { destruct (xmax_in ratios) as [E|Hin].
    - fold highest in E. rewrite E in Hnn. discriminate Hnn.
    - fold highest in Hin. apply in_map_iff in Hin as [l' [<- Hl']].
      rewrite Forall_forall in Hr. now apply Hr. }
  split; [reflexivity|]. split; [assumption|].
  split; [apply xmax_upper|].
  split; [exists before, l, after; repeat split; assumption|].
  split; [reflexivity|].
  assert (XFloat.gt highest (XFloat.mul med 1.5) = true
          <-> xlt (XFloat.mul med 1.5) highest) as H1 by apply xgt_lt.
  assert (XFloat.gt highest med = true <-> xlt med highest) as H2
    by apply xgt_lt.
  assert (xeq highest med -> classify highest med = NotConfirmed) as H3
    by now apply classify_equal.
  assert (forall h m, highest = Fin h -> med = Fin m ->
            classify highest med = Confirmed -> m * 1.5 < h) as H4.
  { intros h m Eh Em. rewrite Eh, Em in *. now apply classify_confirmed. }
  split; [|split; [|split; [|split; [exact H3|exact H4]]]].
  all: clear H3 H4; unfold classify;
    destruct (XFloat.gt highest (XFloat.mul med 1.5)) eqn:E1;
    destruct (XFloat.gt highest med) eqn:E2;
    split; intros; try discriminate; try (intuition congruence);
    exfalso; intuition congruence.
Qed.

(** ** C10: cleaning what is already clean *)

Lemma is_space_true c :
  is_space c = true ->
  (c <= 32 \/ c = 133 \/ c = 160 \/ 5760 <= c)%N.
Proof.
  unfold is_space.
  rewrite !orb_true_iff, !andb_true_iff, !N.leb_le, !N.eqb_eq. lia.
Qed.

Lemma lower_cp_fixed c :
  (~ 65 <= c <= 90 -> ~ 192 <= c <= 222 -> ~ 1024 <= c <= 1071 ->
   lower_cp c = c)%N.
Proof.
  intros H1 H2 H3. unfold lower_cp.
  destruct (N.leb_spec 65 c), (N.leb_spec c 90); cbn [andb]; try lia.
  all: destruct (N.leb_spec 192 c), (N.leb_spec c 222); cbn [andb]; try lia.
  all: destruct (N.leb_spec 1040 c), (N.leb_spec c 1071); cbn [andb]; try lia.
  all: destruct (N.leb_spec 1024 c), (N.leb_spec c 1039); cbn [andb]; lia.
Qed.

Lemma lower_cp_idem c : lower_cp (lower_cp c) = lower_cp c.
Proof.
  destruct (lower_cp_cases c) as [E|[[-> H]|[-> H]]];
    [now rewrite !E| |]; apply lower_cp_fixed; lia.
Qed.

Lemma lower_cp_space c : is_space (lower_cp c) = is_space c.
Proof.
  destruct (lower_cp_cases c) as [->|[[E H]|[E H]]]; [reflexivity| |].
  all: destruct (is_space (lower_cp c)) eqn:E1, (is_space c) eqn:E2;
    try reflexivity; exfalso.
  all: try (apply is_space_true in E1; rewrite E in E1).
  all: try (apply is_space_true in E2).
  all: try lia.
  all: clear E1; unfold is_space in E2;
    rewrite !orb_false_iff, !andb_false_iff, !N.leb_gt, !N.eqb_neq in E2; lia.
Qed.

Lemma lower_idem s : lower (lower s) = lower s.
Proof.
  unfold lower. rewrite map_map. apply map_ext. apply lower_cp_idem.
Qed.

Lemma lstrip_lower s : lstrip (lower s) = lower (lstrip s).
Proof.
  induction s as [|c s IH]; [reflexivity|].
  simpl. rewrite lower_cp_space. now destruct (is_space c).
Qed.

Lemma strip_lower s : strip (lower s) = lower (strip s).
Proof.
  unfold strip, rstrip. rewrite lstrip_lower. unfold lower at 1.
  rewrite <- map_rev. fold (lower (rev (lstrip s))).
  rewrite lstrip_lower. unfold lower. now rewrite map_rev.
Qed.

Lemma lstrip_idem s : lstrip (lstrip s) = lstrip s.
Proof.
  induction s as [|c s IH]; [reflexivity|].
  simpl. destruct (is_space c) eqn:E; [assumption|].
  simpl. now rewrite E.
Qed.

Lemma lstrip_snoc l c :
  is_space c = false -> lstrip (l ++ [c]) = lstrip l ++ [c].
Proof.
  intros Hc. induction l as [|x l IH]; simpl; [now rewrite Hc|].
  now destruct (is_space x).
Qed.

Lemma lstrip_rstrip s : lstrip (rstrip (lstrip s)) = rstrip (lstrip s).
Proof.
  assert (forall t, lstrip t = t -> lstrip (rstrip t) = rstrip t) as H.
  { intros [|c t] Ht; [reflexivity|].
    simpl in Ht. destruct (is_space c) eqn:E.
    - exfalso. assert (List.length (lstrip t) <= List.length t)%nat as Hl.
      { clear. induction t as [|x t IH]; simpl; [lia|].
        destruct (is_space x); simpl; lia. }
      rewrite Ht in Hl. simpl in Hl. lia.
    - unfold rstrip. simpl rev. rewrite (lstrip_snoc _ _ E), rev_app_distr.
      simpl. now rewrite E. }
  apply H, lstrip_idem.
Qed.

Lemma strip_idem s : strip (strip s) = strip s.
Proof.
  unfold strip. rewrite lstrip_rstrip. unfold rstrip.
  now rewrite rev_involutive, lstrip_idem.
Qed.

(** Trimming and lower-casing a second time changes nothing. *)
Lemma lower_strip_idem s : lower (strip (lower (strip s))) = lower (strip s).
Proof. now rewrite strip_lower, strip_idem, lower_idem. Qed.

Lemma drop_duplicates_from_fresh_keys {D A S} seen (l : list (row D A S)) :
  fresh_keys seen (map invoice_id (drop_duplicates_from seen l)).
Proof.
  revert seen. induction l as [|r l IH]; intros seen; simpl; [exact I|].
  destruct (existsb (key_eqb (invoice_id r)) seen) eqn:E; [apply IH|].
  simpl. split; [assumption|apply IH].
Qed.

Lemma drop_duplicates_from_distinct {D A S} seen (l : list (row D A S)) :
  fresh_keys seen (map invoice_id l) -> drop_duplicates_from seen l = l.
Proof.
  revert seen. induction l as [|r l IH]; intros seen; simpl; [reflexivity|].
  intros [E H]. rewrite E. f_equal. now apply IH.
Qed.


(** *** The header *)

Lemma lookup_value k d v : lookup k d = Some v -> In v (map snd d).
Proof.
  induction d as [|[k' v'] d IH]; simpl; [discriminate|].
  destruct (Text.eqb k k'); [intros [= ->]; now left|].
  intros H. right. now apply IH.
Qed.

(** No canonical name is a header of the export. *)
Lemma rename_column_idem c : rename_column (rename_column c) = rename_column c.
Proof.
  unfold rename_column at 2 3. destruct (lookup c new_columns) as [v|] eqn:E.
  - apply lookup_value in E. simpl in E.
    repeat (destruct E as [<-|E]; [reflexivity|]). destruct E.
  - unfold rename_column. now rewrite E.
Qed.

(** The header of the export gets the canonical names. *)
Lemma rename_export_header :
  rename (map fst new_columns) = map snd new_columns.
Proof. reflexivity. Qed.

Lemma rename_idem h : rename (rename h) = rename h.
Proof.
  unfold rename. rewrite map_map. apply map_ext. apply rename_column_idem.
Qed.



Lemma mem_set_column c h : Text.mem c (set_column c h) = true.
Proof.
  unfold set_column. destruct (Text.mem c h) eqn:E; [assumption|].
  unfold Text.mem. rewrite existsb_app. simpl.
  now rewrite str_eqb_refl, orb_true_r.
Qed.







Section Idempotence.

Variable to_datetime_str : str -> option Z.
Variable float_repr : Q -> str.






End Idempotence.



(** * The properties on the example tables *)

(** The upload of the examples, scored: the duplicate of INV-1 is gone, the
    missing cross rates are 90, the first invoice scores 100. *)
Lemma run_upload :
  rows (Example.run Example.upload)
  = [ Example.scored_as Example.upload Example.nile (Some 90);
      Example.scored_as Example.upload Example.bosphorus (Some 90);
      Example.scored_as Example.upload Example.marmara (Some 90);
      Example.scored_as Example.upload Example.delta (Some 90) ].
Proof. reflexivity. Qed.



(** C3 on the examples: the first invoice of the upload. *)
Lemma risk_score_formula_witness :
  invoice_date (Example.clean Example.nile (Some 90)) = Some (55 * day)%Z
  /\ ((normalize_ts Example.clock - 55 * day) / day = 45)%Z
  /\ calculate_risk_score Example.clock Example.batch
       (Example.clean Example.nile (Some 90)) = 100%Z.
Proof.
  split; [reflexivity|]. split; [reflexivity|].
  apply (proj2 (risk_score_formula Example.clock Example.batch
                  (Example.clean Example.nile (Some 90))) (55 * day)%Z);
    reflexivity.
Defined.

(** C4 on the examples: INV-2 is met for the first time and stays; the
    second INV-1 is dropped; so is the second record without a number. *)
Lemma drop_duplicates_keeps_first_witness :
  (exists out2,
     drop_duplicates (rows Example.upload)
     = drop_duplicates [Example.nile] ++ Example.bosphorus :: out2
     /\ existsb (key_eqb (invoice_id Example.bosphorus))
                (map invoice_id (drop_duplicates [Example.nile] ++ out2))
        = false)
  /\ drop_duplicates (rows Example.upload)
     = drop_duplicates [Example.nile; Example.bosphorus; Example.marmara;
                        Example.delta]
  /\ drop_duplicates (rows Example.roubles) = drop_duplicates [Example.volga].
Proof.
  split; [|split].
  - apply (proj1 (drop_duplicates_keeps_first [Example.nile]
                    [Example.nile_again; Example.marmara; Example.delta]
                    Example.bosphorus)).
    reflexivity.
  - apply (proj1 (proj2 (drop_duplicates_keeps_first
                           [Example.nile; Example.bosphorus]
                           [Example.marmara; Example.delta]
                           Example.nile_again))).
    reflexivity.
  - apply (proj2 (proj2 (drop_duplicates_keeps_first
                           [Example.volga] [] Example.kama)));
      [reflexivity|].
    exists Example.volga. split; [now left|reflexivity].
Defined.

(** The claim of C4 fails on two records without an invoice number: the
    second one does not survive. *)
Lemma null_keys_counterexample :
  invoice_id Example.kama = Null
  /\ In Example.kama (rows Example.roubles)
  /\ ~ In Example.kama (drop_duplicates (rows Example.roubles)).
Proof.
  split; [reflexivity|]. split; [right; now left|].
  intros [H|[]]. discriminate H.
Qed.

(** C5 on the examples: the rouble invoice keeps its amount, the dollar
    invoice is multiplied by its cross rate. *)
Lemma amount_rub_conversion_witness :
  let usd := Example.scored_as Example.upload Example.nile (Some 90) in
  let rub := Example.scored_as Example.upload Example.bosphorus (Some 90) in
  invoice_currency rub = reporting_currency
  /\ amount_rub rub = invoice_amount rub
  /\ invoice_currency usd <> reporting_currency
  /\ amount_rub usd = fmul (invoice_amount usd) (cross_rate usd).
Proof.
  intros usd rub.
  pose proof (amount_rub_conversion Example.no_text_dates Example.cents_repr
                Example.clock Example.upload) as H.
  fold Example.run in H. rewrite run_upload in H.
  pose proof (Forall_inv H) as Husd.
  pose proof (Forall_inv (Forall_inv_tail H)) as Hrub.
  fold usd in Husd. fold rub in Hrub.
  assert (invoice_currency rub = reporting_currency) as Er by reflexivity.
  assert (invoice_currency usd <> reporting_currency) as Eu by discriminate.
  split; [exact Er|]. split; [exact (proj1 Hrub Er)|].
  split; [exact Eu|]. exact (proj1 (proj2 Husd) Eu).
Defined.

(** C6 on the examples: the unreadable amount of INV-4 gives a null
    converted amount, and the totals do not see it. *)
Lemma null_amount_propagates_witness :
  let last := Example.scored_as Example.upload Example.delta (Some 90) in
  let df1 :=
    [ Example.scored_as Example.upload Example.nile (Some 90);
      Example.scored_as Example.upload Example.bosphorus (Some 90);
      Example.scored_as Example.upload Example.marmara (Some 90) ] in
  invoice_amount last = None
  /\ amount_rub last = None
  /\ total_amount (rows (Example.run Example.upload)) = total_amount df1
  /\ total_expected (rows (Example.run Example.upload)) = total_expected df1
  /\ total_overdue Example.clock (rows (Example.run Example.upload))
     = total_overdue Example.clock df1.
Proof.
  intros last df1.
  destruct (null_amount_propagates Example.no_text_dates Example.cents_repr
              Example.clock Example.upload) as [Hrows Hsums].
  fold Example.run in Hrows. rewrite run_upload in Hrows.
  pose proof (Forall_inv (Forall_inv_tail (Forall_inv_tail
                (Forall_inv_tail Hrows)))) as Hlast.
  fold last in Hlast.
  assert (invoice_amount last = None) as E by reflexivity.
  split; [exact E|]. split; [exact (proj1 Hlast E)|].
  destruct (Hsums Example.clock df1 [] last eq_refl) as [He [Ho [Ha _]]].
  rewrite run_upload.
  split; [exact Ha|]. split; [exact He|exact Ho].
Defined.

(** The claim of C6 fails on a rouble invoice without a cross rate: its
    converted amount is its own amount, not null. *)
Lemma null_rate_counterexample :
  ~ Forall (fun r : scored =>
              invoice_amount r = None \/ cross_rate r = None ->
              amount_rub r = None)
           (rows (Example.run Example.roubles)).
Proof.
  intros H. apply Forall_inv in H.
  assert (Some 1000 = @None Q) as E; [|discriminate E].
  apply H. right. reflexivity.
Qed.

(** C7 on the examples: "UsD" after an amount is removed like "usd"; a tab
    inside an amount stays. *)
Lemma clean_amount_reads_formatted_text_witness :
  strip_amount (utf8 "5 " ++ utf8 "UsD" ++ utf8 "$")
  = strip_amount (utf8 "5 " ++ utf8 "$")
  /\ In 9%N (strip_amount Example.tabbed).
Proof.
  destruct (clean_amount_reads_formatted_text Example.cents_repr)
    as [_ [_ [_ [Husd [Hspace _]]]]].
  split.
  - apply Husd; [|reflexivity|reflexivity].
    intros c [<-|[<-|[]]]; reflexivity.
  - apply Hspace; [right; now left|reflexivity|discriminate].
Defined.

(** The claim of C7 fails on an amount written with a tab: the tab is
    whitespace, it is still there after the replacements, and the amount
    does not parse. *)
Lemma tab_counterexample :
  ~ Forall (fun c => is_space c = false) (strip_amount Example.tabbed)
  /\ clean_amount Example.cents_repr (Str Example.tabbed) = None.
Proof.
  split; [|reflexivity].
  intros H. apply Forall_inv_tail, Forall_inv in H. discriminate H.
Qed.

(** C8 on the examples: the ratio of the upload, and the ratio of the
    credit note, whose total is negative. *)
Lemma overdue_ratio_guarded_witness :
  let df := rows (Example.run Example.upload) in
  let cn := rows (Example.run Example.credit_note) in
  (0 < total_amount df)%Q
  /\ overdue_ratio Example.clock df
     = Some (total_overdue Example.clock df / total_amount df * 100)
  /\ (total_amount cn <= 0)%Q
  /\ overdue_ratio Example.clock cn = Some 0.
Proof.
  intros df cn.
  assert (0 < total_amount df)%Q as Hpos by reflexivity.
  assert (total_amount cn <= 0)%Q as Hneg by discriminate.
  split; [exact Hpos|].
  split; [exact (proj1 (overdue_ratio_guarded Example.clock df) Hpos)|].
  split; [exact Hneg|].
  exact (proj1 (proj2 (overdue_ratio_guarded Example.clock cn)) Hneg).
Defined.

(** The claim of C8 fails on the credit note: the total is not zero, and the
    ratio is 0 where the quotient is 100. *)
Lemma negative_total_counterexample :
  let df_filtered :=
    apply_filters 50 None None (rows (Example.run Example.credit_note)) in
  ~ (total_amount df_filtered == 0)%Q
  /\ overdue_ratio Example.clock df_filtered = Some 0
  /\ ~ (0 == total_overdue Example.clock df_filtered
             / total_amount df_filtered * 100)%Q.
Proof.
  intros df_filtered. split; [discriminate|]. split; [reflexivity|].
  discriminate.
Qed.

(** C9 on the examples.  With 9 of 14, 3 of 7 and none of 1 invoices
    overdue in three countries, the largest share is the double next to
    64.29 and the median the double next to 42.86; the product of the
    median and 1.5 is rounded to a double below the largest share, and the
    hypothesis is confirmed. *)
Lemma hypothesis_check_thresholds_witness :
  exists res,
    hypothesis_check Example.clock (rows (Example.run Example.shares_64_43))
    = Reported res
    /\ highest_risk_country res = utf8 "египет"
    /\ xeq (highest_risk_ratio res) (XFloat.binary64 64.29)
    /\ xeq (median_ratio res) (XFloat.binary64 42.86)
    /\ xlt (XFloat.mul (median_ratio res) 1.5) (highest_risk_ratio res)
    /\ outcome res = Confirmed.
Proof.
  unfold hypothesis_check.
  pose proof (hypothesis_check_thresholds
                (country_overdue Example.clock
                   (rows (Example.run Example.shares_64_43)))
                (country_overdue_ratios _ _)) as T.
  cbv zeta in T.
  destruct (hypothesis_verdict
              (country_overdue Example.clock
                 (rows (Example.run Example.shares_64_43))))
    as [res| |] eqn:E; vm_compute in E; try discriminate E.
  injection E as <-. eexists. split; [reflexivity|].
  destruct T as [_ [_ [_ [_ [_ [Hc _]]]]]].
  split; [reflexivity|].
  split; [vm_compute; reflexivity|]. split; [vm_compute; reflexivity|].
  match goal with
  | |- ?A /\ _ => assert A as Hlt by (vm_compute; reflexivity)
  end.
  split; [exact Hlt|]. exact (proj2 Hc Hlt).
Defined.

(** The claim compares the largest ratio with 1.5 times the median as
    numbers, and promises a verdict for every table.
    - With 1 of 11, 2 of 33 and none of 1 invoices overdue, the largest
      share, the double next to 9.09, is strictly above 1.5 times the
      median, the double next to 6.06; but the product is rounded up to
      the largest share itself, and the hypothesis is not "confirmed".
    - With 9 of 14, 3 of 7 and none of 1 invoices overdue, the shares to
      two decimals are 64.29 and 42.86, and 64.29 is 1.5 times 42.86, not
      more; but the product of the stored median is rounded below the
      stored largest share, and the hypothesis is "confirmed".
    - With one paid invoice without a number, the only ratio is none over
      none, [idxmax] raises, and there is no verdict. *)
Lemma rounded_product_counterexample :
  (exists res h m,
     hypothesis_check Example.clock (rows (Example.run Example.shares_9_6))
     = Reported res
     /\ highest_risk_ratio res = Fin h
     /\ median_ratio res = Fin m
     /\ (m * 1.5 < h)%Q
     /\ outcome res = PartiallyConfirmed)
  /\ (exists res,
        hypothesis_check Example.clock
          (rows (Example.run Example.shares_64_43))
        = Reported res
        /\ xeq (highest_risk_ratio res) (XFloat.binary64 64.29)
        /\ xeq (median_ratio res) (XFloat.binary64 42.86)
        /\ (42.86 * 1.5 == 64.29)%Q
        /\ outcome res = Confirmed)
  /\ hypothesis_check Example.clock
       (rows (Example.run Example.paid_unnumbered))
     = Raised.
Proof.
  split; [|split].
  - eexists. eexists. eexists.
    split; [vm_compute; reflexivity|].
    split; [reflexivity|]. split; [reflexivity|].
    split; reflexivity.
  - eexists. split; [vm_compute; reflexivity|].
    split; [vm_compute; reflexivity|]. split; [vm_compute; reflexivity|].
    split; reflexivity.
  - reflexivity.
Qed.


(** * Further properties of the program *)

(** ** Deduplication and the log *)

Lemma fresh_keys_pairs seen ks :
  fresh_keys seen ks ->
  ForallOrdPairs (fun a b => key_eqb a b = false) ks
  /\ forall k, In k ks -> existsb (key_eqb k) seen = false.
Proof.
  revert seen. induction ks as [|k ks IH]; intros seen; simpl.
  - intros _. split; [constructor|intros k []].
  - intros [Hk Hks]. destruct (IH _ Hks) as [Hp Hs]. split.
    + constructor; [|assumption]. apply Forall_forall. intros k' Hk'.
      specialize (Hs k' Hk'). simpl in Hs.
      apply orb_false_elim in Hs as [Hs _]. now rewrite key_eqb_sym.
    + intros k' [<-|Hk']; [assumption|].
      specialize (Hs k' Hk'). simpl in Hs.
      now apply orb_false_elim in Hs as [_ Hs].
Qed.

Lemma pairs_fresh_keys seen ks :
  ForallOrdPairs (fun a b => key_eqb a b = false) ks ->
  (forall k, In k ks -> existsb (key_eqb k) seen = false) ->
  fresh_keys seen ks.
Proof.
  intros Hp. revert seen. induction Hp as [|k ks Hk Hp IH]; intros seen Hs.
  - exact I.
  - simpl. split; [apply Hs; now left|]. apply IH. intros k' Hk'. simpl.
    rewrite Forall_forall in Hk. rewrite key_eqb_sym, (Hk k' Hk'). simpl.
    apply Hs. now right.
Qed.

(** The rows that stay and the rows that are marked make up the table. *)
Lemma drop_duplicates_from_count {D A S} seen (l : list (row D A S)) :
  (List.length (drop_duplicates_from seen l)
   + count_true (duplicated_from seen l) = List.length l)%nat.
Proof.
  unfold count_true. revert seen.
  induction l as [|r l IH]; intros seen; simpl; [reflexivity|].
  destruct (existsb (key_eqb (invoice_id r)) seen); simpl.
  - specialize (IH seen). lia.
  - specialize (IH (invoice_id r :: seen)). lia.
Qed.

(** X1. The cleaned table has no two rows with the same [invoice_id], the
    missing key counted as a key. *)
Theorem cleaned_keys_distinct to_datetime_str float_repr df :
  ForallOrdPairs (fun a b => key_eqb a b = false)
    (map (fun r : invoice => invoice_id r)
         (rows (clean_data to_datetime_str float_repr df))).
Proof.
  unfold clean_data. cbn [rows]. rewrite map_map. cbn [invoice_id clean_record].
  change (map (fun x : raw_record => invoice_id x) (drop_duplicates (rows df)))
    with (map invoice_id (drop_duplicates (rows df))).
  apply (fresh_keys_pairs []). apply drop_duplicates_from_fresh_keys.
Qed.

(** X2. No invoice number is lost: the key of every row of the upload is the
    key of a row of the cleaned table, and the cleaned table is never
    longer than the upload. *)
Theorem cleaned_keys_complete to_datetime_str float_repr df :
  (forall r, In r (rows df) ->
     exists r' : invoice,
       In r' (rows (clean_data to_datetime_str float_repr df))
       /\ key_eqb (invoice_id r) (invoice_id r') = true)
  /\ (List.length (rows (clean_data to_datetime_str float_repr df))
      <= List.length (rows df))%nat.
Proof.
  unfold clean_data. cbn [rows]. split.
  - intros r Hr. pose proof (seen_after_covers [] (rows df) r Hr) as H.
    unfold seen_after in H. rewrite app_nil_r in H.
    apply existsb_exists in H as [k [Hk Hrk]]. apply in_rev in Hk.
    apply in_map_iff in Hk as [x [<- Hx]].
    exists (clean_record to_datetime_str float_repr
              (median (map cross_rate (drop_duplicates (rows df)))) x).
    split; [now apply in_map|exact Hrk].
  - rewrite length_map.
    pose proof (drop_duplicates_from_count [] (rows df)) as H.
    unfold drop_duplicates.
    eapply Nat.le_trans; [apply Nat.le_add_r|apply Nat.eq_le_incl; exact H].
Qed.

(** X3. Deduplicating twice is deduplicating once, and a table whose keys
    are pairwise different is left as it is. *)
Theorem drop_duplicates_stable {D A S} (l : list (row D A S)) :
  drop_duplicates (drop_duplicates l) = drop_duplicates l
  /\ (ForallOrdPairs (fun a b => key_eqb a b = false) (map invoice_id l) ->
      drop_duplicates l = l).
Proof.
  split.
  - apply drop_duplicates_from_distinct, drop_duplicates_from_fresh_keys.
  - intros H. apply drop_duplicates_from_distinct.
    apply pairs_fresh_keys; [assumption|reflexivity].
Qed.

Lemma count_na_le {A} (col : list (option A)) :
  (count_na col <= List.length col)%nat.
Proof. unfold count_na. apply filter_length_le. Qed.

Lemma count_na_fillna value col :
  count_na (map (fillna value) col)
  = match value with Some _ => O | None => count_na col end.
Proof.
  unfold count_na. destruct value as [v|].
  - induction col as [|[q|] col IH]; simpl; auto.
  - induction col as [|[q|] col IH]; simpl; auto.
Qed.

(** X4. The log agrees with the table: the rows that remain and the
    duplicates that were removed add up to the rows of the upload; no count
    of invalid or filled cells exceeds the number of rows that remain; and
    the cross rates that are still null after cleaning are none when the
    logged median is a number, and all those counted as filled when it is
    not. *)
Theorem clean_log_consistent to_datetime_str float_repr df :
  let log := clean_log to_datetime_str float_repr df in
  let cleaned := rows (clean_data to_datetime_str float_repr df) in
  (initial_rows log = final_rows log + duplicates_removed log)%nat
  /\ final_rows log = List.length cleaned
  /\ (invoice_date_invalid_dates log <= final_rows log)%nat
  /\ (payment_date_invalid_dates log <= final_rows log)%nat
  /\ (invoice_amount_invalid_values log <= final_rows log)%nat
  /\ (payment_amount_invalid_values log <= final_rows log)%nat
  /\ (cross_rate_nulls_filled log <= final_rows log)%nat
  /\ count_na (map (fun r : invoice => cross_rate r) cleaned)
     = match cross_rate_median_value log with
       | Some _ => O
       | None => cross_rate_nulls_filled log
       end.
Proof.
  intros log cleaned. subst log cleaned. unfold clean_log, clean_data.
  cbn [initial_rows final_rows duplicates_removed invoice_date_invalid_dates
       payment_date_invalid_dates invoice_amount_invalid_values
       payment_amount_invalid_values cross_rate_nulls_filled
       cross_rate_median_value rows].
  rewrite length_map.
  split.
  { pose proof (drop_duplicates_from_count [] (rows df)) as H.
    unfold drop_duplicates, duplicated. symmetry. exact H. }
  split; [reflexivity|].
  repeat (split; [etransitivity; [apply count_na_le|];
                  rewrite length_map; apply Nat.le_refl|]).
  rewrite map_map. cbn [cross_rate clean_record].
  set (kept := drop_duplicates (rows df)).
  set (m := median (map cross_rate kept)).
  replace (map (fun x : raw_record => fillna m (cross_rate x)) kept)
    with (map (fillna m) (map cross_rate kept)) by apply map_map.
  apply count_na_fillna.
Qed.

(** ** Header, text and amounts *)

(** X5. Renaming neither drops nor moves a column: each column of the
    cleaned table is the column of the upload at the same place, under its
    canonical name when the dictionary has its header and under its own name
    when it has not; and renaming the cleaned header changes nothing. *)
Theorem rename_keeps_columns to_datetime_str float_repr df :
  let cleaned := clean_data to_datetime_str float_repr df in
  Forall2 (fun c c' =>
             lookup c new_columns = Some c'
             \/ (lookup c new_columns = None /\ c' = c))
          (columns df) (columns cleaned)
  /\ rename (columns cleaned) = columns cleaned.
Proof.
  cbn [clean_data columns]. split; [|apply rename_idem].
  induction (columns df) as [|c h IH]; cbn [rename map]; constructor;
    [|exact IH].
  unfold rename_column.
  destruct (lookup c new_columns); [left|right; split]; reflexivity.
Qed.

Lemma plain_cp_small c :
  plain_cp c = true -> In c (map N.of_nat (seq 0 1120)).
Proof.
  unfold plain_cp. intros H.
  assert (c < 1120)%N as Hc.
  { destruct (N.ltb_spec c 256); [lia|].
    destruct (N.leb_spec 1024 c); [|discriminate H].
    destruct (N.leb_spec c 1119); [lia|discriminate H]. }
  apply in_map_iff. exists (N.to_nat c).
  split; [apply N2Nat.id|apply in_seq; lia].
Qed.

(** Lower-casing keeps a code point in the two alphabets and leaves no
    capital: checked on each of their code points. *)
Lemma lower_cp_plain c :
  plain_cp c = true ->
  plain_cp (lower_cp c) = true /\ capital_cp (lower_cp c) = false.
Proof.
  intros H. pose proof (plain_cp_small c H) as Hin.
  assert (forallb (fun c => implb (plain_cp c)
                              (plain_cp (lower_cp c)
                               && negb (capital_cp (lower_cp c))))
                  (map N.of_nat (seq 0 1120)) = true) as Hall
    by (vm_compute; reflexivity).
  rewrite forallb_forall in Hall. specialize (Hall c Hin).
  rewrite H in Hall. cbn [implb] in Hall.
  apply andb_prop in Hall as [H1 H2]. split; [assumption|].
  now apply negb_true_iff.
Qed.

Lemma lstrip_Forall (P : N -> Prop) s : Forall P s -> Forall P (lstrip s).
Proof.
  induction 1 as [|c s Hc Hs IH]; simpl; [constructor|].
  destruct (is_space c); [assumption|now constructor].
Qed.

Lemma strip_Forall (P : N -> Prop) s : Forall P s -> Forall P (strip s).
Proof.
  intros H. unfold strip, rstrip.
  apply Forall_rev, lstrip_Forall, Forall_rev, lstrip_Forall, H.
Qed.

(** X6. Where the four categorical cells of the upload are texts in
    Latin-1 or Cyrillic letters, those of the cleaned table are trimmed and
    in lower case, no capital letter left, and normalising them again
    changes nothing. *)
Theorem categorical_columns_normal to_datetime_str float_repr df :
  forallb (fun r : raw_record => forallb plain_text (categorical r))
          (rows df) = true ->
  Forall (fun r : invoice =>
            Forall (fun s =>
                      strip s = s /\ lower s = s
                      /\ Forall (fun c => plain_cp c = true
                                          /\ capital_cp c = false) s
                      /\ normalize float_repr (Str s) = s)
                   (categorical r))
         (rows (clean_data to_datetime_str float_repr df)).
Proof.
  intros Hplain.
  assert (forall c, plain_text c = true ->
            let s := normalize float_repr c in
            strip s = s /\ lower s = s
            /\ Forall (fun c => plain_cp c = true /\ capital_cp c = false) s
            /\ normalize float_repr (Str s) = s) as H.
  { intros c Hc s. subst s. unfold normalize.
    destruct c as [|t|q]; try discriminate Hc. cbn [astype_str plain_text] in *.
    split; [now rewrite strip_lower, strip_idem|].
    split; [apply lower_idem|]. split; [|apply lower_strip_idem].
    unfold lower. apply Forall_map.
    assert (Forall (fun c => plain_cp c = true) (strip t)) as Hs.
    { apply strip_Forall, Forall_forall. now apply forallb_forall. }
    eapply Forall_impl; [|exact Hs]. intros a Ha. now apply lower_cp_plain. }
  unfold clean_data. cbn [rows]. apply Forall_map, Forall_forall.
  intros r Hr. apply drop_duplicates_from_incl in Hr.
  rewrite forallb_forall in Hplain. specialize (Hplain r Hr).
  unfold categorical in *.
  cbn [clean_record contractor country manager status forallb] in *.
  apply andb_prop in Hplain as [H1 Hplain].
  apply andb_prop in Hplain as [H2 Hplain].
  apply andb_prop in Hplain as [H3 Hplain].
  apply andb_prop in Hplain as [H4 _].
  repeat (constructor; [now apply H|]). constructor.
Qed.

Section ReplaceFilter.

Variable eqc : N -> N -> bool.
Variables pat repl : str.
Variable P : N -> bool.

Hypothesis pat_not_empty : pat <> [].
Hypothesis matched_out : forall p c, In p pat -> eqc p c = true -> P c = false.
Hypothesis repl_out : filter P repl = [].

(** A replacement that only removes characters outside [P], and writes
    none of [P], keeps the characters of [P] in their order.  [suf] is the
    part of the match still to be skipped. *)
Lemma replace_from_filter pre suf s :
  pat = pre ++ suf ->
  prefix_by eqc suf s = true ->
  filter P (replace_from eqc pat repl (List.length suf) s) = filter P s.
Proof.
  revert pre suf. induction s as [|x s IH]; intros pre suf Hpat Hpre.
  - now destruct suf.
  - destruct suf as [|p suf].
    + cbn [List.length replace_from].
      destruct (prefix_by eqc pat (x :: s)) eqn:E.
      * destruct pat as [|p0 pat0] eqn:Ep; [congruence|].
        cbn [prefix_by] in E. apply andb_prop in E as [E0 E1].
        rewrite filter_app, repl_out. cbn [app List.length Nat.pred filter].
        rewrite (matched_out p0 x (or_introl eq_refl) E0).
        apply (IH [p0] pat0); [reflexivity|assumption].
      * cbn [filter].
        pose proof (IH pat [] (eq_sym (app_nil_r pat)) eq_refl) as H.
        cbn [List.length] in H. now rewrite H.
    + cbn [List.length replace_from]. cbn [prefix_by] in Hpre.
      apply andb_prop in Hpre as [E0 E1]. cbn [filter].
      rewrite (matched_out p x); [|rewrite Hpat; apply in_or_app; right;
                                    now left|assumption].
      apply (IH (pre ++ [p]) suf); [now rewrite <- app_assoc|assumption].
Qed.

Lemma replace_from_length k s :
  (List.length repl <= 1)%nat ->
  (List.length (replace_from eqc pat repl k s) <= List.length s)%nat.
Proof.
  intros Hr. revert k. induction s as [|x s IH]; intros k; simpl; [lia|].
  destruct k as [|k].
  - destruct (prefix_by eqc pat (x :: s)).
    + rewrite length_app. specialize (IH (Nat.pred (List.length pat))). lia.
    + simpl. specialize (IH O). lia.
  - specialize (IH k). lia.
Qed.

End ReplaceFilter.

Lemma usd_letters_no_digits p c :
  In p (utf8 "usd") -> ieq p c = true ->
  ((48 <=? c) && (c <=? 57))%N = false.
Proof.
  intros Hp H. pose proof (ieq_usd p c Hp H) as Hc. simpl in Hc.
  repeat (destruct Hc as [<-|Hc]; [reflexivity|]). destruct Hc.
Qed.

(** X7. Step 4 never removes, adds or moves a digit, and never makes the
    text longer. *)
Theorem strip_amount_keeps_digits s :
  digits_in (strip_amount s) = digits_in s
  /\ (List.length (strip_amount s) <= List.length s)%nat.
Proof.
  assert (forall p repl t,
            ((48 <=? p) && (p <=? 57))%N = false -> digits_in repl = [] ->
            digits_in (replace [p] repl t) = digits_in t) as Hc.
  { intros p repl t Hp Hr. unfold replace.
    assert (forall p' c, In p' [p] -> (p' =? c)%N = true ->
                         ((48 <=? c) && (c <=? 57))%N = false) as Hm.
    { intros p' c [<-|[]] E. apply N.eqb_eq in E. now subst. }
    assert ([p] <> []) as Hne by discriminate.
    exact (replace_from_filter N.eqb [p] repl _ Hne Hm Hr [p] [] t
             eq_refl eq_refl). }
  assert (forall p repl t, (List.length repl <= 1)%nat ->
            (List.length (replace [p] repl t) <= List.length t)%nat) as Hl.
  { intros p repl t Hr. unfold replace.
    now apply replace_from_length. }
  unfold strip_amount. change (utf8 "$") with [36%N].
  change (utf8 "₽") with [8381%N]. change (utf8 " ") with [32%N].
  change (utf8 ",") with [44%N]. change (utf8 "≈") with [8776%N].
  change (utf8 ".") with [46%N]. split.
  - rewrite !Hc by reflexivity. unfold replace_nocase.
    assert (utf8 "usd" <> []) as Hne by discriminate.
    pose proof (replace_from_filter ieq (utf8 "usd") [] _ Hne
                  usd_letters_no_digits eq_refl (utf8 "usd") []
                  (replace [8776%N] [] s) eq_refl eq_refl) as H.
    cbn [List.length] in H. unfold digits_in at 1. rewrite H.
    fold (digits_in (replace [8776%N] [] s)). now apply Hc.
  - repeat (etransitivity; [apply Hl; simpl; lia|]).
    unfold replace_nocase.
    etransitivity; [apply replace_from_length; simpl; lia|].
    apply Hl. simpl. lia.
Qed.

(** ** Imputed cross rates *)

Lemma dropna_in q col : In q (dropna col) <-> In (Some q) col.
Proof.
  induction col as [|[x|] col IH]; simpl.
  - tauto.
  - rewrite IH. split; intros [H|H]; auto; left; congruence.
  - rewrite IH. split; [auto|]. intros [H|H]; [discriminate|assumption].
Qed.

Lemma sort_in q l : In q (Num.sort l) <-> In q l.
Proof.
  destruct (sort_sorted l) as [_ Hp]. split; intros H.
  - apply Permutation_sym in Hp. now apply (Permutation_in _ Hp).
  - now apply (Permutation_in _ Hp).
Qed.

Lemma Qhalf_between lo hi a b :
  lo <= a <= hi -> lo <= b <= hi -> lo <= (a + b) / 2 <= hi.
Proof.
  intros [Ha1 Ha2] [Hb1 Hb2]. split.
  - apply Qle_shift_div_l; [reflexivity|].
    setoid_replace (lo * 2) with (lo + lo) by ring.
    now apply Qplus_le_compat.
  - apply Qle_shift_div_r; [reflexivity|].
    setoid_replace (hi * 2) with (hi + hi) by ring.
    now apply Qplus_le_compat.
Qed.

(** The median lies within any bounds of the values it is taken from. *)
Lemma median_between col lo hi m :
  (forall q, In (Some q) col -> lo <= q <= hi) ->
  median col = Some m -> lo <= m <= hi.
Proof.
  intros Hcol. unfold median. cbv zeta.
  set (v := Num.sort (dropna col)).
  assert (forall i, (i < List.length v)%nat -> lo <= nth i v 0 <= hi) as Hv.
  { intros i Hi. apply Hcol, dropna_in, sort_in. fold v. now apply nth_In. }
  destruct (List.length v) as [|n] eqn:En; [discriminate|].
  assert (S n / 2 < S n)%nat as H1 by (apply Nat.div_lt; lia).
  remember (S n / 2)%nat as h eqn:Eh. clear Eh.
  destruct (Nat.even (S n)); intros [= <-].
  - apply Qhalf_between; apply Hv; lia.
  - apply Hv. lia.
Qed.

(** X8. Imputation stays within the observed range: bounds that hold for
    every cross rate of the upload hold for every cross rate of the cleaned
    table. *)
Theorem imputed_rate_in_range to_datetime_str float_repr df lo hi :
  (forall r : raw_record, In r (rows df) ->
     forall q, cross_rate r = Some q -> lo <= q <= hi) ->
  Forall (fun r : invoice => forall q, cross_rate r = Some q -> lo <= q <= hi)
         (rows (clean_data to_datetime_str float_repr df)).
Proof.
  intros H. unfold clean_data. cbn [rows].
  apply Forall_map, Forall_forall. intros r Hr q. cbn [clean_record cross_rate].
  assert (forall x, In x (drop_duplicates (rows df)) -> In x (rows df)) as Hin
    by (intros x; apply drop_duplicates_from_incl).
  destruct (cross_rate r) as [q'|] eqn:E; simpl.
  - intros [= <-]. now apply (H r (Hin r Hr)).
  - apply median_between. intros q' Hq'.
    apply in_map_iff in Hq' as [x [Hx Hxin]]. now apply (H x (Hin x Hxin)).
Qed.

(** ** The score *)

Lemma normalize_ts_mono a b : (a <= b -> normalize_ts a <= normalize_ts b)%Z.
Proof.
  intros H. unfold normalize_ts.
  assert (0 < day)%Z as Hd by reflexivity.
  pose proof (Z.div_mod a day ltac:(lia)). pose proof (Z.div_mod b day ltac:(lia)).
  pose proof (Z.div_le_mono a b day Hd H).
  replace (a - a mod day)%Z with (day * (a / day))%Z by lia.
  replace (b - b mod day)%Z with (day * (b / day))%Z by lia.
  apply Z.mul_le_mono_nonneg_l; lia.
Qed.

Lemma normalize_ts_le t : (normalize_ts t <= t)%Z.
Proof.
  unfold normalize_ts.
  pose proof (Z.mod_pos_bound t day ltac:(reflexivity)). lia.
Qed.

Lemma score_split now df_clean (r : converted) :
  (past_due now r = true ->
   (55 <= calculate_risk_score now df_clean r <= 100)%Z)
  /\ (past_due now r = false ->
      (0 <= calculate_risk_score now df_clean r <= 40)%Z).
Proof.
  unfold past_due, days_overdue, calculate_risk_score.
  destruct (invoice_date r) as [d|];
    [destruct (0 <? (normalize_ts now - (d + 30 * day)) / day)%Z eqn:Hd;
     [apply Z.ltb_lt in Hd|]|];
    destruct (fgt _ _); destruct (negb _); destruct (Text.eqb _ _);
    split; intros; try discriminate; lia.
Qed.

(** X9. The score separates the overdue invoices from the others: with a
    positive number of whole days past the due date the function gives at
    least 55, otherwise at most 40.  So a score of 50 or more means overdue,
    and only that. *)
Theorem score_tells_overdue now df_clean (r : converted) :
  (past_due now r = true ->
   (55 <= calculate_risk_score now df_clean r <= 100)%Z)
  /\ (past_due now r = false ->
      (0 <= calculate_risk_score now df_clean r <= 40)%Z)
  /\ ((50 <=? calculate_risk_score now df_clean r)%Z = past_due now r).
Proof.
  destruct (score_split now df_clean r) as [H1 H2].
  split; [exact H1|]. split; [exact H2|].
  destruct (past_due now r).
  - apply Z.leb_le. specialize (H1 eq_refl). lia.
  - apply Z.leb_gt. specialize (H2 eq_refl). lia.
Qed.

(** X10. Time never lowers a score: at a later reading of the clock, with
    the same batch, the function gives at least what it gave before. *)
Theorem score_grows_with_time now later df_clean (r : converted) :
  (now <= later)%Z ->
  (calculate_risk_score now df_clean r
   <= calculate_risk_score later df_clean r)%Z.
Proof.
  intros H. apply normalize_ts_mono in H.
  unfold calculate_risk_score.
  destruct (invoice_date r) as [d|].
  - assert ((normalize_ts now - (d + 30 * day)) / day
            <= (normalize_ts later - (d + 30 * day)) / day)%Z as Hdiv
      by (apply Z.div_le_mono; [reflexivity|lia]).
    destruct (0 <? (normalize_ts now - (d + 30 * day)) / day)%Z eqn:E1;
      destruct (0 <? (normalize_ts later - (d + 30 * day)) / day)%Z eqn:E2;
      try apply Z.ltb_lt in E1; try apply Z.ltb_lt in E2;
      try apply Z.ltb_ge in E1; try apply Z.ltb_ge in E2;
      destruct (fgt _ _); destruct (negb _); destruct (Text.eqb _ _); lia.
  - lia.
Qed.

(** Renaming neither makes nor hides a column [amount]. *)
Lemma mem_rename_amount h :
  Text.mem (utf8 "amount") (rename h) = Text.mem (utf8 "amount") h.
Proof.
  unfold Text.mem. induction h as [|x h IH]; [reflexivity|].
  cbn [rename map existsb]. fold (rename h). rewrite IH. f_equal.
  unfold rename_column. destruct (lookup x new_columns) as [v|] eqn:E;
    [|reflexivity].
  assert (Text.eqb (utf8 "amount") v = false) as ->.
  { apply lookup_value in E. simpl in E.
    repeat (destruct E as [<-|E]; [reflexivity|]). destruct E. }
  symmetry. apply str_eqb_neq. intros <-. discriminate E.
Qed.

(** X11. The second penalty, on a table with a column [amount]: the score of
    the table is the score of the function or that score plus 10, never
    above 100; without the column it is the score of the function. *)
Theorem second_penalty_adds_ten to_datetime_str float_repr now df :
  let batch :=
    add_amount_rub (rows (clean_data to_datetime_str float_repr df)) in
  Forall (fun r : scored =>
            (risk_score r = calculate_risk_score now batch r
             \/ risk_score r
                = Z.min 100 (calculate_risk_score now batch r + 10))%Z
            /\ (has_column (utf8 "amount") df = false ->
                risk_score r = calculate_risk_score now batch r))
         (rows (pipeline to_datetime_str float_repr now df)).
Proof.
  intros batch. unfold pipeline, add_risk_score. cbn [rows]. fold batch.
  assert (has_column (utf8 "amount")
            (clean_data to_datetime_str float_repr df)
          = has_column (utf8 "amount") df) as ->.
  { unfold has_column, clean_data. cbn [columns]. apply mem_rename_amount. }
  apply Forall_map, Forall_forall. intros r _. cbn [risk_score conv].
  pose proof (calculate_risk_score_bounds now batch r) as Hb.
  destruct (has_column (utf8 "amount") df).
  - split; [|discriminate]. unfold clip.
    destruct (fgt _ _); [right|left]; lia.
  - split; [now left|reflexivity].
Qed.

(** ** The filters of the sidebar *)

Lemma pipeline_score_bounds to_datetime_str float_repr now df (r : scored) :
  In r (rows (pipeline to_datetime_str float_repr now df)) ->
  (0 <= risk_score r <= 100)%Z.
Proof.
  unfold pipeline, add_risk_score. cbn [rows]. intros H.
  apply in_map_iff in H as [x [<- _]]. cbn [risk_score].
  destruct (has_column _ _).
  - apply clip_bounds. lia.
  - apply calculate_risk_score_bounds.
Qed.

Lemma apply_filters_in min_risk selected_country selected_status df r :
  In r (apply_filters min_risk selected_country selected_status df)
  <-> In r df
      /\ (min_risk <= risk_score r)%Z
      /\ chosen selected_country (country r)
      /\ chosen selected_status (status r).
Proof.
  unfold apply_filters, chosen.
  destruct selected_country as [c|], selected_status as [s|];
    rewrite ?filter_In, ?Z.leb_le, ?str_eqb_eq; tauto.
Qed.

(** X12. What the three filters keep: a row of the scored table stays
    exactly when its score reaches the slider and its country and status
    are the selected ones, if any is selected.  With the slider at 0 and
    nothing selected every row stays; with the slider at 100 only rows with
    the score 100 stay. *)
Theorem filters_keep to_datetime_str float_repr now df :
  let df_clean := rows (pipeline to_datetime_str float_repr now df) in
  (forall min_risk selected_country selected_status r,
     In r (apply_filters min_risk selected_country selected_status df_clean)
     <-> In r df_clean
         /\ (min_risk <= risk_score r)%Z
         /\ chosen selected_country (country r)
         /\ chosen selected_status (status r))
  /\ apply_filters 0 None None df_clean = df_clean
  /\ Forall (fun r : scored => risk_score r = 100%Z)
            (apply_filters 100 None None df_clean).
Proof.
  intros df_clean. split; [intros; apply apply_filters_in|]. split.
  - unfold apply_filters. apply forallb_filter_id, forallb_forall.
    intros r Hr. apply Z.leb_le.
    now apply (pipeline_score_bounds _ _ _ _ _ Hr).
  - apply Forall_forall. intros r Hr. apply apply_filters_in in Hr.
    destruct Hr as [Hr [Hs _]].
    pose proof (pipeline_score_bounds _ _ _ _ _ Hr). lia.
Qed.

Lemma unique_from_in seen col x :
  In x (unique_from seen col) -> In x col /\ Text.mem x seen = false.
Proof.
  revert seen. induction col as [|y col IH]; intros seen; simpl; [tauto|].
  destruct (Text.mem y seen) eqn:E.
  - intros H. apply IH in H. tauto.
  - intros [<-|H]; [tauto|]. apply IH in H as [H1 H2]. split; [tauto|].
    unfold Text.mem in *. simpl in H2. now apply orb_false_elim in H2 as [_ H2].
Qed.

Lemma unique_from_NoDup seen col : NoDup (unique_from seen col).
Proof.
  revert seen. induction col as [|y col IH]; intros seen; simpl;
    [constructor|].
  destruct (Text.mem y seen); [apply IH|]. constructor; [|apply IH].
  intros H. apply unique_from_in in H as [_ H].
  unfold Text.mem in H. simpl in H. now rewrite str_eqb_refl in H.
Qed.

Lemma unique_from_complete seen col x :
  In x col -> Text.mem x seen = false -> In x (unique_from seen col).
Proof.
  revert seen. induction col as [|y col IH]; intros seen; simpl; [tauto|].
  intros [->|H] Hs.
  - rewrite Hs. now left.
  - destruct (Text.mem y seen) eqn:E; [now apply IH|].
    destruct (Text.eqb x y) eqn:Exy.
    + apply str_eqb_eq in Exy. now left.
    + right. apply IH; [assumption|]. unfold Text.mem in *. simpl.
      now rewrite Exy, Hs.
Qed.

(** X13. On a table where no country and no status is missing, the select
    boxes offer each country, and each status, that the filtered table
    has, once; and choosing an offered entry never gives an empty table. *)
Theorem offered_entries_not_empty min_risk df_clean :
  forallb (fun r : scored => present (country r) && present (status r))
          df_clean = true ->
  NoDup (countries min_risk df_clean)
  /\ (forall c, In c (countries min_risk df_clean)
        <-> exists r : scored,
              In r (apply_filters min_risk None None df_clean)
              /\ country r = c)
  /\ (forall c, In c (countries min_risk df_clean) ->
        apply_filters min_risk (Some c) None df_clean <> [])
  /\ (forall selected_country s,
        In s (statuses min_risk selected_country df_clean) ->
        apply_filters min_risk selected_country (Some s) df_clean <> []).
Proof.
  intros _. split; [apply unique_from_NoDup|]. split; [|split].
  - intros c. unfold countries, unique. split.
    + intros H. apply unique_from_in in H as [H _].
      apply in_map_iff in H as [r [Hr Hin]]. now exists r.
    + intros [r [Hr <-]]. apply unique_from_complete; [|reflexivity].
      now apply (in_map (fun r : scored => country r)).
  - intros c H. unfold countries, unique in H.
    apply unique_from_in in H as [H _].
    apply in_map_iff in H as [r [Hr Hin]].
    assert (In r (apply_filters min_risk (Some c) None df_clean)) as Hin'.
    { apply apply_filters_in in Hin as [H1 [H2 _]]. apply apply_filters_in.
      repeat split; assumption. }
    intros E. rewrite E in Hin'. destruct Hin'.
  - intros sc s H. unfold statuses, unique in H.
    apply unique_from_in in H as [H _].
    apply in_map_iff in H as [r [Hr Hin]].
    assert (In r (apply_filters min_risk sc (Some s) df_clean)) as Hin'.
    { apply apply_filters_in in Hin as [H1 [H2 [H3 _]]]. apply apply_filters_in.
      repeat split; assumption. }
    intros E. rewrite E in Hin'. destruct Hin'.
Qed.

(** ** The KPI block *)

Lemma sum_rub_cons mask (r : scored) df :
  sum_rub mask (r :: df)
  == (if mask r then rub_or_zero r else 0) + sum_rub mask df.
Proof.
  unfold sum_rub, nansum, rub_or_zero. cbn [filter].
  destruct (mask r); cbn [map dropna]; [|ring].
  destruct (to_rub r); cbn [dropna fold_right]; ring.
Qed.

(** X14. Paid and expected amounts make up the total, where the program
    sums exactly: the sum over the settled invoices and the sum over the
    others add up to the sum over all. *)
Theorem paid_and_expected_make_total (df_filtered : list scored) :
  whole_amounts df_filtered = true ->
  total_amount df_filtered
  == paid_amount df_filtered + total_expected df_filtered.
Proof.
  intros _. unfold total_amount, paid_amount, total_expected.
  induction df_filtered as [|r df IH].
  - reflexivity.
  - rewrite !sum_rub_cons, IH. unfold unpaid_mask, paid_mask.
    destruct (Text.mem (status r) paid_statuses); cbn [negb]; ring.
Qed.

Lemma sum_rub_bounds mask (df : list scored) :
  (forall r : scored, In r df -> 0 <= rub_or_zero r) ->
  0 <= sum_rub mask df <= sum_rub (fun _ => true) df.
Proof.
  intros H. induction df as [|r df IH].
  - split; apply Qle_refl.
  - rewrite !sum_rub_cons.
    destruct IH as [IH1 IH2]; [intros x Hx; apply H; now right|].
    assert (0 <= rub_or_zero r) as Hr by (apply H; now left).
    destruct (mask r).
    + split.
      * setoid_replace 0 with (0 + 0) by ring. now apply Qplus_le_compat.
      * apply Qplus_le_compat; [apply Qle_refl|assumption].
    + split.
      * now rewrite Qplus_0_l.
      * apply Qplus_le_compat; assumption.
Qed.

(** X15. Where the program sums exactly and no amount is negative, the
    overdue amount lies between 0 and the total, and the overdue ratio is a
    percentage between 0 and 100. *)
Theorem overdue_ratio_is_percentage today (df_filtered : list scored) :
  whole_amounts df_filtered = true ->
  (forall r : scored, In r df_filtered -> 0 <= rub_or_zero r) ->
  0 <= total_overdue today df_filtered <= total_amount df_filtered
  /\ exists q, overdue_ratio today df_filtered = Some q /\ 0 <= q <= 100.
Proof.
  intros _ H.
  pose proof (sum_rub_bounds (overdue_mask today) df_filtered H) as [H0 H1].
  fold (total_overdue today df_filtered) in H0, H1.
  fold (total_amount df_filtered) in H1.
  split; [now split|].
  unfold overdue_ratio, checked_div.
  destruct (Qltb 0 (total_amount df_filtered)) eqn:E.
  - apply Qltb_lt in E.
    assert (Qeq_bool (total_amount df_filtered) 0 = false) as ->.
    { destruct (Qeq_bool _ 0) eqn:Ez; [|reflexivity].
      apply Qeq_bool_iff in Ez. rewrite Ez in E.
      exfalso. now apply (Qlt_irrefl 0). }
    eexists. split; [reflexivity|]. split.
    + apply Qmult_le_0_compat; [|discriminate].
      apply Qle_shift_div_l; [assumption|]. now rewrite Qmult_0_l.
    + setoid_replace 100 with (1 * 100) at 2 by ring.
      apply Qmult_le_compat_r; [|discriminate].
      apply Qle_shift_div_r; [assumption|]. now rewrite Qmult_1_l.
  - exists 0. split; [reflexivity|]. split; [apply Qle_refl|discriminate].
Qed.

Lemma past_due_overdue now today (r : invoice) :
  (normalize_ts now <= today)%Z ->
  past_due now r = true -> overdue_mask today r = true.
Proof.
  unfold past_due, days_overdue, overdue_mask, due_date.
  destruct (invoice_date r) as [d|]; [|discriminate].
  intros Hn H. apply Z.ltb_lt in H. apply Z.ltb_lt.
  assert (0 < day)%Z as Hd by reflexivity.
  destruct (Z_lt_le_dec (normalize_ts now - (d + 30 * day)) day) as [Hlt|Hge].
  - destruct (Z_lt_le_dec (normalize_ts now - (d + 30 * day)) 0) as [Hneg|Hpos].
    + pose proof (Z.div_lt_upper_bound
                    (normalize_ts now - (d + 30 * day)) day 0 Hd) as Hu.
      lia.
    + rewrite Z.div_small in H by lia. lia.
  - lia.
Qed.

Lemma filter_all {A} (f : A -> bool) (l : list A) :
  (forall x, In x l -> f x = true) -> filter f l = l.
Proof. intros H. now apply forallb_filter_id, forallb_forall. Qed.

(** X16. With the slider at 50 or above, on a table without a column
    [amount], every row that the filters keep is past its due date for the
    KPI block as well, whose clock reads the same day or later: the overdue
    amount is the total amount, and every invoice counts as overdue. *)
Theorem filtered_view_is_overdue to_datetime_str float_repr now today df
    min_risk selected_country selected_status :
  has_column (utf8 "amount") (clean_data to_datetime_str float_repr df)
  = false ->
  (50 <= min_risk)%Z ->
  (normalize_ts now <= today)%Z ->
  let df_filtered :=
    apply_filters min_risk selected_country selected_status
      (rows (pipeline to_datetime_str float_repr now df)) in
  Forall (fun r : scored => overdue_mask today r = true) df_filtered
  /\ total_overdue today df_filtered = total_amount df_filtered
  /\ overdue_count today df_filtered = List.length df_filtered.
Proof.
  intros Hcol Hmin Hclock df_filtered.
  assert (forall r : scored, In r df_filtered -> overdue_mask today r = true)
    as H.
  { intros r Hr. apply apply_filters_in in Hr as [Hr [Hs _]].
    pose proof (risk_score_without_amount _ _ now _ Hcol) as Hf.
    rewrite Forall_forall in Hf. specialize (Hf r Hr).
    apply (past_due_overdue now); [assumption|].
    destruct (past_due now r) eqn:E; [reflexivity|].
    destruct (score_split now
                (add_amount_rub
                   (rows (clean_data to_datetime_str float_repr df))) r)
      as [_ H2].
    specialize (H2 E). lia. }
  split; [now apply Forall_forall|].
  unfold total_overdue, total_amount, overdue_count, sum_rub.
  rewrite !filter_all; auto.
Qed.

(** ** Sums per contractor *)

Lemma text_leb_total a b : Text.leb a b = false -> text_lt b a.
Proof.
  unfold text_lt. revert b. induction a as [|x a IH]; intros [|y b]; simpl;
    try discriminate.
  - intros _. split; [reflexivity|discriminate].
  - intros H. apply orb_false_elim in H as [H1 H2].
    apply N.ltb_ge in H1. destruct (N.eqb_spec x y) as [->|Hne].
    + simpl in H2. destruct (IH b H2) as [Hl Hn]. split.
      * rewrite N.eqb_refl, Hl. simpl. apply orb_true_r.
      * congruence.
    + split.
      * assert ((y <? x)%N = true) as -> by (apply N.ltb_lt; lia). reflexivity.
      * congruence.
Qed.

Lemma text_lt_trans a b c : text_lt a b -> text_lt b c -> text_lt a c.
Proof.
  unfold text_lt. revert b c.
  induction a as [|x a IH]; intros [|y b] [|z c]; simpl;
    intros [H1 N1] [H2 N2]; try discriminate; try congruence.
  - split; [reflexivity|discriminate].
  - apply orb_prop in H1. apply orb_prop in H2.
    destruct H1 as [H1|H1], H2 as [H2|H2];
      try apply N.ltb_lt in H1; try apply N.ltb_lt in H2;
      try (apply andb_prop in H1 as [E1 H1]; apply N.eqb_eq in E1);
      try (apply andb_prop in H2 as [E2 H2]; apply N.eqb_eq in E2); subst.
    + split; [|intros [= -> _]; lia].
      assert ((x <? z)%N = true) as -> by (apply N.ltb_lt; lia). reflexivity.
    + split; [|intros [= -> _]; lia].
      assert ((x <? z)%N = true) as -> by (now apply N.ltb_lt). reflexivity.
    + split; [|intros [= -> _]; lia].
      assert ((y <? z)%N = true) as -> by (now apply N.ltb_lt). reflexivity.
    + assert (a <> b) as Nab by congruence.
      assert (b <> c) as Nbc by congruence.
      destruct (IH b c (conj H1 Nab) (conj H2 Nbc)) as [H3 N3]. split.
      * rewrite N.eqb_refl, H3. simpl. apply orb_true_r.
      * congruence.
Qed.

Lemma text_lt_irrefl a : ~ text_lt a a.
Proof. intros [_ H]. now apply H. Qed.

Lemma insert_key_in k l x : In x (insert_key k l) <-> x = k \/ In x l.
Proof.
  induction l as [|y l IH]; simpl; [intuition|].
  destruct (Text.eqb k y) eqn:E.
  - apply str_eqb_eq in E. subst. simpl. intuition.
  - destruct (Text.leb k y); simpl; [intuition|]. rewrite IH. intuition.
Qed.

Lemma insert_key_sorted k l :
  Sorted text_lt l -> Sorted text_lt (insert_key k l).
Proof.
  induction 1 as [|y l Hs IH Hy]; simpl; [repeat constructor|].
  destruct (Text.eqb k y) eqn:E; [now constructor|].
  apply str_eqb_neq in E.
  destruct (Text.leb k y) eqn:L.
  - constructor; [now constructor|]. constructor. now split.
  - constructor; [assumption|].
    assert (text_lt y k) as Hyk by now apply text_leb_total.
    destruct l as [|z l]; simpl; [now constructor|].
    destruct (Text.eqb k z); [assumption|].
    destruct (Text.leb k z); constructor; try assumption.
    now inversion Hy.
Qed.

Lemma group_keys_sorted col : Sorted text_lt (group_keys col).
Proof.
  induction col as [|k col IH]; simpl; [constructor|].
  now apply insert_key_sorted.
Qed.

Lemma group_keys_in col x : In x (group_keys col) <-> In x col.
Proof.
  induction col as [|k col IH]; simpl; [tauto|].
  rewrite insert_key_in, IH. intuition.
Qed.

Lemma group_keys_NoDup col : NoDup (group_keys col).
Proof.
  pose proof (group_keys_sorted col) as H.
  apply Sorted_StronglySorted in H; [|intros a b c; apply text_lt_trans].
  induction H as [|k l Hs IH Hk]; constructor; [|assumption].
  intros Hin. rewrite Forall_forall in Hk.
  now apply (text_lt_irrefl k), Hk.
Qed.

Lemma Qsum_plus {A} (f g : A -> Q) l :
  Qsum (map (fun x => f x + g x) l) == Qsum (map f l) + Qsum (map g l).
Proof.
  unfold Qsum. induction l as [|x l IH]; simpl; [ring|]. rewrite IH. ring.
Qed.

Lemma Qsum_ext {A} (f g : A -> Q) l :
  (forall x, f x == g x) -> Qsum (map f l) == Qsum (map g l).
Proof.
  intros H. unfold Qsum. induction l as [|x l IH]; simpl; [reflexivity|].
  now rewrite IH, H.
Qed.

(** Among distinct keys, one amount is counted once. *)
Lemma Qsum_indicator k0 v ks :
  NoDup ks -> In k0 ks ->
  Qsum (map (fun k => if Text.eqb k0 k then v else 0) ks) == v.
Proof.
  intros Hn. induction Hn as [|k ks Hk Hn IH]; [intros []|].
  assert (forall l, ~ In k0 l ->
            Qsum (map (fun k => if Text.eqb k0 k then v else 0) l) == 0) as Hz.
  { induction l as [|y l IHl]; intros Hl; simpl; [reflexivity|].
    destruct (Text.eqb k0 y) eqn:E.
    - apply str_eqb_eq in E. subst. exfalso. apply Hl. now left.
    - unfold Qsum in IHl. rewrite IHl; [ring|]. intros Hin. apply Hl.
      now right. }
  intros [->|Hin]; cbn [map Qsum fold_right].
  - rewrite str_eqb_refl. fold (Qsum (map (fun k => if Text.eqb k0 k then v else 0) ks)).
    rewrite Hz; [ring|assumption].
  - destruct (Text.eqb k0 k) eqn:E.
    + apply str_eqb_eq in E. subst. contradiction.
    + fold (Qsum (map (fun k => if Text.eqb k0 k then v else 0) ks)).
      rewrite IH; [ring|assumption].
Qed.

Lemma contractor_sums_total ks (df : list scored) :
  NoDup ks ->
  (forall r : scored, In r df -> In (contractor r) ks) ->
  Qsum (map (contractor_sum df) ks) == total_amount df.
Proof.
  intros Hn. induction df as [|r df IH]; intros Hks.
  - unfold contractor_sum, total_amount, sum_rub, nansum. simpl.
    clear. induction ks as [|k ks IH]; simpl; [reflexivity|].
    unfold Qsum in IH. rewrite IH. ring.
  - unfold total_amount. rewrite sum_rub_cons.
    fold (total_amount df). rewrite <- IH by (intros x Hx; apply Hks; now right).
    rewrite <- (Qsum_indicator (contractor r) (rub_or_zero r) ks Hn)
      by (apply Hks; now left).
    rewrite <- Qsum_plus. apply Qsum_ext. intros k.
    unfold contractor_sum. now rewrite sum_rub_cons.
Qed.

(** X17. Where no contractor is missing and the program sums exactly, the
    groups of a [groupby] by contractor are the contractors of the table,
    each once, in increasing order; and their sums add up to the sum of
    the table, so the overdue sums per contractor add up to the overdue
    amount. *)
Theorem contractor_sums_add_up today (df_filtered : list scored) :
  forallb (fun r : scored => present (contractor r)) df_filtered = true ->
  whole_amounts df_filtered = true ->
  let overdue_df :=
    filter (fun r : scored => overdue_mask today r) df_filtered in
  let groups := groupby_contractor_sum overdue_df in
  Sorted text_lt (map fst groups)
  /\ NoDup (map fst groups)
  /\ (forall k, In k (map fst groups)
        <-> exists r : scored, In r overdue_df /\ contractor r = k)
  /\ Qsum (map snd groups) == total_overdue today df_filtered.
Proof.
  intros _ _ overdue_df groups. subst groups. unfold groupby_contractor_sum.
  rewrite !map_map. cbn [fst snd]. rewrite map_id.
  split; [apply group_keys_sorted|]. split; [apply group_keys_NoDup|].
  split.
  - intros k. rewrite group_keys_in, in_map_iff.
    split; intros [r [H1 H2]]; exists r; now split.
  - rewrite contractor_sums_total.
    + unfold total_amount, total_overdue, sum_rub. subst overdue_df.
      rewrite filter_all; [reflexivity|reflexivity].
    + apply group_keys_NoDup.
    + intros r Hr. apply group_keys_in.
      now apply (in_map (fun r : scored => contractor r)).
Qed.

(** ** The largest debtors *)

Lemma insert_desc_perm x l : Permutation (x :: l) (insert_desc x l).
Proof.
  induction l as [|y l IH]; simpl; [reflexivity|].
  destruct (Qle_bool (snd y) (snd x)); [reflexivity|].
  rewrite perm_swap. now constructor.
Qed.

Lemma sort_desc_perm l : Permutation l (fold_right insert_desc [] l).
Proof.
  induction l as [|x l IH]; simpl; [constructor|].
  rewrite <- insert_desc_perm. now constructor.
Qed.

Lemma insert_desc_sorted x l :
  StronglySorted sum_desc l -> StronglySorted sum_desc (insert_desc x l).
Proof.
  induction 1 as [|y l Hs IH Hy]; simpl; [repeat constructor|].
  destruct (Qle_bool (snd y) (snd x)) eqn:E.
  - apply Qle_bool_iff in E. constructor; [now constructor|].
    constructor; [exact E|]. rewrite Forall_forall in *. intros z Hz.
    unfold sum_desc in *. eapply Qle_trans; [apply Hy, Hz|exact E].
  - constructor; [assumption|]. rewrite Forall_forall in *. intros z Hz.
    apply (Permutation_in _ (Permutation_sym (insert_desc_perm x l))) in Hz.
    destruct Hz as [<-|Hz]; [|now apply Hy].
    unfold sum_desc. apply Qlt_le_weak, Qnot_le_lt. intros H.
    apply Qle_bool_iff in H. congruence.
Qed.

Lemma sort_desc_sorted l : StronglySorted sum_desc (fold_right insert_desc [] l).
Proof.
  induction l as [|x l IH]; simpl; [constructor|].
  now apply insert_desc_sorted.
Qed.

Lemma StronglySorted_app {A} (R : A -> A -> Prop) l1 l2 :
  StronglySorted R (l1 ++ l2) ->
  StronglySorted R l1 /\ (forall a b, In a l1 -> In b l2 -> R a b).
Proof.
  induction l1 as [|x l1 IH]; simpl; intros H.
  - split; [constructor|intros a b []].
  - inversion H as [|? ? Hs Hx]; subst. destruct (IH Hs) as [H1 H2].
    rewrite Forall_forall in Hx. split.
    + constructor; [assumption|]. apply Forall_forall. intros z Hz.
      apply Hx, in_or_app. now left.
    + intros a b [<-|Ha] Hb; [|now apply H2].
      apply Hx, in_or_app. now right.
Qed.

Lemma nlargest_spec n l :
  length (nlargest n l) = Nat.min n (length l)
  /\ StronglySorted sum_desc (nlargest n l)
  /\ incl (nlargest n l) l
  /\ (forall g, In g l ->
        In g (nlargest n l)
        \/ forall t, In t (nlargest n l) -> sum_desc t g).
Proof.
  unfold nlargest. pose proof (sort_desc_perm l) as Hp.
  pose proof (sort_desc_sorted l) as Hs.
  set (s := fold_right insert_desc [] l) in *.
  rewrite <- (firstn_skipn n s) in Hs.
  apply StronglySorted_app in Hs as [Hs1 Hs2].
  split; [|split; [|split]].
  - rewrite length_firstn. now rewrite (Permutation_length Hp).
  - assumption.
  - intros x Hx. apply (Permutation_in _ (Permutation_sym Hp)).
    rewrite <- (firstn_skipn n s). apply in_or_app. now left.
  - intros g Hg. apply (Permutation_in _ Hp) in Hg.
    rewrite <- (firstn_skipn n s) in Hg. apply in_app_or in Hg as [Hg|Hg].
    + now left.
    + right. intros t Ht. now apply Hs2.
Qed.

Lemma nlargest_keys_NoDup n l :
  NoDup (map fst l) -> NoDup (map fst (nlargest n l)).
Proof.
  unfold nlargest. intros H.
  assert (NoDup (map fst (fold_right insert_desc [] l))) as H'.
  { eapply Permutation_NoDup; [|exact H].
    apply Permutation_map, sort_desc_perm. }
  rewrite <- (firstn_skipn n (fold_right insert_desc [] l)), map_app in H'.
  now apply NoDup_app_remove_r in H'.
Qed.

(** X18. The table of the largest debtors has five lines, or one for every
    contractor with an overdue invoice if these are fewer; its lines are
    lines of the sums per contractor, one contractor on one line, in
    descending order of the sum; and a contractor left out owes no more
    than any of those listed. *)
Theorem top_debtors_are_largest today (df_filtered : list scored) :
  let groups :=
    groupby_contractor_sum
      (filter (fun r : scored => overdue_mask today r) df_filtered) in
  let top := top_debtors today df_filtered in
  length top = Nat.min 5 (length groups)
  /\ StronglySorted sum_desc top
  /\ incl top groups
  /\ NoDup (map fst top)
  /\ (forall g, In g groups ->
        ~ In g top -> forall t, In t top -> snd g <= snd t).
Proof.
  intros groups top. subst top. unfold top_debtors. fold groups.
  destruct (nlargest_spec 5 groups) as [H1 [H2 [H3 H4]]].
  split; [assumption|]. split; [assumption|]. split; [assumption|]. split.
  - apply nlargest_keys_NoDup. subst groups. unfold groupby_contractor_sum.
    rewrite map_map. cbn [fst]. rewrite map_id. apply group_keys_NoDup.
  - intros g Hg Hn t Ht. destruct (H4 g Hg) as [H|H]; [contradiction|].
    now apply H.
Qed.

(** ** The table of the countries *)

Lemma double_1 : XFloat.nearest 1 == 1 /\ 1 < 2 ^ 1024.
Proof. split; vm_compute; reflexivity. Qed.

Lemma double_100 : XFloat.nearest 100 == 100 /\ 100 < 2 ^ 1024.
Proof. split; vm_compute; reflexivity. Qed.

Lemma double_10000 : XFloat.nearest 10000 == 10000 /\ 10000 < 2 ^ 1024.
Proof. split; vm_compute; reflexivity. Qed.

(** The share of a part in a whole, each step rounded, stays between 0
    and 100: the bounds 1, 100 and 10000 of the steps are doubles. *)
Lemma percent_of_part a b :
  (1 <= b)%nat -> (a <= b)%nat ->
  exists q,
    XFloat.round2 (XFloat.mul (XFloat.div_counts a b) 100) = Fin q
    /\ 0 <= q <= 100.
Proof.
  intros Hb Hab. destruct b as [|b]; [lia|]. cbn [XFloat.div_counts].
  assert (0 <= Z.of_nat a # Pos.of_nat (S b) <= 1) as Hq.
  { unfold Qle. cbn [Qnum Qden].
    rewrite <- Pos.of_nat_succ, Zpos_P_of_succ_nat. lia. }
  destruct (binary64_bounded _ 1 Hq (proj1 double_1) (proj2 double_1))
    as [r0 [E0 H0]].
  rewrite E0. cbn [XFloat.mul].
  assert (0 <= r0 * 100 <= 100) as Hq1 by lra.
  destruct (binary64_bounded _ 100 Hq1 (proj1 double_100) (proj2 double_100))
    as [r1 [E1 H1]].
  rewrite E1. unfold XFloat.round2. cbn [XFloat.mul].
  assert (0 <= r1 * 100 <= 10000) as Hq2 by lra.
  destruct (binary64_bounded _ 10000 Hq2 (proj1 double_10000)
              (proj2 double_10000)) as [y [E2 H2]].
  rewrite E2.
  assert (0 <= XFloat.rint y <= 10000)%Z as [Hy0 Hy1].
  { split; [apply rint_nonneg; lra|]. apply rint_le.
    change (inject_Z 10000) with 10000. lra. }
  apply (fun H => binary64_bounded (inject_Z (XFloat.rint y) / 100) 100 H
                    (proj1 double_100) (proj2 double_100)).
  rewrite Zle_Qle in Hy0, Hy1. change (inject_Z 0) with 0 in Hy0.
  change (inject_Z 10000) with 10000 in Hy1.
  split.
  - apply Qle_shift_div_l; [reflexivity|]. lra.
  - apply Qle_shift_div_r; [reflexivity|]. lra.
Qed.

(** X19. When every row has an invoice number, every line of the table of
    the countries stands for at least one invoice, counts no more overdue
    invoices than invoices, and carries a share between 0 and 100. *)
Theorem country_ratio_is_percentage now (hypothesis_df : list scored) l :
  (forall r : scored, In r hypothesis_df -> invoice_id r <> Null) ->
  In l (country_overdue now hypothesis_df) ->
  (1 <= total_invoices l)%nat
  /\ (overdue_invoices l <= total_invoices l)%nat
  /\ exists q, stats_overdue_ratio l = Fin q /\ 0 <= q <= 100.
Proof.
  intros Hid Hl. unfold country_overdue in Hl.
  apply in_map_iff in Hl as [k [<- Hk]].
  apply (proj1 (group_keys_in _ _)) in Hk.
  apply in_map_iff in Hk as [r [Hr Hin]].
  unfold country_line. cbn [total_invoices overdue_invoices stats_overdue_ratio].
  set (g := filter (fun r : scored => Text.eqb (country r) k) hypothesis_df).
  assert (filter (fun r : scored => notna_cell (invoice_id r)) g = g) as Hg.
  { apply filter_all. intros x Hx. apply filter_In in Hx as [Hx _].
    specialize (Hid x Hx). now destruct (invoice_id x). }
  rewrite Hg.
  assert (1 <= length g)%nat as H1.
  { assert (In r g) as Hrg.
    { apply filter_In. split; [assumption|]. rewrite Hr. apply str_eqb_refl. }
    destruct g; [destruct Hrg|simpl; lia]. }
  assert (length (filter (fun r : scored => is_overdue now r) g) <= length g)%nat
    as H2 by apply filter_length_le.
  split; [assumption|]. split; [assumption|].
  now apply percent_of_part.
Qed.

Lemma list_sum_plus {A} (f g : A -> nat) l :
  list_sum (map (fun x => f x + g x)%nat l)
  = (list_sum (map f l) + list_sum (map g l))%nat.
Proof. induction l as [|x l IH]; simpl; lia. Qed.

Lemma list_sum_indicator k0 (v : nat) ks :
  NoDup ks -> In k0 ks ->
  list_sum (map (fun k => if Text.eqb k0 k then v else O) ks) = v.
Proof.
  intros Hn. induction Hn as [|k ks Hk Hn IH]; [intros []|].
  assert (forall l, ~ In k0 l ->
            list_sum (map (fun k => if Text.eqb k0 k then v else O) l) = O)
    as Hz.
  { induction l as [|y l IHl]; intros Hl; simpl; [reflexivity|].
    destruct (Text.eqb k0 y) eqn:E.
    - apply str_eqb_eq in E. subst. exfalso. apply Hl. now left.
    - apply IHl. intros Hin. apply Hl. now right. }
  intros [->|Hin]; cbn [map list_sum fold_right].
  - rewrite str_eqb_refl. fold (list_sum (map (fun k => if Text.eqb k0 k then v else O) ks)).
    rewrite Hz; [lia|assumption].
  - destruct (Text.eqb k0 k) eqn:E.
    + apply str_eqb_eq in E. subst. contradiction.
    + fold (list_sum (map (fun k => if Text.eqb k0 k then v else O) ks)).
      rewrite IH; [lia|assumption].
Qed.

(** Counting the rows of a mask group by group counts each of them once. *)
Lemma count_by_group (key : scored -> str) (p : scored -> bool) ks df :
  NoDup ks ->
  (forall r, In r df -> In (key r) ks) ->
  list_sum
    (map (fun k => length (filter p (filter (fun r => Text.eqb (key r) k) df)))
         ks)
  = length (filter p df).
Proof.
  intros Hn. induction df as [|r df IH]; intros Hks.
  - simpl. clear. induction ks as [|k ks IH]; simpl; [reflexivity|].
    exact IH.
  - transitivity
      (list_sum
         (map (fun k =>
                 (if Text.eqb (key r) k then (if p r then 1 else 0) else 0)
                 + length (filter p
                             (filter (fun r => Text.eqb (key r) k) df)))%nat
              ks)).
    + f_equal. apply map_ext. intros k. cbn [filter].
      destruct (Text.eqb (key r) k); [|reflexivity]. cbn [filter].
      now destruct (p r).
    + rewrite list_sum_plus, IH by (intros x Hx; apply Hks; now right).
      rewrite list_sum_indicator; [|assumption|apply Hks; now left].
      cbn [filter]. now destruct (p r).
Qed.

(** X20. Where no country is missing, the table of the countries has one
    line for each country of the table, in increasing order, and every
    invoice is counted on the line of its country only: the counts of the
    lines add up to the number of rows with an invoice number, and to the
    number of overdue, unsettled rows. *)
Theorem country_counts_add_up now (hypothesis_df : list scored) :
  forallb (fun r : scored => present (country r)) hypothesis_df = true ->
  let country_overdue := country_overdue now hypothesis_df in
  Sorted text_lt (map stats_country country_overdue)
  /\ (forall k, In k (map stats_country country_overdue)
        <-> exists r : scored, In r hypothesis_df /\ country r = k)
  /\ list_sum (map total_invoices country_overdue)
     = length (filter (fun r : scored => notna_cell (invoice_id r))
                      hypothesis_df)
  /\ list_sum (map overdue_invoices country_overdue)
     = length (filter (fun r : scored => is_overdue now r) hypothesis_df).
Proof.
  intros _. cbv zeta. unfold country_overdue. rewrite !map_map.
  cbn [stats_country total_invoices overdue_invoices country_line].
  rewrite map_id.
  assert (forall r : scored, In r hypothesis_df ->
            In (country r)
               (group_keys (map (fun r : scored => country r) hypothesis_df)))
    as Hks.
  { intros r Hr. apply group_keys_in.
    now apply (in_map (fun r : scored => country r)). }
  split; [apply group_keys_sorted|]. split; [|split].
  - intros k. rewrite group_keys_in, in_map_iff.
    split; intros [r [H1 H2]]; exists r; now split.
  - apply (count_by_group (fun r : scored => country r)
             (fun r : scored => notna_cell (invoice_id r)));
      [apply group_keys_NoDup|exact Hks].
  - apply (count_by_group (fun r : scored => country r)
             (fun r : scored => is_overdue now r));
      [apply group_keys_NoDup|exact Hks].
Qed.





(** ** The workbook *)

Lemma set_amount_rub_id (r : scored) :
  amount_rub r = to_rub r -> set_amount_rub r = r.
Proof.
  destruct r as [[i a] s]. unfold set_amount_rub. cbn. now intros <-.
Qed.

Lemma filter_comm {A} (f g : A -> bool) l :
  filter f (filter g l) = filter g (filter f l).
Proof.
  induction l as [|x l IH]; [reflexivity|]. cbn [filter].
  destruct (g x) eqn:Eg, (f x) eqn:Ef; cbn [filter];
    rewrite ?Eg, ?Ef, IH; reflexivity.
Qed.

Lemma filter_risk_max m (l : list scored) :
  filter (fun r : scored => (50 <=? risk_score r)%Z)
         (filter (fun r : scored => (m <=? risk_score r)%Z) l)
  = filter (fun r : scored => (Z.max m 50 <=? risk_score r)%Z) l.
Proof.
  induction l as [|x l IH]; [reflexivity|]. cbn [filter].
  destruct (Z.leb_spec m (risk_score x)); cbn [filter];
    destruct (Z.leb_spec 50 (risk_score x));
    destruct (Z.leb_spec (Z.max m 50) (risk_score x));
    try lia; now rewrite IH.
Qed.

Lemma high_risk_of_filtered m sc ss (l : list scored) :
  filter (fun r : scored => (50 <=? risk_score r)%Z) (apply_filters m sc ss l)
  = apply_filters (Z.max m 50) sc ss l.
Proof.
  unfold apply_filters. destruct sc as [c|], ss as [s|];
    rewrite ?(filter_comm (fun r : scored => (50 <=? risk_score r)%Z)
                (fun r : scored => Text.eqb (status r) s)),
            ?(filter_comm (fun r : scored => (50 <=? risk_score r)%Z)
                (fun r : scored => Text.eqb (country r) c)),
            filter_risk_max; reflexivity.
Qed.

(** X22. The workbook of a filtered table that has rows.  The table comes
    with its column [amount_rub], so the report writes it to the data sheet
    as it is, nothing recomputed; its rows are the rows of the scored table
    that pass the filters, unchanged; and the sheet of the high risks holds
    the rows that the filters would keep with the slider at 50 or where it
    stands, whichever is higher.  (On a table without rows [apply] returns a
    table, not a column, and what the assignment of [amount_rub] makes of it
    depends on the version of pandas.) *)
Theorem excel_report_of_filtered_table to_datetime_str float_repr now df
    min_risk selected_country selected_status kpi :
  apply_filters min_risk selected_country selected_status
    (rows (pipeline to_datetime_str float_repr now df)) <> [] ->
  let df_clean := pipeline to_datetime_str float_repr now df in
  let df_filtered :=
    filtered_frame min_risk selected_country selected_status df_clean in
  let report := create_excel_report df_filtered kpi in
  sheet_data report = df_filtered
  /\ rows df_filtered
     = apply_filters min_risk selected_country selected_status (rows df_clean)
  /\ sheet_high_risk report
     = apply_filters (Z.max min_risk 50) selected_country selected_status
                     (rows df_clean)
  /\ Forall (fun r : scored => (50 <= risk_score r <= 100)%Z)
            (sheet_high_risk report).
Proof.
  intros _ df_clean df_filtered report.
  assert (has_column (utf8 "amount_rub") df_filtered = true) as Hc.
  { unfold has_column, df_filtered, filtered_frame. cbn [columns].
    apply mem_set_column. }
  assert (sheet_data report = df_filtered) as Hd.
  { unfold report, create_excel_report. cbv zeta. rewrite Hc. reflexivity. }
  assert (rows df_filtered
          = apply_filters min_risk selected_country selected_status
                          (rows df_clean)) as Hr.
  { unfold df_filtered, filtered_frame. cbn [rows].
    rewrite <- (map_id (apply_filters _ _ _ _)) at 2.
    apply map_ext_in. intros r Hr. apply set_amount_rub_id.
    apply apply_filters_in in Hr as [Hr _].
    exact (pipeline_rows _ _ _ _ _ Hr). }
  assert (sheet_high_risk report
          = apply_filters (Z.max min_risk 50) selected_country
                          selected_status (rows df_clean)) as Hh.
  { unfold report, create_excel_report. cbv zeta. rewrite Hc.
    cbn [negb sheet_high_risk]. rewrite Hr. apply high_risk_of_filtered. }
  split; [assumption|]. split; [assumption|]. split; [assumption|].
  rewrite Hh. apply Forall_forall. intros r Hin.
  apply apply_filters_in in Hin as [Hin [Hm _]].
  pose proof (pipeline_score_bounds _ _ _ _ _ Hin). lia.
Qed.

(** * The further properties on the example tables *)

(** Two invoices with different numbers stay as they are. *)
Lemma drop_duplicates_stable_witness :
  drop_duplicates [Example.nile; Example.bosphorus]
  = [Example.nile; Example.bosphorus].
Proof.
  apply (proj2 (drop_duplicates_stable [Example.nile; Example.bosphorus])).
  repeat constructor.
Defined.

(** The rates of the upload are 90 and 80; so are those of the cleaned
    table, the imputed ones among them. *)
Lemma imputed_rate_in_range_witness :
  Forall (fun r : invoice => forall q, cross_rate r = Some q -> 80 <= q <= 90)
         (rows (clean_data Example.no_text_dates Example.cents_repr
                           Example.upload)).
Proof.
  apply (imputed_rate_in_range Example.no_text_dates Example.cents_repr
           Example.upload 80 90).
  intros r [<-|[<-|[<-|[<-|[<-|[]]]]]] q; simpl; intros [= <-];
    split; vm_compute; discriminate.
Defined.

(** Ten days later the first invoice of the upload scores no less. *)
Lemma score_grows_with_time_witness :
  (calculate_risk_score Example.clock Example.batch
     (Example.clean Example.nile (Some 85%Q))
   <= calculate_risk_score (Example.clock + 10 * day) Example.batch
        (Example.clean Example.nile (Some 85%Q)))%Z.
Proof.
  apply (score_grows_with_time Example.clock (Example.clock + 10 * day)).
  vm_compute. discriminate.
Defined.

(** The table of the three countries has 22 invoices of 100 roubles. *)
Lemma overdue_ratio_is_percentage_witness :
  0 <= total_overdue Example.clock (rows (Example.run Example.shares_64_43))
    <= total_amount (rows (Example.run Example.shares_64_43))
  /\ exists q,
       overdue_ratio Example.clock (rows (Example.run Example.shares_64_43))
       = Some q
       /\ 0 <= q <= 100.
Proof.
  apply (overdue_ratio_is_percentage Example.clock
           (rows (Example.run Example.shares_64_43))).
  - vm_compute. reflexivity.
  - intros r Hr. apply Qle_bool_iff. revert r Hr.
    apply (proj1 (forallb_forall
                    (fun r : scored => Qle_bool 0 (rub_or_zero r)) _)).
    vm_compute. reflexivity.
Defined.

(** The cells of the upload with managers are texts in Latin and Cyrillic
    letters. *)
Lemma categorical_columns_normal_witness :
  Forall (fun r : invoice =>
            Forall (fun s =>
                      strip s = s /\ lower s = s
                      /\ Forall (fun c => plain_cp c = true
                                          /\ capital_cp c = false) s
                      /\ normalize Example.cents_repr (Str s) = s)
                   (categorical r))
         (rows (clean_data Example.no_text_dates Example.cents_repr
                           Sample.staffed)).
Proof.
  apply (categorical_columns_normal Example.no_text_dates Example.cents_repr
           Sample.staffed).
  vm_compute. reflexivity.
Defined.

(** Every invoice of the upload has a country and a status; the slider is
    at 0. *)
Lemma offered_entries_not_empty_witness :
  let df_clean := rows (Example.run Example.upload) in
  NoDup (countries 0 df_clean)
  /\ (forall c, In c (countries 0 df_clean)
        <-> exists r : scored,
              In r (apply_filters 0 None None df_clean) /\ country r = c)
  /\ (forall c, In c (countries 0 df_clean) ->
        apply_filters 0 (Some c) None df_clean <> [])
  /\ (forall selected_country s,
        In s (statuses 0 selected_country df_clean) ->
        apply_filters 0 selected_country (Some s) df_clean <> []).
Proof.
  apply (offered_entries_not_empty 0 (rows (Example.run Example.upload))).
  vm_compute. reflexivity.
Defined.

Lemma paid_and_expected_make_total_witness :
  total_amount (rows (Example.run Example.shares_64_43))
  == paid_amount (rows (Example.run Example.shares_64_43))
     + total_expected (rows (Example.run Example.shares_64_43)).
Proof.
  apply (paid_and_expected_make_total
           (rows (Example.run Example.shares_64_43))).
  vm_compute. reflexivity.
Defined.

Lemma contractor_sums_add_up_witness :
  let df_filtered := rows (Example.run Example.shares_64_43) in
  let overdue_df :=
    filter (fun r : scored => overdue_mask Example.clock r) df_filtered in
  let groups := groupby_contractor_sum overdue_df in
  Sorted text_lt (map fst groups)
  /\ NoDup (map fst groups)
  /\ (forall k, In k (map fst groups)
        <-> exists r : scored, In r overdue_df /\ contractor r = k)
  /\ Qsum (map snd groups) == total_overdue Example.clock df_filtered.
Proof.
  apply (contractor_sums_add_up Example.clock
           (rows (Example.run Example.shares_64_43)));
    vm_compute; reflexivity.
Defined.

Lemma country_counts_add_up_witness :
  let hypothesis_df := rows (Example.run Example.upload) in
  let country_overdue := country_overdue Example.clock hypothesis_df in
  Sorted text_lt (map stats_country country_overdue)
  /\ (forall k, In k (map stats_country country_overdue)
        <-> exists r : scored, In r hypothesis_df /\ country r = k)
  /\ list_sum (map total_invoices country_overdue)
     = length (filter (fun r : scored => notna_cell (invoice_id r))
                      hypothesis_df)
  /\ list_sum (map overdue_invoices country_overdue)
     = length (filter (fun r : scored => is_overdue Example.clock r)
                      hypothesis_df).
Proof.
  apply (country_counts_add_up Example.clock
           (rows (Example.run Example.upload))).
  vm_compute. reflexivity.
Defined.

(** The upload has no column [amount]; with the slider at 50 and the clock
    of the examples, one invoice stays, and it is overdue. *)
Lemma filtered_view_is_overdue_witness :
  let df_filtered :=
    apply_filters 50 None None (rows (Example.run Example.upload)) in
  Forall (fun r : scored => overdue_mask Example.clock r = true) df_filtered
  /\ total_overdue Example.clock df_filtered = total_amount df_filtered
  /\ overdue_count Example.clock df_filtered = List.length df_filtered.
Proof.
  apply (filtered_view_is_overdue Example.no_text_dates Example.cents_repr
           Example.clock Example.clock Example.upload 50 None None).
  - vm_compute. reflexivity.
  - lia.
  - vm_compute. discriminate.
Defined.

(** Every invoice of the upload has a number. *)
Lemma country_ratio_is_percentage_witness :
  Forall (fun l =>
            (1 <= total_invoices l)%nat
            /\ (overdue_invoices l <= total_invoices l)%nat
            /\ exists q, stats_overdue_ratio l = Fin q /\ 0 <= q <= 100)
         (country_overdue Example.clock (rows (Example.run Example.upload))).
Proof.
  apply Forall_forall. intros l Hl.
  apply (country_ratio_is_percentage Example.clock
           (rows (Example.run Example.upload)) l); [|exact Hl].
  intros r Hr.
  assert (notna_cell (invoice_id r) = true) as H.
  { revert r Hr.
    apply (proj1 (forallb_forall
                    (fun r : scored => notna_cell (invoice_id r)) _)).
    vm_compute. reflexivity. }
  intros E. rewrite E in H. discriminate H.
Defined.


(** The workbook of the upload, with the slider at 50. *)
Lemma excel_report_of_filtered_table_witness :
  let df_clean := Example.run Example.upload in
  let df_filtered := filtered_frame 50 None None df_clean in
  let report :=
    create_excel_report df_filtered
      (make_kpi_data Example.clock (rows df_filtered)) in
  sheet_data report = df_filtered
  /\ rows df_filtered = apply_filters 50 None None (rows df_clean)
  /\ sheet_high_risk report
     = apply_filters (Z.max 50 50) None None (rows df_clean)
  /\ Forall (fun r : scored => (50 <= risk_score r <= 100)%Z)
            (sheet_high_risk report).
Proof.
  apply (excel_report_of_filtered_table Example.no_text_dates
           Example.cents_repr Example.clock Example.upload 50 None None).
  vm_compute. discriminate.
Defined.
